(** * A shallow embedding of @darkwolf/base64 (lib/index.mjs)

    The codec of lib/index.mjs is embedded function by function.  Numbers
    are integers in [Z]; the 32-bit wrap-around of the JavaScript bit
    operators and the rounding of Number arithmetic beyond 2^53 are written
    out.  Strings are sequences of UTF-16 code units, typed arrays are lists
    of byte values, objects used as dictionaries are [gmap]s, and a thrown
    exception is an outcome of its own. *)

From Stdlib Require Import ZArith Lia.
From stdpp Require Import base option list gmap strings.

Local Open Scope Z_scope.

(** ** JavaScript data *)

(** A string is the list of its UTF-16 code units. *)
Abbreviation jsstring := (list Z).

(** The code units of an ASCII literal. *)
Definition lit (s : string) : jsstring :=
  (λ a, Z.of_N (Ascii.N_of_ascii a)) <$> String.list_ascii_of_string s.

(** The values the entry points tell apart. *)
Inductive value :=
| VUndefined
| VString (s : jsstring)
| VUint8Array (bytes : list Z)
| VOther.

(** The result of [TypesToIntegerOrInfinity]; also a Number that holds an
    integer or an infinity. *)
Inductive integerOrInfinity :=
| Int (z : Z)
| PosInfinity
| NegInfinity.

(** Messages of the exceptions; template literals keep their arguments. *)
Inductive message :=
| Msg (text : string)
| InvalidAlphabetCharacter (char : option Z) (i : Z)
| AlreadyInAlphabet (char : option Z) (i : Z)
| InvalidCharacter (char : option Z) (index : Z)
| InvalidByte (charCode : option Z) (index : Z)
| InvalidTypedArrayLength (length : Z).

Inductive exn :=
| TypeError (m : message)
| RangeError (m : message)
| SyntaxError (m : message).

(** A call returns, throws, or (in the model only) exhausts the fuel of a
    [while] loop. *)
Inductive outcome (A : Type) :=
| Return (a : A)
| Throw (e : exn)
| OutOfFuel.
Arguments Return {A} a.
Arguments Throw {A} e.
Arguments OutOfFuel {A}.

#[global] Instance outcome_ret : MRet outcome := λ A a, Return a.
#[global] Instance outcome_bind : MBind outcome := λ A B f m,
  match m with
  | Return a => f a
  | Throw e => Throw e
  | OutOfFuel => OutOfFuel
  end.
#[global] Instance outcome_fmap : FMap outcome := λ A B f m,
  match m with
  | Return a => Return (f a)
  | Throw e => Throw e
  | OutOfFuel => OutOfFuel
  end.

(** [l[i]] on a string or a typed array: [undefined] out of range. *)
Definition item {A} (l : list A) (i : Z) : option A :=
  if i <? 0 then None else l !! Z.to_nat i.

(** [o[key]] on a dictionary whose keys are one-character strings (or
    numbers): the property named [undefined] is never written, so reading
    it gives [undefined]. *)
Definition getProp (o : gmap Z Z) (key : option Z) : option Z :=
  key ≫= (o !!.).

(** [o[key] = v]. *)
Definition setProp (o : gmap Z Z) (key : Z) (v : Z) : gmap Z Z :=
  <[key := v]> o.

(** A character inside a template literal or appended to a string. *)
Definition toString (char : option Z) : jsstring :=
  match char with
  | Some c => [c]
  | None => lit "undefined"
  end.

(** ** 32-bit operators *)

Definition ToInt32 (x : Z) : Z :=
  let m := x mod 2 ^ 32 in
  if m <? 2 ^ 31 then m else m - 2 ^ 32.

(** [x << k] *)
Definition shl (x k : Z) : Z := ToInt32 (Z.shiftl (ToInt32 x) (k mod 32)).
(** [x >> k] *)
Definition sar (x k : Z) : Z := Z.shiftr (ToInt32 x) (k mod 32).
(** [x & y] *)
Definition band (x y : Z) : Z := Z.land (ToInt32 x) (ToInt32 y).
(** [x | y] *)
Definition bor (x y : Z) : Z := Z.lor (ToInt32 x) (ToInt32 y).

(** A byte read from a typed array, as an operand of the arithmetic. *)
Definition byteAt (input : list Z) (i : Z) : Z := default 0 (item input i).

(** [new Uint8Array(length)] for a Number [length] given as the quotient
    [num / den]: the length is truncated to an integer, a negative one
    throws. *)
Definition newUint8Array (num den : Z) : outcome (list Z) :=
  let length := Z.quot num den in
  if length <? 0 then Throw (RangeError (InvalidTypedArrayLength length))
  else Return (replicate (Z.to_nat length) 0).

(** [array[i] = v] on a Uint8Array: the value is stored modulo 256, an
    index out of range is ignored. *)
Definition store (array : list Z) (i : Z) (v : Z) : list Z :=
  if i <? 0 then array else <[Z.to_nat i := v mod 256]> array.

(** ** Constants *)

Definition BASE : Z := 64.

Definition ALPHABET : jsstring :=
  lit "ABCDEFGHIJKLMNOPQRSTUVWXYZabcdefghijklmnopqrstuvwxyz0123456789+/".

Definition BITS_PER_CHAR : Z := 6.

(** ["="] *)
Definition PADDING_CHAR : Z := 61.
(** ["-"] *)
Definition NEGATIVE_CHAR : Z := 45.

Definition NumberMAX_SAFE_INTEGER : Z := 2 ^ 53 - 1.
Definition NumberMIN_SAFE_INTEGER : Z := - (2 ^ 53 - 1).

(** ** The alphabet table *)

Record lookups := {
  lookups_lookup : gmap Z Z;
  lookups_baseMap : list Z;
  lookups_baseMapLookup : gmap Z Z
}.

(** One turn of the loop of [createAlphabetLookups].  The alphabet has
    [BASE] characters whenever the constructor calls it, so [alphabet[i]]
    is a character. *)
Definition createAlphabetLookups_step (alphabet : jsstring)
    (acc : lookups) (i : Z) : lookups :=
  match item alphabet i with
  | Some char =>
      let charCode := char in
      {| lookups_lookup := setProp (lookups_lookup acc) char i;
         lookups_baseMap := store (lookups_baseMap acc) i charCode;
         lookups_baseMapLookup := setProp (lookups_baseMapLookup acc) charCode i |}
  | None => acc
  end.

Definition createAlphabetLookups (alphabet : jsstring) : lookups :=
  foldl (createAlphabetLookups_step alphabet)
    {| lookups_lookup := ∅;
       lookups_baseMap := replicate (Z.to_nat BASE) 0;
       lookups_baseMapLookup := ∅ |}
    (seqZ 0 BASE).

Record Base64 := {
  alphabetSymbol : jsstring;
  alphabetLookupSymbol : gmap Z Z;
  baseMapSymbol : list Z;
  baseMapLookupSymbol : gmap Z Z
}.

(** The fields the constructor sets from an alphabet. *)
Definition instanceOf (alphabet : jsstring) : Base64 :=
  let lookups := createAlphabetLookups alphabet in
  {| alphabetSymbol := alphabet;
     alphabetLookupSymbol := lookups_lookup lookups;
     baseMapSymbol := lookups_baseMap lookups;
     baseMapLookupSymbol := lookups_baseMapLookup lookups |}.

(** [const base64 = new Base64()]: [toAlphabet(undefined)] is [ALPHABET]. *)
Definition base64 : Base64 := instanceOf ALPHABET.

(** The loop of [isAlphabet]. *)
Fixpoint isAlphabet_for (indices : list Z) (value : jsstring)
    (alphabetLookup uniqueCharsLookup : gmap Z Z) : bool :=
  match indices with
  | [] => true
  | i :: rest =>
      let char := item value i in
      if bool_decide (getProp alphabetLookup char = None)
         || negb (bool_decide (getProp uniqueCharsLookup char = None))
      then false
      else isAlphabet_for rest value alphabetLookup
             (from_option (λ c, setProp uniqueCharsLookup c i) uniqueCharsLookup char)
  end.

Definition isAlphabet (value : value) : bool :=
  match value with
  | VString s =>
      if negb (Z.of_nat (length s) =? BASE) then false
      else isAlphabet_for (seqZ 0 BASE) s (alphabetLookupSymbol base64) ∅
  | _ => false
  end.

(** The loop of [toAlphabet]. *)
Fixpoint toAlphabet_for (indices : list Z) (value : jsstring)
    (alphabetLookup uniqueCharsLookup : gmap Z Z) : outcome unit :=
  match indices with
  | [] => Return ()
  | i :: rest =>
      let char := item value i in
      if bool_decide (getProp alphabetLookup char = None)
      then Throw (SyntaxError (InvalidAlphabetCharacter char i))
      else if negb (bool_decide (getProp uniqueCharsLookup char = None))
      then Throw (SyntaxError (AlreadyInAlphabet char i))
      else toAlphabet_for rest value alphabetLookup
             (from_option (λ c, setProp uniqueCharsLookup c i) uniqueCharsLookup char)
  end.

Definition toAlphabet (value : value) : outcome jsstring :=
  match value with
  | VUndefined => Return ALPHABET
  | VString s =>
      if negb (Z.of_nat (length s) =? BASE)
      then Throw (RangeError (Msg "The length of the alphabet must be equal to 64"))
      else
        _ ← toAlphabet_for (seqZ 0 BASE) s (alphabetLookupSymbol base64) ∅;
        Return s
  | _ => Throw (TypeError (Msg "The alphabet must be a string"))
  end.

(** [new Base64(alphabet)] *)
Definition constructor (alphabet : value) : outcome Base64 :=
  alphabet ← toAlphabet alphabet;
  Return (instanceOf alphabet).

(** ** The numeral codec *)

(** The nearest binary64 value of a non-negative integer [x] (ties to
    even, infinity from 2^1024 on): the value of a Number expression whose
    exact value is [x]. *)
Definition roundNumber (x : Z) : integerOrInfinity :=
  if x <? 2 ^ 53 then Int x
  else
    let e := Z.log2 x - 52 in
    let q := x / 2 ^ e in
    let r := x mod 2 ^ e in
    let half := 2 ^ (e - 1) in
    let q' := if r <? half then q
              else if half <? r then q + 1
              else if Z.even q then q else q + 1 in
    let y := q' * 2 ^ e in
    if 2 ^ 1024 <=? y then PosInfinity else Int y.

(** [result * BASE + index] on Numbers; the product by 64 is exact, the sum
    is rounded. *)
Definition mulAdd (result : integerOrInfinity) (index : Z) : integerOrInfinity :=
  match result with
  | Int r => roundNumber (r * BASE + index)
  | inf => inf
  end.

(** The loop [while (number) { ... }] of [encodeInt]; [number] is a
    positive safe integer, on which [%] and [MathFloor(_ / BASE)] are
    exact. *)
Fixpoint encodeInt_while (fuel : nat) (alphabet : jsstring)
    (number : Z) (result : jsstring) : outcome jsstring :=
  if number =? 0 then Return result
  else
    match fuel with
    | O => OutOfFuel
    | S fuel =>
        let result := toString (item alphabet (Z.rem number BASE)) ++ result in
        let number := number / BASE in
        encodeInt_while fuel alphabet number result
    end.

(** [encodeInt(value)], from the result of [TypesToIntegerOrInfinity(value)]. *)
Definition encodeInt (this : Base64) (number : integerOrInfinity) : outcome jsstring :=
  match number with
  | NegInfinity =>
      Throw (RangeError (Msg "The value must be greater than or equal to the minimum safe integer"))
  | PosInfinity =>
      Throw (RangeError (Msg "The value must be less than or equal to the maximum safe integer"))
  | Int number =>
      if number <? NumberMIN_SAFE_INTEGER then
        Throw (RangeError (Msg "The value must be greater than or equal to the minimum safe integer"))
      else if NumberMAX_SAFE_INTEGER <? number then
        Throw (RangeError (Msg "The value must be less than or equal to the maximum safe integer"))
      else
        let alphabet := alphabetSymbol this in
        if number =? 0 then Return (toString (item alphabet 0))
        else
          let isNegative := number <? 0 in
          let number := if isNegative then - number else number in
          result ← encodeInt_while (S (Z.to_nat (Z.log2 number))) alphabet number [];
          Return (if isNegative then NEGATIVE_CHAR :: result else result)
  end.

(** The loop of [decodeInt]. *)
Fixpoint decodeInt_for (indices : list Z) (string : jsstring)
    (alphabetLookup : gmap Z Z) (result : integerOrInfinity)
    : outcome integerOrInfinity :=
  match indices with
  | [] => Return result
  | i :: rest =>
      let char := item string i in
      match getProp alphabetLookup char with
      | None => Throw (SyntaxError (InvalidCharacter char i))
      | Some index => decodeInt_for rest string alphabetLookup (mulAdd result index)
      end
  end.

(** [decodeInt(string)], from the result of [String(string)]. *)
Definition decodeInt (this : Base64) (string : jsstring) : outcome integerOrInfinity :=
  let alphabetLookup := alphabetLookupSymbol this in
  let length := Z.of_nat (length string) in
  let isNegative := bool_decide (item string 0 = Some NEGATIVE_CHAR) in
  let first := if isNegative && (1 <? length) then 1 else 0 in
  result ← decodeInt_for (seqZ first (length - first)) string alphabetLookup (Int 0);
  Return (if isNegative then
            match result with
            | Int r => if 0 <? r then Int (- r) else result
            | PosInfinity => NegInfinity
            | NegInfinity => result
            end
          else result).

(** The loop [while (bigInt) { ... }] of [encodeBigInt]; BigInt [%] and
    [/] truncate. *)
Fixpoint encodeBigInt_while (fuel : nat) (alphabet : jsstring)
    (bigInt : Z) (result : jsstring) : outcome jsstring :=
  if bigInt =? 0 then Return result
  else
    match fuel with
    | O => OutOfFuel
    | S fuel =>
        let result := toString (item alphabet (Z.rem bigInt 64)) ++ result in
        let bigInt := Z.quot bigInt 64 in
        encodeBigInt_while fuel alphabet bigInt result
    end.

(** [encodeBigInt(value)], from the result of [TypesToBigInt(value)]. *)
Definition encodeBigInt (this : Base64) (bigInt : Z) : outcome jsstring :=
  let alphabet := alphabetSymbol this in
  if bigInt =? 0 then Return (toString (item alphabet 0))
  else
    let isNegative := bigInt <? 0 in
    let bigInt := if isNegative then - bigInt else bigInt in
    result ← encodeBigInt_while (S (Z.to_nat (Z.log2 bigInt))) alphabet bigInt [];
    Return (if isNegative then NEGATIVE_CHAR :: result else result).

(** The loop of [decodeBigInt]. *)
Fixpoint decodeBigInt_for (indices : list Z) (string : jsstring)
    (alphabetLookup : gmap Z Z) (result : Z) : outcome Z :=
  match indices with
  | [] => Return result
  | i :: rest =>
      let char := item string i in
      match getProp alphabetLookup char with
      | None => Throw (SyntaxError (InvalidCharacter char i))
      | Some index => decodeBigInt_for rest string alphabetLookup (result * 64 + index)
      end
  end.

(** [decodeBigInt(string)], from the result of [String(string)]. *)
Definition decodeBigInt (this : Base64) (string : jsstring) : outcome Z :=
  let alphabetLookup := alphabetLookupSymbol this in
  let length := Z.of_nat (length string) in
  let isNegative := bool_decide (item string 0 = Some NEGATIVE_CHAR) in
  let first := if isNegative && (1 <? length) then 1 else 0 in
  result ← decodeBigInt_for (seqZ first (length - first)) string alphabetLookup 0;
  Return (if isNegative then - result else result).

(** ** The buffer codec *)

(** [x < 0 ? MathMax(0, length + x) : MathMin(x, length)], the index a
    [start] or [end] argument selects. *)
Definition clampIndex (length : Z) (x : integerOrInfinity) : Z :=
  match x with
  | Int x => if x <? 0 then Z.max 0 (length + x) else Z.min x length
  | PosInfinity => length
  | NegInfinity => 0
  end.

(** [startIndex] and [endIndex]; an argument is [None] when [undefined],
    else the result of [TypesToIntegerOrInfinity]. *)
Definition startIndexOf (length : Z) (start : option integerOrInfinity) : Z :=
  from_option (clampIndex length) 0 start.
Definition endIndexOf (length : Z) (end_ : option integerOrInfinity) : Z :=
  from_option (clampIndex length) length end_.

(** The first loop of [[encodeToStringSymbol]]. *)
Fixpoint encodeToString_while (fuel : nat) (alphabet : jsstring) (input : list Z)
    (extraLength index : Z) (result : jsstring) : outcome (Z * jsstring) :=
  if index <? extraLength then
    match fuel with
    | O => OutOfFuel
    | S fuel =>
        let number := shl (byteAt input index) 16
                      + shl (byteAt input (index + 1)) 8
                      + byteAt input (index + 2) in
        let result := result ++ toString (item alphabet (band (sar number 18) 0x3f)) in
        let result := result ++ toString (item alphabet (band (sar number 12) 0x3f)) in
        let result := result ++ toString (item alphabet (band (sar number 6) 0x3f)) in
        let result := result ++ toString (item alphabet (band number 0x3f)) in
        encodeToString_while fuel alphabet input extraLength (index + 3) result
    end
  else Return (index, result).

Definition encodeToStringSymbol (this : Base64) (input : list Z)
    (start end_ : option integerOrInfinity) : outcome jsstring :=
  let alphabet := alphabetSymbol this in
  let length := Z.of_nat (length input) in
  let startIndex := startIndexOf length start in
  let endIndex := endIndexOf length end_ in
  let newLength := Z.max 0 (endIndex - startIndex) in
  let extraBytes := Z.rem newLength 3 in
  let extraLength := endIndex - extraBytes in
  '(index, result) ← encodeToString_while (Z.to_nat newLength) alphabet input
                        extraLength startIndex [];
  if extraBytes =? 0 then Return result
  else
    let result :=
      if extraBytes =? 1 then
        let number := byteAt input index in
        let result := result ++ toString (item alphabet (sar number 2)) in
        result ++ toString (item alphabet (band (shl number 4) 0x3f))
      else if extraBytes =? 2 then
        let number := shl (byteAt input index) 8 + byteAt input (index + 1) in
        let result := result ++ toString (item alphabet (sar number 10)) in
        let result := result ++ toString (item alphabet (band (sar number 4) 0x3f)) in
        result ++ toString (item alphabet (band (shl number 2) 0x3f))
      else result in
    Return (result ++ replicate (Z.to_nat (3 - extraBytes)) PADDING_CHAR).

(** [alphabetLookup[string[index]]], or the SyntaxError of a miss. *)
Definition charIndexAt (alphabetLookup : gmap Z Z) (string : jsstring)
    (index : Z) : outcome Z :=
  let char := item string index in
  match getProp alphabetLookup char with
  | None => Throw (SyntaxError (InvalidCharacter char index))
  | Some charIndex => Return charIndex
  end.

(** The loop that counts the padding of [[decodeFromStringSymbol]]. *)
Fixpoint paddingCount_while (fuel : nat) (string : jsstring)
    (newLength lastIndex paddingCount : Z) : outcome Z :=
  if (paddingCount <? newLength) && (paddingCount <? 2)
     && bool_decide (item string (lastIndex - paddingCount) = Some PADDING_CHAR)
  then
    match fuel with
    | O => OutOfFuel
    | S fuel => paddingCount_while fuel string newLength lastIndex (paddingCount + 1)
    end
  else Return paddingCount.

(** The main loop of [[decodeFromStringSymbol]]. *)
Fixpoint decodeFromString_while (fuel : nat) (alphabetLookup : gmap Z Z)
    (string : jsstring) (extraLength index resultIndex : Z) (result : list Z)
    : outcome (Z * Z * list Z) :=
  if index <? extraLength then
    match fuel with
    | O => OutOfFuel
    | S fuel =>
        charIndex ← charIndexAt alphabetLookup string index;
        charIndex2 ← charIndexAt alphabetLookup string (index + 1);
        charIndex3 ← charIndexAt alphabetLookup string (index + 2);
        charIndex4 ← charIndexAt alphabetLookup string (index + 3);
        let number := shl charIndex 18 + shl charIndex2 12 + shl charIndex3 6
                      + charIndex4 in
        let result := store result resultIndex (band (sar number 16) 0xff) in
        let result := store result (resultIndex + 1) (band (sar number 8) 0xff) in
        let result := store result (resultIndex + 2) (band number 0xff) in
        decodeFromString_while fuel alphabetLookup string extraLength
          (index + 4) (resultIndex + 3) result
    end
  else Return (index, resultIndex, result).

Definition decodeFromStringSymbol (this : Base64) (string : jsstring)
    (start end_ : option integerOrInfinity) : outcome (list Z) :=
  let alphabetLookup := alphabetLookupSymbol this in
  let length := Z.of_nat (length string) in
  let startIndex := startIndexOf length start in
  let endIndex := endIndexOf length end_ in
  let newLength := Z.max 0 (endIndex - startIndex) in
  paddingCount ←
    (if Z.rem newLength 4 =? 0
     then paddingCount_while 2 string newLength (endIndex - 1) 0
     else Return 0);
  let validLength := newLength - paddingCount in
  let extraBytes := Z.rem validLength 4 in
  let extraLength := startIndex + validLength - extraBytes in
  result ← newUint8Array (sar (validLength * 3) 2) 1;
  '(index, resultIndex, result) ←
     decodeFromString_while (Z.to_nat newLength) alphabetLookup string
       extraLength startIndex 0 result;
  if extraBytes =? 1 then
    charIndex ← charIndexAt alphabetLookup string index;
    Return result
  else if extraBytes =? 2 then
    charIndex ← charIndexAt alphabetLookup string index;
    charIndex2 ← charIndexAt alphabetLookup string (index + 1);
    let number := shl charIndex 2 + sar charIndex2 4 in
    Return (store result resultIndex (band number 0xff))
  else if extraBytes =? 3 then
    charIndex ← charIndexAt alphabetLookup string index;
    charIndex2 ← charIndexAt alphabetLookup string (index + 1);
    charIndex3 ← charIndexAt alphabetLookup string (index + 2);
    let number := shl charIndex 10 + shl charIndex2 4 + sar charIndex3 2 in
    let result := store result resultIndex (band (sar number 8) 0xff) in
    Return (store result (resultIndex + 1) (band number 0xff))
  else Return result.

(** The loop of [encode]. *)
Fixpoint encode_while (fuel : nat) (baseMap input : list Z)
    (extraLength index resultIndex : Z) (result : list Z)
    : outcome (Z * Z * list Z) :=
  if index <? extraLength then
    match fuel with
    | O => OutOfFuel
    | S fuel =>
        let number := shl (byteAt input index) 16
                      + shl (byteAt input (index + 1)) 8
                      + byteAt input (index + 2) in
        let result := store result resultIndex (byteAt baseMap (band (sar number 18) 0x3f)) in
        let result := store result (resultIndex + 1) (byteAt baseMap (band (sar number 12) 0x3f)) in
        let result := store result (resultIndex + 2) (byteAt baseMap (band (sar number 6) 0x3f)) in
        let result := store result (resultIndex + 3) (byteAt baseMap (band number 0x3f)) in
        encode_while fuel baseMap input extraLength (index + 3) (resultIndex + 4) result
    end
  else Return (index, resultIndex, result).

(** [encode(input, start, end)] *)
Definition encode (this : Base64) (input : value)
    (start end_ : option integerOrInfinity) : outcome (list Z) :=
  match input with
  | VUint8Array input =>
      let baseMap := baseMapSymbol this in
      let length := Z.of_nat (length input) in
      let startIndex := startIndexOf length start in
      let endIndex := endIndexOf length end_ in
      let newLength := Z.max 0 (endIndex - startIndex) in
      let extraBytes := Z.rem newLength 3 in
      let extraLength := endIndex - extraBytes in
      result ← newUint8Array (bor (shl newLength 2) 2) 3;
      '(index, resultIndex, result) ←
         encode_while (Z.to_nat newLength) baseMap input extraLength startIndex 0 result;
      if extraBytes =? 1 then
        let number := byteAt input index in
        let result := store result resultIndex (byteAt baseMap (sar number 2)) in
        Return (store result (resultIndex + 1) (byteAt baseMap (band (shl number 4) 0x3f)))
      else if extraBytes =? 2 then
        let number := shl (byteAt input index) 8 + byteAt input (index + 1) in
        let result := store result resultIndex (byteAt baseMap (sar number 10)) in
        let result := store result (resultIndex + 1) (byteAt baseMap (band (sar number 4) 0x3f)) in
        Return (store result (resultIndex + 2) (byteAt baseMap (band (shl number 2) 0x3f)))
      else Return result
  | _ => Throw (TypeError (Msg "The input must be an instance of Uint8Array"))
  end.

(** [baseMapLookup[input[index]]], or the SyntaxError of a miss. *)
Definition byteIndexAt (baseMapLookup : gmap Z Z) (input : list Z)
    (index : Z) : outcome Z :=
  let charCode := item input index in
  match getProp baseMapLookup charCode with
  | None => Throw (SyntaxError (InvalidByte charCode index))
  | Some charIndex => Return charIndex
  end.

(** The loop of [decode]. *)
Fixpoint decode_while (fuel : nat) (baseMapLookup : gmap Z Z)
    (input : list Z) (extraLength index resultIndex : Z) (result : list Z)
    : outcome (Z * Z * list Z) :=
  if index <? extraLength then
    match fuel with
    | O => OutOfFuel
    | S fuel =>
        charIndex ← byteIndexAt baseMapLookup input index;
        charIndex2 ← byteIndexAt baseMapLookup input (index + 1);
        charIndex3 ← byteIndexAt baseMapLookup input (index + 2);
        charIndex4 ← byteIndexAt baseMapLookup input (index + 3);
        let number := shl charIndex 18 + shl charIndex2 12 + shl charIndex3 6
                      + charIndex4 in
        let result := store result resultIndex (band (sar number 16) 0xff) in
        let result := store result (resultIndex + 1) (band (sar number 8) 0xff) in
        let result := store result (resultIndex + 2) (band number 0xff) in
        decode_while fuel baseMapLookup input extraLength
          (index + 4) (resultIndex + 3) result
    end
  else Return (index, resultIndex, result).

(** [decode(input, start, end)] *)
Definition decode (this : Base64) (input : value)
    (start end_ : option integerOrInfinity) : outcome (list Z) :=
  match input with
  | VUint8Array input =>
      let baseMapLookup := baseMapLookupSymbol this in
      let length := Z.of_nat (length input) in
      let startIndex := startIndexOf length start in
      let endIndex := endIndexOf length end_ in
      let newLength := Z.max 0 (endIndex - startIndex) in
      let extraBytes := Z.rem newLength 4 in
      let extraLength := endIndex - extraBytes in
      result ← newUint8Array (sar (newLength * 3) 2) 1;
      '(index, resultIndex, result) ←
         decode_while (Z.to_nat newLength) baseMapLookup input extraLength
           startIndex 0 result;
      if extraBytes =? 1 then
        charIndex ← byteIndexAt baseMapLookup input index;
        Return result
      else if extraBytes =? 2 then
        charIndex ← byteIndexAt baseMapLookup input index;
        charIndex2 ← byteIndexAt baseMapLookup input (index + 1);
        let number := shl charIndex 2 + sar charIndex2 4 in
        Return (store result resultIndex (band number 0xff))
      else if extraBytes =? 3 then
        charIndex ← byteIndexAt baseMapLookup input index;
        charIndex2 ← byteIndexAt baseMapLookup input (index + 1);
        charIndex3 ← byteIndexAt baseMapLookup input (index + 2);
        let number := shl charIndex 10 + shl charIndex2 4 + sar charIndex3 2 in
        let result := store result resultIndex (band (sar number 8) 0xff) in
        Return (store result (resultIndex + 1) (band number 0xff))
      else Return result
  | _ => Throw (TypeError (Msg "The input must be an instance of Uint8Array"))
  end.

(** [encodeToString(input, start, end)] *)
Definition encodeToString (this : Base64) (input : value)
    (start end_ : option integerOrInfinity) : outcome jsstring :=
  match input with
  | VUint8Array input => encodeToStringSymbol this input start end_
  | _ => Throw (TypeError (Msg "The input must be an instance of Uint8Array"))
  end.

(** [decodeFromString(input, start, end)] *)
Definition decodeFromString (this : Base64) (input : value)
    (start end_ : option integerOrInfinity) : outcome (list Z) :=
  match input with
  | VString input => decodeFromStringSymbol this input start end_
  | _ => Throw (TypeError (Msg "The input must be a string"))
  end.

(** ** The text codec *)

(** The UTF-8 bytes of a code point. *)
Definition utf8Bytes (cp : Z) : list Z :=
  if cp <? 0x80 then [cp]
  else if cp <? 0x800 then [0xC0 + cp / 64; 0x80 + cp mod 64]
  else if cp <? 0x10000 then
    [0xE0 + cp / 4096; 0x80 + (cp / 64) mod 64; 0x80 + cp mod 64]
  else
    [0xF0 + cp / 262144; 0x80 + (cp / 4096) mod 64;
     0x80 + (cp / 64) mod 64; 0x80 + cp mod 64].

Definition isLeadSurrogate (c : Z) : bool := (0xD800 <=? c) && (c <=? 0xDBFF).
Definition isTrailSurrogate (c : Z) : bool := (0xDC00 <=? c) && (c <=? 0xDFFF).

(** [stringToUint8Array], the [encode] method of the platform's
    [TextEncoder]: the UTF-8 encoding of a string, a surrogate pair being
    one code point and a lone surrogate U+FFFD. *)
Fixpoint stringToUint8Array (string : jsstring) : list Z :=
  match string with
  | [] => []
  | c :: rest =>
      if isLeadSurrogate c then
        match rest with
        | d :: rest' =>
            if isTrailSurrogate d
            then utf8Bytes (0x10000 + (c - 0xD800) * 0x400 + (d - 0xDC00))
                 ++ stringToUint8Array rest'
            else utf8Bytes 0xFFFD ++ stringToUint8Array rest
        | [] => utf8Bytes 0xFFFD
        end
      else if isTrailSurrogate c then utf8Bytes 0xFFFD ++ stringToUint8Array rest
      else utf8Bytes c ++ stringToUint8Array rest
  end.

(** [encodeText(string, start, end)], from the result of [String(string)]. *)
Definition encodeText (this : Base64) (string : jsstring)
    (start end_ : option integerOrInfinity) : outcome jsstring :=
  encodeToStringSymbol this (stringToUint8Array string) start end_.

Section TextDecoder.
(** The [decode] method of the platform's [TextDecoder]. *)
Variable uint8ArrayToString : list Z → jsstring.

(** [decodeText(string, start, end)], from the result of [String(string)]. *)
Definition decodeText (this : Base64) (string : jsstring)
    (start end_ : option integerOrInfinity) : outcome jsstring :=
  uint8ArrayToString <$> decodeFromStringSymbol this string start end_.
End TextDecoder.

(** ** Selection of a range, as [Array.prototype.slice] selects it *)

(** A relative index: a negative one counts from the end, and the result is
    clamped to the bounds. *)
Definition relativeIndex (len : Z) (x : integerOrInfinity) : Z :=
  match x with
  | NegInfinity => 0
  | Int x => if x <? 0 then Z.max (len + x) 0 else Z.min x len
  | PosInfinity => len
  end.

(** The elements from [start] up to [end_], each omitted bound being the
    bound of the sequence; nothing when the first index is not below the
    last. *)
Definition slice {A} (l : list A) (start end_ : option integerOrInfinity) : list A :=
  let len := Z.of_nat (length l) in
  let k := match start with Some x => relativeIndex len x | None => 0 end in
  let final := match end_ with Some x => relativeIndex len x | None => len end in
  take (Z.to_nat (final - k)) (drop (Z.to_nat k) l).

(** ** Validation of an encoded string *)

(** The loop of [isBase64String] over the characters before the padding. *)
Fixpoint isBase64String_for (indices : list Z) (value : jsstring)
    (alphabetLookup : gmap Z Z) : bool :=
  match indices with
  | [] => true
  | i :: rest =>
      let char := item value i in
      if bool_decide (getProp alphabetLookup char = None) then false
      else isBase64String_for rest value alphabetLookup
  end.

(** [isBase64String(value)]; its [while] loop is the loop that counts the
    padding in [[decodeFromStringSymbol]], over the whole string. *)
Definition isBase64String (value : value) : outcome bool :=
  match value with
  | VString value =>
      let length := Z.of_nat (length value) in
      if negb (Z.rem length 4 =? 0) then Return false
      else
        let alphabetLookup := alphabetLookupSymbol base64 in
        let lastIndex := length - 1 in
        paddingCount ← paddingCount_while 2 value length lastIndex 0;
        let validLength := length - paddingCount in
        Return (isBase64String_for (seqZ 0 validLength) value alphabetLookup)
  | _ => Return false
  end.

(** * The codec on the selected elements, and what the claims refer to *)

(** An alphabet the constructor accepts has the characters of [ALPHABET],
    each once. *)
Definition validAlphabet (alphabet : jsstring) : Prop := alphabet ≡ₚ ALPHABET.

(** The state of [createAlphabetLookups] after [n] turns of its loop. *)
Definition lookupsAfter (alphabet : jsstring) (n : nat) : lookups :=
  foldl (createAlphabetLookups_step alphabet)
    {| lookups_lookup := ∅;
       lookups_baseMap := replicate (Z.to_nat BASE) 0;
       lookups_baseMapLookup := ∅ |}
    (seqZ 0 (Z.of_nat n)).

(** What every constructed instance's tables hold. *)
Record validInstance (this : Base64) : Prop := {
  valid_alphabet : validAlphabet (alphabetSymbol this);
  valid_alphabetLookup : ∀ c i,
    alphabetLookupSymbol this !! c = Some i
    ↔ 0 ≤ i < BASE ∧ item (alphabetSymbol this) i = Some c;
  valid_baseMapLookup : ∀ c i,
    baseMapLookupSymbol this !! c = Some i
    ↔ 0 ≤ i < BASE ∧ item (alphabetSymbol this) i = Some c;
  valid_baseMap : ∀ c i,
    0 ≤ i < BASE → item (alphabetSymbol this) i = Some c →
    item (baseMapSymbol this) i = Some c
}.

(** The value of a sequence of digits read after an accumulated [result],
    the first one at position [off]. *)
Fixpoint digitsValue (lk : gmap Z Z) (off : Z) (s : jsstring) (result : Z)
    : outcome Z :=
  match s with
  | [] => Return result
  | c :: s =>
      match lk !! c with
      | None => Throw (SyntaxError (InvalidCharacter (Some c) off))
      | Some index => digitsValue lk (off + 1) s (result * 64 + index)
      end
  end.

(** The alphabet indices [encode] and [[encodeToStringSymbol]] compute for
    a sequence of bytes: four for each group of three bytes, then two or
    three for a remainder of one or two bytes. *)
Fixpoint encodeIndices (bytes : list Z) : list Z :=
  match bytes with
  | [] => []
  | a :: bytes1 =>
      match bytes1 with
      | [] => [sar a 2; band (shl a 4) 0x3f]
      | b :: bytes2 =>
          match bytes2 with
          | [] =>
              let number := shl a 8 + b in
              [sar number 10; band (sar number 4) 0x3f; band (shl number 2) 0x3f]
          | c :: rest =>
              let number := shl a 16 + shl b 8 + c in
              band (sar number 18) 0x3f :: band (sar number 12) 0x3f
              :: band (sar number 6) 0x3f :: band number 0x3f
              :: encodeIndices rest
          end
      end
  end.

(** The stores [result[resultIndex++] = v] for the values of a list. *)
Fixpoint fill (result : list Z) (resultIndex : Z) (values : list Z) : list Z :=
  match values with
  | [] => result
  | v :: values => fill (store result resultIndex v) (resultIndex + 1) values
  end.

(** [encode] as a function of the selected bytes. *)
Definition encodeSelected (this : Base64) (selected : list Z) : outcome (list Z) :=
  result ← newUint8Array (bor (shl (Z.of_nat (length selected)) 2) 2) 3;
  Return (fill result 0 (byteAt (baseMapSymbol this) <$> encodeIndices selected)).

(** The characters appended for a list of alphabet indices. *)
Definition symbols (alphabet : jsstring) (indices : list Z) : jsstring :=
  indices ≫= (λ i, toString (item alphabet i)).

(** The padding [[encodeToStringSymbol]] appends for [n] selected bytes. *)
Definition paddingFor (n : Z) : jsstring :=
  if Z.rem n 3 =? 0 then [] else replicate (Z.to_nat (3 - Z.rem n 3)) PADDING_CHAR.

(** [[encodeToStringSymbol]] as a function of the selected bytes. *)
Definition encodeToStringSelected (this : Base64) (selected : list Z) : jsstring :=
  symbols (alphabetSymbol this) (encodeIndices selected)
  ++ paddingFor (Z.of_nat (length selected)).

(** The lookup of the element [c] found at position [index]. *)
Definition byteLook (baseMapLookup : gmap Z Z) (index c : Z) : outcome Z :=
  match baseMapLookup !! c with
  | None => Throw (SyntaxError (InvalidByte (Some c) index))
  | Some charIndex => Return charIndex
  end.
Definition charLook (alphabetLookup : gmap Z Z) (index c : Z) : outcome Z :=
  match alphabetLookup !! c with
  | None => Throw (SyntaxError (InvalidCharacter (Some c) index))
  | Some charIndex => Return charIndex
  end.

(** The bytes [decode] and [[decodeFromStringSymbol]] store for a sequence
    of symbols whose first one is at position [off]: three for each group
    of four symbols, then none, one or two for a remainder of one, two or
    three symbols. *)
Fixpoint decodeValues (look : Z → Z → outcome Z) (off : Z) (syms : list Z)
    : outcome (list Z) :=
  match syms with
  | [] => Return []
  | c1 :: syms1 =>
      match syms1 with
      | [] => charIndex ← look off c1; Return []
      | c2 :: syms2 =>
          match syms2 with
          | [] =>
              charIndex ← look off c1;
              charIndex2 ← look (off + 1) c2;
              let number := shl charIndex 2 + sar charIndex2 4 in
              Return [band number 0xff]
          | c3 :: syms3 =>
              match syms3 with
              | [] =>
                  charIndex ← look off c1;
                  charIndex2 ← look (off + 1) c2;
                  charIndex3 ← look (off + 2) c3;
                  let number := shl charIndex 10 + shl charIndex2 4
                                + sar charIndex3 2 in
                  Return [band (sar number 8) 0xff; band number 0xff]
              | c4 :: rest =>
                  charIndex ← look off c1;
                  charIndex2 ← look (off + 1) c2;
                  charIndex3 ← look (off + 2) c3;
                  charIndex4 ← look (off + 3) c4;
                  let number := shl charIndex 18 + shl charIndex2 12
                                + shl charIndex3 6 + charIndex4 in
                  values ← decodeValues look (off + 4) rest;
                  Return (band (sar number 16) 0xff :: band (sar number 8) 0xff
                          :: band number 0xff :: values)
              end
          end
      end
  end.

(** [decode] as a function of the selected bytes, the first one at
    position [off] of the input. *)
Definition decodeSelected (this : Base64) (off : Z) (selected : list Z)
    : outcome (list Z) :=
  result ← newUint8Array (sar (Z.of_nat (length selected) * 3) 2) 1;
  values ← decodeValues (byteLook (baseMapLookupSymbol this)) off selected;
  Return (fill result 0 values).

(** The number of padding markers that end a selection: at most two, and
    no more than the selection has characters. *)
Definition paddingOf (selected : jsstring) : Z :=
  let n := Z.of_nat (length selected) in
  if bool_decide (item selected (n - 1) = Some PADDING_CHAR) then
    if bool_decide (item selected (n - 2) = Some PADDING_CHAR) then 2 else 1
  else 0.

(** [[decodeFromStringSymbol]] as a function of the selected characters. *)
Definition decodeFromStringSelected (this : Base64) (off : Z) (selected : jsstring)
    : outcome (list Z) :=
  let n := Z.of_nat (length selected) in
  let paddingCount := if Z.rem n 4 =? 0 then paddingOf selected else 0 in
  let validLength := n - paddingCount in
  result ← newUint8Array (sar (validLength * 3) 2) 1;
  values ← decodeValues (charLook (alphabetLookupSymbol this)) off
              (take (Z.to_nat validLength) selected);
  Return (fill result 0 values).

(** The position of an error, moved by [off]. *)
Definition shiftError {A} (off : Z) (r : outcome A) : outcome A :=
  match r with
  | Throw (SyntaxError (InvalidByte c i)) => Throw (SyntaxError (InvalidByte c (off + i)))
  | Throw (SyntaxError (InvalidCharacter c i)) =>
      Throw (SyntaxError (InvalidCharacter c (off + i)))
  | r => r
  end.

(** The elements of a Uint8Array. *)
Definition isByte (b : Z) : Prop := 0 ≤ b < 256.

(** The safe integers, among the results of [TypesToIntegerOrInfinity]. *)
Definition inSafeRange (number : integerOrInfinity) : Prop :=
  match number with
  | Int z => NumberMIN_SAFE_INTEGER ≤ z ≤ NumberMAX_SAFE_INTEGER
  | _ => False
  end.

(** The number of data symbols and of padding markers for a remainder of
    [r] bytes. *)
Definition dataSymbols (r : Z) : Z := if r =? 0 then 0 else r + 1.
Definition paddingMarkers (r : Z) : Z := if r =? 0 then 0 else 3 - r.

(** The custom alphabet of the README. *)
Definition readmeAlphabet : jsstring :=
  lit "+/0123456789ABCDEFGHIJKLMNOPQRSTUVWXYZabcdefghijklmnopqrstuvwxyz".

(** The alphabet of RFC 4648 section 5. *)
Definition urlSafeAlphabet : jsstring :=
  lit "ABCDEFGHIJKLMNOPQRSTUVWXYZabcdefghijklmnopqrstuvwxyz0123456789-_".

(** The character an instance writes where the default instance writes
    [c]: the character of the same index in its alphabet; a character that
    is no symbol, as the padding and the sign markers, stays. *)
Definition relabel (this : Base64) (c : Z) : Z :=
  default c (alphabetLookupSymbol base64 !! c ≫= item (alphabetSymbol this)).
Definition relabelString (this : Base64) (s : jsstring) : jsstring :=
  fmap (M := list) (relabel this) s.

(** * Properties *)

(** ** Reading lists by position *)

Lemma item_nil {A} (i : Z) : item (@nil A) i = None.
Proof. unfold item. destruct (i <? 0); [done | by rewrite lookup_nil]. Qed.

Lemma item_lookup {A} (l : list A) (n : nat) : item l (Z.of_nat n) = l !! n.
Proof.
  unfold item. destruct (Z.ltb_spec (Z.of_nat n) 0); [lia |].
  by rewrite Nat2Z.id.
Qed.

Lemma item_app_r {A} (pre l : list A) (i : Z) :
  0 ≤ i → item (pre ++ l) (Z.of_nat (length pre) + i) = item l i.
Proof.
  intros Hi. unfold item.
  destruct (Z.ltb_spec (Z.of_nat (length pre) + i) 0); [lia |].
  destruct (Z.ltb_spec i 0); [lia |].
  replace (Z.to_nat (Z.of_nat (length pre) + i))
    with (length pre + Z.to_nat i)%nat by lia.
  by rewrite lookup_app_r, Nat.add_sub' by lia.
Qed.

Lemma item_app_r0 {A} (pre l : list A) :
  item (pre ++ l) (Z.of_nat (length pre)) = item l 0.
Proof. rewrite <- (item_app_r pre l 0) by lia. f_equal. lia. Qed.

Lemma item_cons_0 {A} (x : A) (l : list A) : item (x :: l) 0 = Some x.
Proof. done. Qed.

Lemma item_cons_pos {A} (x : A) (l : list A) (i : Z) :
  0 < i → item (x :: l) i = item l (i - 1).
Proof.
  intros Hi. unfold item.
  destruct (Z.ltb_spec i 0); [lia |]. destruct (Z.ltb_spec (i - 1) 0); [lia |].
  replace (Z.to_nat i) with (S (Z.to_nat (i - 1))) by lia. done.
Qed.

Lemma item_Some {A} (l : list A) (i : Z) (x : A) :
  item l i = Some x ↔ 0 ≤ i ∧ l !! Z.to_nat i = Some x.
Proof.
  unfold item. destruct (Z.ltb_spec i 0); split.
  - done.
  - intros [? _]. lia.
  - intros ?. split; [lia | done].
  - intros [_ ?]. done.
Qed.

Lemma item_lt_length {A} (l : list A) (i : Z) :
  0 ≤ i < Z.of_nat (length l) → ∃ x, item l i = Some x.
Proof.
  intros Hi. destruct (lookup_lt_is_Some_2 l (Z.to_nat i)) as [x Hx]; [lia |].
  exists x. apply item_Some. split; [lia | done].
Qed.

Lemma item_elem_of {A} (l : list A) (i : Z) (x : A) : item l i = Some x → x ∈ l.
Proof. intros [_ H]%item_Some. by eapply list_elem_of_lookup_2. Qed.

Lemma elem_of_item {A} (l : list A) (x : A) :
  x ∈ l → ∃ i, 0 ≤ i < Z.of_nat (length l) ∧ item l i = Some x.
Proof.
  intros [n Hn]%list_elem_of_lookup_1. exists (Z.of_nat n).
  split; [apply lookup_lt_Some in Hn; lia | by rewrite item_lookup].
Qed.

Lemma item_inj {A} (l : list A) (i j : Z) (x : A) :
  NoDup l → item l i = Some x → item l j = Some x → i = j.
Proof.
  intros Hnd [? Hi]%item_Some [? Hj]%item_Some.
  pose proof (NoDup_lookup l _ _ x Hnd Hi Hj). lia.
Qed.

(** ** Valid alphabets *)

Lemma ALPHABET_NoDup : NoDup ALPHABET.
Proof. apply (bool_decide_unpack _). vm_compute. exact I. Qed.

Lemma ALPHABET_ascii : Forall (λ c, 0 ≤ c < 128) ALPHABET.
Proof. apply (bool_decide_unpack _). vm_compute. exact I. Qed.

Lemma ALPHABET_length : length ALPHABET = 64%nat.
Proof. reflexivity. Qed.

Lemma validAlphabet_length a : validAlphabet a → length a = 64%nat.
Proof. intros H. by rewrite (Permutation_length H). Qed.

Lemma validAlphabet_NoDup a : validAlphabet a → NoDup a.
Proof. intros H. unfold validAlphabet in H. rewrite H. apply ALPHABET_NoDup. Qed.

Lemma validAlphabet_ascii a c : validAlphabet a → c ∈ a → 0 ≤ c < 128.
Proof.
  intros H Hc. unfold validAlphabet in H. rewrite H in Hc.
  pose proof ALPHABET_ascii as HF. rewrite Forall_forall in HF. by apply HF.
Qed.

Lemma validAlphabet_no_padding a : validAlphabet a → PADDING_CHAR ∉ a.
Proof.
  intros H. unfold validAlphabet in H. rewrite H.
  apply (bool_decide_unpack _). vm_compute. exact I.
Qed.

Lemma validAlphabet_no_negative a : validAlphabet a → NEGATIVE_CHAR ∉ a.
Proof.
  intros H. unfold validAlphabet in H. rewrite H.
  apply (bool_decide_unpack _). vm_compute. exact I.
Qed.

(** ** The lookups of an instance *)

Section CreateAlphabetLookups.
Variable alphabet : jsstring.
Hypothesis alphabet_NoDup : NoDup alphabet.

Lemma lookupsAfter_S (n : nat) :
  lookupsAfter alphabet (S n)
  = createAlphabetLookups_step alphabet (lookupsAfter alphabet n) (Z.of_nat n).
Proof. unfold lookupsAfter. by rewrite seqZ_S, foldl_snoc, Z.add_0_l. Qed.

Lemma setProp_fresh (o : gmap Z Z) (n : nat) (c c' : Z) (i : Z) :
  item alphabet (Z.of_nat n) = Some c →
  (∀ c i, o !! c = Some i ↔ 0 ≤ i < Z.of_nat n ∧ item alphabet i = Some c) →
  setProp o c (Z.of_nat n) !! c' = Some i
  ↔ 0 ≤ i < Z.of_nat (S n) ∧ item alphabet i = Some c'.
Proof.
  intros Hc IH. unfold setProp. rewrite lookup_insert_Some, IH. split.
  - intros [[-> <-] | [Hne [Hi Hc']]]; (split; [lia | done]).
  - intros [Hi Hc']. destruct (decide (i = Z.of_nat n)) as [-> | Hne].
    + left. split; [congruence | done].
    + right. split; [| split; [lia | done]].
      intros ->. apply Hne. by eapply item_inj.
Qed.

Lemma lookupsAfter_spec (n : nat) :
  (n ≤ length alphabet)%nat →
  (∀ c i, lookups_lookup (lookupsAfter alphabet n) !! c = Some i
          ↔ 0 ≤ i < Z.of_nat n ∧ item alphabet i = Some c)
  ∧ (∀ c i, lookups_baseMapLookup (lookupsAfter alphabet n) !! c = Some i
            ↔ 0 ≤ i < Z.of_nat n ∧ item alphabet i = Some c)
  ∧ length (lookups_baseMap (lookupsAfter alphabet n)) = Z.to_nat BASE
  ∧ (∀ i c, 0 ≤ i < Z.of_nat n → i < BASE → item alphabet i = Some c →
            item (lookups_baseMap (lookupsAfter alphabet n)) i = Some (c mod 256)).
Proof.
  induction n as [| n IH]; intros Hn.
  - unfold lookupsAfter. simpl.
    split_and!; [intros c i; split | intros c i; split | done | intros; lia].
    + by rewrite lookup_empty.
    + intros [? _]. lia.
    + by rewrite lookup_empty.
    + intros [? _]. lia.
  - destruct IH as (IH1 & IH2 & IH3 & IH4); [lia |].
    rewrite lookupsAfter_S. unfold createAlphabetLookups_step.
    destruct (item_lt_length alphabet (Z.of_nat n)) as [c Hc]; [lia |].
    rewrite Hc. cbn [lookups_lookup lookups_baseMap lookups_baseMapLookup].
    split_and!.
    + intros c' i. by apply setProp_fresh.
    + intros c' i. by apply setProp_fresh.
    + unfold store. destruct (Z.of_nat n <? 0); [done |].
      by rewrite length_insert.
    + intros i c' Hi Hlt Hc'. unfold store.
      destruct (Z.ltb_spec (Z.of_nat n) 0); [lia |].
      apply item_Some. split; [lia |]. rewrite Nat2Z.id.
      destruct (decide (i = Z.of_nat n)) as [-> | Hne].
      * rewrite Nat2Z.id, list_lookup_insert_eq by (unfold BASE in *; lia).
        congruence.
      * rewrite list_lookup_insert_ne by lia.
        apply (item_Some (lookups_baseMap (lookupsAfter alphabet n)) i).
        apply IH4; [lia | done | done].
Qed.
End CreateAlphabetLookups.

Lemma createAlphabetLookups_after alphabet :
  createAlphabetLookups alphabet = lookupsAfter alphabet (Z.to_nat BASE).
Proof.
  unfold createAlphabetLookups, lookupsAfter.
  rewrite Z2Nat.id; [done | by unfold BASE].
Qed.

Lemma instanceOf_valid alphabet :
  validAlphabet alphabet → validInstance (instanceOf alphabet).
Proof.
  intros Hv.
  pose proof (validAlphabet_NoDup _ Hv) as Hnd.
  pose proof (validAlphabet_length _ Hv) as Hlen.
  destruct (lookupsAfter_spec alphabet Hnd (Z.to_nat BASE))
    as (H1 & H2 & H3 & H4); [unfold BASE; lia |].
  rewrite Z2Nat.id in H1, H2, H4 by (by unfold BASE).
  unfold instanceOf. rewrite createAlphabetLookups_after.
  constructor; cbn [alphabetSymbol alphabetLookupSymbol baseMapSymbol
                    baseMapLookupSymbol].
  - done.
  - intros c i. by rewrite H1.
  - intros c i. by rewrite H2.
  - intros c i Hi Hc. rewrite (H4 i c) by first [lia | done].
    f_equal. apply Z.mod_small.
    pose proof (validAlphabet_ascii _ c Hv (item_elem_of _ _ _ Hc)). lia.
Qed.

Lemma base64_valid : validInstance base64.
Proof. apply instanceOf_valid. unfold validAlphabet. done. Qed.

(** ** Validation of an alphabet *)

Lemma toAlphabet_for_cases (lk : gmap Z Z) (s : jsstring) :
  ∀ (pre : jsstring) (u : gmap Z Z),
  match toAlphabet_for (seqZ (Z.of_nat (length pre)) (Z.of_nat (length s)))
          (pre ++ s) lk u with
  | Return _ =>
      Forall (λ c, is_Some (lk !! c)) s ∧ NoDup s ∧ Forall (λ c, u !! c = None) s
  | Throw (SyntaxError (InvalidAlphabetCharacter (Some c) i)) =>
      c ∈ s ∧ lk !! c = None ∧ item (pre ++ s) i = Some c
  | Throw (SyntaxError (AlreadyInAlphabet (Some c) i)) =>
      ¬ (NoDup s ∧ Forall (λ c, u !! c = None) s)
  | _ => False
  end.
Proof.
  induction s as [| c s IH]; intros pre u.
  - simpl. by repeat constructor.
  - rewrite seqZ_cons by (simpl; lia).
    cbn [toAlphabet_for]. rewrite item_app_r0, item_cons_0.
    cbn [getProp mbind option_bind from_option].
    destruct (lk !! c) as [i |] eqn:Hlk.
    2:{ rewrite bool_decide_eq_true_2 by done.
        split_and!; [by left | done |]. by rewrite item_app_r0. }
    rewrite bool_decide_eq_false_2 by done.
    destruct (u !! c) as [j |] eqn:Hu.
    { rewrite bool_decide_eq_false_2 by done. cbn [negb].
      intros [_ HF]. apply Forall_cons in HF as [HF _]. congruence. }
    rewrite bool_decide_eq_true_2 by done. cbn [negb].
    specialize (IH (pre ++ [c]) (setProp u c (Z.of_nat (length pre)))).
    rewrite length_app in IH. cbn [length] in IH.
    replace (Z.succ (Z.of_nat (length pre)))
      with (Z.of_nat (length pre + 1)) by lia.
    replace (Z.pred (Z.of_nat (length (c :: s))))
      with (Z.of_nat (length s)) by (cbn [length]; lia).
    rewrite <- app_assoc in IH. cbn [app] in IH.
    destruct (toAlphabet_for _ _ _ _) as [[] | [m | m | m] |]; try done.
    + destruct IH as (H1 & H2 & H3). split_and!.
      * apply Forall_cons. split; [by eexists | done].
      * apply NoDup_cons. split; [| done].
        intros Hin. rewrite Forall_forall in H3. specialize (H3 c Hin).
        unfold setProp in H3. by rewrite lookup_insert_eq in H3.
      * apply Forall_cons. split; [done |].
        eapply Forall_impl; [exact H3 |]. intros c' Hc'. unfold setProp in Hc'.
        apply lookup_insert_None in Hc'. tauto.
    + destruct m as [| [c' |] i' | [c' |] i' | | |]; try done.
      * destruct IH as (H1 & H2 & H3). split_and!; [by right | done | done].
      * intros [Hnd HF]. apply IH. apply NoDup_cons in Hnd as [Hnin Hnd].
        apply Forall_cons in HF as [_ HF]. split; [done |].
        rewrite Forall_forall in HF |- *. intros x Hx. unfold setProp.
        apply lookup_insert_None. split; [by apply HF |].
        intros ->. done.
Qed.

Lemma isAlphabet_for_toAlphabet_for (indices : list Z) (s : jsstring)
    (lk : gmap Z Z) :
  ∀ u, isAlphabet_for indices s lk u
       = match toAlphabet_for indices s lk u with Return _ => true | _ => false end.
Proof.
  induction indices as [| i indices IH]; intros u; [done |].
  cbn [isAlphabet_for toAlphabet_for].
  destruct (bool_decide (getProp lk (item s i) = None)); [done |].
  destruct (bool_decide (getProp u (item s i) = None)); [| done].
  cbn [negb orb]. apply IH.
Qed.

Lemma defaultLookup_elem_of (c : Z) :
  is_Some (alphabetLookupSymbol base64 !! c) ↔ c ∈ ALPHABET.
Proof.
  pose proof (valid_alphabetLookup _ base64_valid c) as H. split.
  - intros [i Hi]. apply H in Hi as [_ Hi]. by eapply item_elem_of.
  - intros [i [Hi Hc]]%elem_of_item. exists i. apply H. split; [| done].
    unfold BASE. rewrite ALPHABET_length in Hi. lia.
Qed.

(** The alphabets [toAlphabet] lets through. *)
Lemma toAlphabet_String (s : jsstring) :
  length s = 64%nat →
  match toAlphabet (VString s) with
  | Return a => a = s ∧ validAlphabet s
  | Throw (SyntaxError (InvalidAlphabetCharacter (Some c) i)) =>
      item s i = Some c ∧ c ∉ ALPHABET
  | Throw (SyntaxError (AlreadyInAlphabet (Some c) i)) => ¬ NoDup s
  | _ => False
  end.
Proof.
  intros Hlen. unfold toAlphabet. rewrite Hlen.
  change (negb (Z.of_nat 64 =? BASE)) with false. cbn match.
  pose proof (toAlphabet_for_cases (alphabetLookupSymbol base64) s [] ∅) as H.
  rewrite Hlen in H. change (Z.of_nat (length [])) with 0 in H.
  change (Z.of_nat 64) with BASE in H. cbn [app] in H.
  destruct (toAlphabet_for _ _ _ _) as [[] | [m | m | m] |]; try done.
  - cbn. destruct H as (H1 & H2 & _). split; [done |].
    assert (Hsub : ∀ x, x ∈ s → x ∈ ALPHABET).
    { intros x Hx. apply defaultLookup_elem_of.
      rewrite Forall_forall in H1. by apply H1. }
    apply submseteq_length_Permutation.
    + by apply NoDup_submseteq.
    + rewrite Hlen, ALPHABET_length. lia.
  - cbn. destruct m as [| [c |] i | [c |] i | | |]; try done.
    + destruct H as (_ & Hlk & Hi). split; [done |].
      rewrite <- defaultLookup_elem_of, Hlk. by intros [? ?].
    + intros Hnd. apply H. split; [done |].
      apply Forall_forall. intros x _. apply lookup_empty.
Qed.

Lemma toAlphabet_valid (s : jsstring) :
  validAlphabet s → toAlphabet (VString s) = Return s.
Proof.
  intros Hv. pose proof (toAlphabet_String s (validAlphabet_length _ Hv)) as H.
  destruct (toAlphabet (VString s)) as [a | [m | m | m] |]; try done.
  - by destruct H as [-> _].
  - destruct m as [| [c |] i | [c |] i | | |]; try done.
    + destruct H as [Hi Hc]. destruct Hc.
      unfold validAlphabet in Hv. rewrite <- Hv. by eapply item_elem_of.
    + destruct H. by apply validAlphabet_NoDup.
Qed.

Lemma toAlphabet_Return (v : value) (a : jsstring) :
  toAlphabet v = Return a → validAlphabet a.
Proof.
  destruct v as [| s | |]; try done.
  - intros [= <-]. by unfold validAlphabet.
  - intros H. destruct (decide (length s = 64%nat)) as [Hlen | Hlen].
    + pose proof (toAlphabet_String s Hlen) as H'. rewrite H in H'.
      by destruct H' as [-> ?].
    + unfold toAlphabet in H.
      destruct (Z.eqb_spec (Z.of_nat (length s)) BASE) as [He | He];
        [unfold BASE in He; lia | done].
Qed.

(** Every instance the constructor returns has valid tables. *)
Lemma constructor_valid (v : value) (this : Base64) :
  constructor v = Return this → validInstance this.
Proof.
  unfold constructor. destruct (toAlphabet v) as [a | e |] eqn:Ha; try done.
  cbn. intros [= <-]. apply instanceOf_valid. by eapply toAlphabet_Return.
Qed.

Lemma constructor_default : constructor VUndefined = Return base64.
Proof. reflexivity. Qed.

Lemma constructor_String (s : jsstring) :
  validAlphabet s → constructor (VString s) = Return (instanceOf s).
Proof. intros Hv. unfold constructor. by rewrite toAlphabet_valid. Qed.

(** ** The numeral codec *)

Lemma decodeBigInt_for_digits (lk : gmap Z Z) (s : jsstring) :
  ∀ (pre : jsstring) (r : Z),
  decodeBigInt_for (seqZ (Z.of_nat (length pre)) (Z.of_nat (length s)))
    (pre ++ s) lk r
  = digitsValue lk (Z.of_nat (length pre)) s r.
Proof.
  induction s as [| c s IH]; intros pre r; [done |].
  rewrite seqZ_cons by (cbn [length]; lia).
  cbn [decodeBigInt_for digitsValue].
  rewrite item_app_r0, item_cons_0. cbn [getProp mbind option_bind].
  destruct (lk !! c) as [i |]; [| done].
  specialize (IH (pre ++ [c]) (r * 64 + i)).
  rewrite length_app, <- app_assoc in IH. cbn [length app] in IH.
  replace (Z.succ (Z.of_nat (length pre))) with (Z.of_nat (length pre + 1)) by lia.
  replace (Z.pred (Z.of_nat (length (c :: s)))) with (Z.of_nat (length s))
    by (cbn [length]; lia).
  rewrite IH. f_equal. lia.
Qed.

Lemma digitsValue_app (lk : gmap Z Z) (s1 s2 : jsstring) :
  ∀ off r,
  digitsValue lk off (s1 ++ s2) r
  = r' ← digitsValue lk off s1 r;
    digitsValue lk (off + Z.of_nat (length s1)) s2 r'.
Proof.
  induction s1 as [| c s1 IH]; intros off r.
  - cbn. f_equal. lia.
  - cbn [app digitsValue]. destruct (lk !! c) as [i |]; [| done].
    rewrite IH. cbn [length]. destruct (digitsValue lk (off + 1) s1 _); try done.
    cbn. f_equal. lia.
Qed.

Lemma log2_div_64 (n : Z) (fuel : nat) :
  0 < n → Z.log2 n < Z.of_nat (S fuel) →
  n / 64 = 0 ∨ (0 < n / 64 ∧ Z.log2 (n / 64) < Z.of_nat fuel).
Proof.
  intros Hn Hl. destruct (Z.eq_dec (n / 64) 0) as [? | Hne]; [by left | right].
  assert (0 < n / 64) by (pose proof (Z.div_pos n 64); lia).
  split; [done |].
  assert (2 * (n / 64) ≤ n) by (pose proof (Z.mul_div_le n 64); lia).
  pose proof (Z.log2_double (n / 64)). pose proof (Z.log2_le_mono (2 * (n / 64)) n).
  lia.
Qed.

Section Numerals.
Variable this : Base64.
Hypothesis this_valid : validInstance this.

Lemma alphabet_item (i : Z) :
  0 ≤ i < 64 →
  ∃ c, item (alphabetSymbol this) i = Some c
       ∧ alphabetLookupSymbol this !! c = Some i
       ∧ baseMapLookupSymbol this !! c = Some i
       ∧ item (baseMapSymbol this) i = Some c
       ∧ 0 ≤ c < 128 ∧ c ≠ PADDING_CHAR ∧ c ≠ NEGATIVE_CHAR.
Proof.
  intros Hi. destruct this_valid as [Hv H1 H2 H3].
  destruct (item_lt_length (alphabetSymbol this) i) as [c Hc].
  { rewrite (validAlphabet_length _ Hv). lia. }
  exists c. pose proof (item_elem_of _ _ _ Hc) as Hin. split_and!.
  - done.
  - apply H1. by unfold BASE.
  - apply H2. by unfold BASE.
  - apply H3; [by unfold BASE | done].
  - by eapply validAlphabet_ascii.
  - by eapply validAlphabet_ascii.
  - intros ->. by eapply validAlphabet_no_padding.
  - intros ->. by eapply validAlphabet_no_negative.
Qed.

Lemma alphabetLookup_range (c i : Z) :
  alphabetLookupSymbol this !! c = Some i → 0 ≤ i < 64.
Proof. intros H. by apply (valid_alphabetLookup _ this_valid) in H as [? _]. Qed.

Lemma alphabetLookup_negative : alphabetLookupSymbol this !! NEGATIVE_CHAR = None.
Proof.
  destruct (alphabetLookupSymbol this !! NEGATIVE_CHAR) as [i |] eqn:H; [| done].
  apply (valid_alphabetLookup _ this_valid) in H as [_ H].
  apply item_elem_of in H.
  by apply (validAlphabet_no_negative _ (valid_alphabet _ this_valid)) in H.
Qed.

(** The loop of [encodeBigInt] ends and prepends digits whose value is
    the number. *)
Lemma encodeBigInt_while_digits (fuel : nat) :
  ∀ (n : Z) (acc : jsstring),
  0 ≤ n → (n = 0 ∨ Z.log2 n < Z.of_nat fuel) →
  ∃ s, encodeBigInt_while fuel (alphabetSymbol this) n acc = Return (s ++ acc)
       ∧ (0 < n → s ≠ [])
       ∧ Forall (λ c, c ≠ NEGATIVE_CHAR) s
       ∧ ∀ off r, digitsValue (alphabetLookupSymbol this) off s r
                  = Return (r * 64 ^ Z.of_nat (length s) + n).
Proof.
  induction fuel as [| fuel IH]; intros n acc Hn Hfuel.
  - assert (n = 0) as ->.
    { destruct Hfuel as [? | Hl]; [done |]. pose proof (Z.log2_nonneg n). lia. }
    exists []. cbn. split_and!; [done | lia | done |]. intros _ r. f_equal. lia.
  - cbn [encodeBigInt_while]. destruct (Z.eqb_spec n 0) as [-> | Hne].
    { exists []. cbn. split_and!; [done | lia | done |]. intros _ r. f_equal. lia. }
    rewrite Z.rem_mod_nonneg, Z.quot_div_nonneg by lia.
    destruct (alphabet_item (n mod 64)) as (c & Hc & Hlk & _ & _ & _ & _ & Hneg).
    { apply Z.mod_pos_bound. lia. }
    rewrite Hc. cbn [toString app].
    destruct (IH (n / 64) (c :: acc)) as (s & Hs & _ & Hs2 & Hs3).
    { apply Z.div_pos; lia. }
    { destruct Hfuel as [? | Hl]; [lia |].
      destruct (log2_div_64 n fuel) as [? | [? ?]]; [lia | done | by left | by right]. }
    exists (s ++ [c]). rewrite <- app_assoc. cbn [app]. split_and!.
    + done.
    + intros _. by destruct s.
    + apply Forall_app. split; [done |]. by repeat constructor.
    + intros off r. rewrite digitsValue_app, Hs3. cbn. rewrite Hlk.
      f_equal. rewrite length_app. cbn [length].
      replace (Z.of_nat (length s + 1)) with (Z.of_nat (length s) + 1) by lia.
      rewrite Z.pow_add_r by lia. pose proof (Z.div_mod n 64). lia.
Qed.

Lemma encodeInt_while_BigInt (fuel : nat) :
  ∀ (n : Z) (acc : jsstring),
  0 ≤ n →
  encodeInt_while fuel (alphabetSymbol this) n acc
  = encodeBigInt_while fuel (alphabetSymbol this) n acc.
Proof.
  induction fuel as [| fuel IH]; intros n acc Hn; [done |].
  cbn [encodeInt_while encodeBigInt_while]. destruct (n =? 0); [done |].
  unfold BASE. rewrite Z.quot_div_nonneg by lia. apply IH. apply Z.div_pos; lia.
Qed.

(** What [encodeBigInt] returns: the digits of the magnitude, after the
    sign marker for a negative number. *)
Lemma encodeBigInt_digits (N : Z) :
  ∃ s, encodeBigInt this N
       = Return (if N <? 0 then NEGATIVE_CHAR :: s else s)
       ∧ s ≠ [] ∧ Forall (λ c, c ≠ NEGATIVE_CHAR) s
       ∧ ∀ off, digitsValue (alphabetLookupSymbol this) off s 0
                = Return (Z.abs N).
Proof.
  unfold encodeBigInt. destruct (Z.eqb_spec N 0) as [-> | Hne].
  - destruct (alphabet_item 0) as (c & Hc & Hlk & _ & _ & _ & _ & Hneg); [lia |].
    rewrite Hc. exists [c]. cbn. split_and!; [done | done | by repeat constructor |].
    intros off. by rewrite Hlk.
  - set (n := if N <? 0 then - N else N).
    assert (Hn : n = Z.abs N) by (unfold n; destruct (Z.ltb_spec N 0); lia).
    destruct (encodeBigInt_while_digits (S (Z.to_nat (Z.log2 n))) n [])
      as (s & Hs & Hs1 & Hs2 & Hs3); [lia | right; lia |].
    rewrite Hs, app_nil_r. exists s. cbn. split_and!; [done | apply Hs1; lia | done |].
    intros off. rewrite Hs3. f_equal. lia.
Qed.

Lemma decodeBigInt_digits (neg : bool) (s : jsstring) :
  s ≠ [] → Forall (λ c, c ≠ NEGATIVE_CHAR) s →
  decodeBigInt this (if neg then NEGATIVE_CHAR :: s else s)
  = r ← digitsValue (alphabetLookupSymbol this) (if neg then 1 else 0) s 0;
    Return (if neg then - r else r).
Proof.
  intros Hs Hneg. destruct s as [| c s]; [done |].
  apply Forall_cons in Hneg as [Hc _]. unfold decodeBigInt. destruct neg.
  - rewrite item_cons_0, bool_decide_eq_true_2 by done.
    destruct (Z.ltb_spec 1 (Z.of_nat (length (NEGATIVE_CHAR :: c :: s))));
      [| cbn [length] in *; lia].
    cbn [andb].
    pose proof (decodeBigInt_for_digits (alphabetLookupSymbol this) (c :: s)
                  [NEGATIVE_CHAR] 0) as Hd.
    cbn [length app] in Hd.
    replace (Z.of_nat (length (NEGATIVE_CHAR :: c :: s)) - 1)
      with (Z.of_nat (S (length s))) by (cbn [length]; lia).
    change (Z.of_nat 1) with 1 in Hd. by rewrite Hd.
  - rewrite item_cons_0, bool_decide_eq_false_2 by congruence.
    cbn [andb]. rewrite Z.sub_0_r.
    pose proof (decodeBigInt_for_digits (alphabetLookupSymbol this) (c :: s) [] 0) as Hd.
    cbn [app] in Hd. change (Z.of_nat (length [])) with 0 in Hd. rewrite Hd.
    by destruct (digitsValue _ _ _ _).
Qed.
End Numerals.

Lemma roundNumber_exact (x : Z) : x < 2 ^ 53 → roundNumber x = Int x.
Proof. intros H. unfold roundNumber. by destruct (Z.ltb_spec x (2 ^ 53)); [| lia]. Qed.

Lemma digitsValue_le (lk : gmap Z Z) (s : jsstring) :
  (∀ c i, lk !! c = Some i → 0 ≤ i) →
  ∀ off r v, 0 ≤ r → digitsValue lk off s r = Return v → r ≤ v.
Proof.
  intros Hlk. induction s as [| c s IH]; intros off r v Hr; cbn.
  - intros [= <-]. lia.
  - destruct (lk !! c) as [i |] eqn:Hc; [| done]. intros H.
    apply IH in H; pose proof (Hlk _ _ Hc); lia.
Qed.

(** Within the safe integers the Number arithmetic of [decodeInt] is
    exact. *)
Lemma decodeInt_for_digits (lk : gmap Z Z) (s : jsstring) :
  (∀ c i, lk !! c = Some i → 0 ≤ i) →
  ∀ (pre : jsstring) (r v : Z),
  0 ≤ r → digitsValue lk (Z.of_nat (length pre)) s r = Return v → v < 2 ^ 53 →
  decodeInt_for (seqZ (Z.of_nat (length pre)) (Z.of_nat (length s)))
    (pre ++ s) lk (Int r)
  = Return (Int v).
Proof.
  intros Hlk. induction s as [| c s IH]; intros pre r v Hr Hv Hsafe.
  - cbn [digitsValue] in Hv. injection Hv as <-. by rewrite seqZ_nil.
  - rewrite seqZ_cons by (cbn [length]; lia).
    cbn [decodeInt_for digitsValue] in *.
    rewrite item_app_r0, item_cons_0. cbn [getProp mbind option_bind].
    destruct (lk !! c) as [i |] eqn:Hc; [| done].
    pose proof (Hlk _ _ Hc) as Hi.
    assert (Hle : r * 64 + i ≤ v)
      by (eapply digitsValue_le; [exact Hlk | | exact Hv]; lia).
    cbn [mulAdd]. unfold BASE. rewrite roundNumber_exact by lia.
    specialize (IH (pre ++ [c]) (r * 64 + i) v).
    rewrite length_app, <- app_assoc in IH. cbn [length app] in IH.
    replace (Z.succ (Z.of_nat (length pre))) with (Z.of_nat (length pre + 1)) by lia.
    replace (Z.pred (Z.of_nat (length (c :: s)))) with (Z.of_nat (length s))
      by (cbn [length]; lia).
    apply IH; [lia | | done].
    rewrite <- Hv. f_equal. lia.
Qed.

Section NumeralsInt.
Variable this : Base64.
Hypothesis this_valid : validInstance this.

Lemma decodeInt_digits (neg : bool) (s : jsstring) (v : Z) :
  s ≠ [] → Forall (λ c, c ≠ NEGATIVE_CHAR) s →
  (∀ off, digitsValue (alphabetLookupSymbol this) off s 0 = Return v) →
  v < 2 ^ 53 →
  decodeInt this (if neg then NEGATIVE_CHAR :: s else s)
  = Return (Int (if neg then - v else v)).
Proof.
  intros Hs Hneg Hv Hsafe. destruct s as [| c s]; [done |].
  apply Forall_cons in Hneg as [Hc _].
  assert (Hlk : ∀ c i, alphabetLookupSymbol this !! c = Some i → 0 ≤ i).
  { intros c' i Hi. by apply (alphabetLookup_range this this_valid) in Hi as [? _]. }
  assert (Hv0 : 0 ≤ v)
    by (eapply digitsValue_le; [exact Hlk | | exact (Hv 0)]; lia).
  unfold decodeInt. destruct neg.
  - rewrite item_cons_0, bool_decide_eq_true_2 by done.
    destruct (Z.ltb_spec 1 (Z.of_nat (length (NEGATIVE_CHAR :: c :: s))));
      [| cbn [length] in *; lia].
    cbn [andb].
    pose proof (decodeInt_for_digits (alphabetLookupSymbol this) (c :: s) Hlk
                  [NEGATIVE_CHAR] 0 v ltac:(done) (Hv _) Hsafe) as Hd.
    cbn [length app] in Hd.
    replace (Z.of_nat (length (NEGATIVE_CHAR :: c :: s)) - 1)
      with (Z.of_nat (S (length s))) by (cbn [length]; lia).
    change (Z.of_nat 1) with 1 in Hd. rewrite Hd. cbn.
    destruct (Z.ltb_spec 0 v); [done |]. do 2 f_equal. lia.
  - rewrite item_cons_0, bool_decide_eq_false_2 by congruence.
    cbn [andb]. rewrite Z.sub_0_r.
    pose proof (decodeInt_for_digits (alphabetLookupSymbol this) (c :: s) Hlk
                  [] 0 v ltac:(done) (Hv _) Hsafe) as Hd.
    cbn [app] in Hd. change (Z.of_nat (length [])) with 0 in Hd. by rewrite Hd.
Qed.

(** On the safe integers [encodeInt] is [encodeBigInt]. *)
Lemma encodeInt_safe (N : Z) :
  NumberMIN_SAFE_INTEGER ≤ N ≤ NumberMAX_SAFE_INTEGER →
  encodeInt this (Int N) = encodeBigInt this N.
Proof.
  intros HN. unfold encodeInt, encodeBigInt.
  destruct (Z.ltb_spec N NumberMIN_SAFE_INTEGER); [lia |].
  destruct (Z.ltb_spec NumberMAX_SAFE_INTEGER N); [lia |].
  destruct (N =? 0); [done |].
  rewrite encodeInt_while_BigInt; [done |].
  destruct (Z.ltb_spec N 0); lia.
Qed.
End NumeralsInt.

Lemma encodeInt_while_not_Throw (fuel : nat) (alphabet : jsstring) :
  ∀ n acc e, encodeInt_while fuel alphabet n acc ≠ Throw e.
Proof.
  induction fuel as [| fuel IH]; intros n acc e; cbn [encodeInt_while];
    destruct (n =? 0); try done; try apply IH.
Qed.

(** The loop of [encodeBigInt] ends on every alphabet. *)
Lemma encodeBigInt_while_Return (alphabet : jsstring) (fuel : nat) :
  ∀ (n : Z) (acc : jsstring),
  0 ≤ n → (n = 0 ∨ Z.log2 n < Z.of_nat fuel) →
  ∃ s, encodeBigInt_while fuel alphabet n acc = Return s.
Proof.
  induction fuel as [| fuel IH]; intros n acc Hn Hfuel.
  - assert (n = 0) as ->.
    { destruct Hfuel as [? | Hl]; [done |]. pose proof (Z.log2_nonneg n). lia. }
    by eexists.
  - cbn [encodeBigInt_while]. destruct (Z.eqb_spec n 0) as [-> | Hne]; [by eexists |].
    rewrite Z.quot_div_nonneg by lia. apply IH; [apply Z.div_pos; lia |].
    destruct Hfuel as [? | Hl]; [lia |].
    destruct (log2_div_64 n fuel) as [? | [? ?]]; [lia | done | by left | by right].
Qed.

Lemma encodeBigInt_Return (this : Base64) (N : Z) :
  ∃ s, encodeBigInt this N = Return s.
Proof.
  unfold encodeBigInt. destruct (Z.eqb_spec N 0) as [| Hne]; [by eexists |].
  set (n := if N <? 0 then - N else N).
  assert (0 < n) by (unfold n; destruct (Z.ltb_spec N 0); lia).
  destruct (encodeBigInt_while_Return (alphabetSymbol this)
              (S (Z.to_nat (Z.log2 n))) n []) as [s Hs]; [lia | right; lia |].
  rewrite Hs. by eexists.
Qed.

Lemma encodeInt_Return (this : Base64) (N : Z) :
  NumberMIN_SAFE_INTEGER ≤ N ≤ NumberMAX_SAFE_INTEGER →
  ∃ s, encodeInt this (Int N) = Return s.
Proof.
  intros HN. unfold encodeInt.
  destruct (Z.ltb_spec N NumberMIN_SAFE_INTEGER); [lia |].
  destruct (Z.ltb_spec NumberMAX_SAFE_INTEGER N); [lia |].
  destruct (Z.eqb_spec N 0) as [| Hne]; [by eexists |].
  set (n := if N <? 0 then - N else N).
  assert (0 < n) by (unfold n; destruct (Z.ltb_spec N 0); lia).
  destruct (encodeBigInt_while_Return (alphabetSymbol this)
              (S (Z.to_nat (Z.log2 n))) n []) as [s Hs]; [lia | right; lia |].
  rewrite encodeInt_while_BigInt, Hs by lia. by eexists.
Qed.

(** ** The buffer codec, on the selected elements *)

(** *** Ranges *)

Lemma clampIndex_relativeIndex (len : Z) (x : integerOrInfinity) :
  clampIndex len x = relativeIndex len x.
Proof. destruct x as [x | |]; cbn; [| done | done]. destruct (x <? 0); lia. Qed.

Lemma clampIndex_bounds (len : Z) (x : integerOrInfinity) :
  0 ≤ len → 0 ≤ clampIndex len x ≤ len.
Proof. intros Hl. destruct x as [x | |]; cbn; [| lia | lia]. destruct (Z.ltb_spec x 0); lia. Qed.

Lemma startIndexOf_bounds (len : Z) start :
  0 ≤ len → 0 ≤ startIndexOf len start ≤ len.
Proof. intros Hl. destruct start; cbn; [by apply clampIndex_bounds | lia]. Qed.

Lemma endIndexOf_bounds (len : Z) end_ :
  0 ≤ len → 0 ≤ endIndexOf len end_ ≤ len.
Proof. intros Hl. destruct end_; cbn; [by apply clampIndex_bounds | lia]. Qed.

Lemma slice_indices {A} (input : list A) start end_ :
  slice input start end_
  = take (Z.to_nat (endIndexOf (Z.of_nat (length input)) end_
                    - startIndexOf (Z.of_nat (length input)) start))
      (drop (Z.to_nat (startIndexOf (Z.of_nat (length input)) start)) input).
Proof.
  unfold slice, startIndexOf, endIndexOf.
  destruct start, end_; cbn [from_option]; by rewrite ?clampIndex_relativeIndex.
Qed.

Lemma slice_all {A} (input : list A) : slice input None None = input.
Proof. unfold slice. rewrite Z.sub_0_r, Nat2Z.id. cbn. by rewrite take_ge. Qed.

(** Either a selection is a segment of the input, or it is empty. *)
Lemma slice_cases {A} (input : list A) start end_ :
  let s := startIndexOf (Z.of_nat (length input)) start in
  let e := endIndexOf (Z.of_nat (length input)) end_ in
  (∃ pre post, input = pre ++ slice input start end_ ++ post
               ∧ s = Z.of_nat (length pre)
               ∧ e = Z.of_nat (length pre) + Z.of_nat (length (slice input start end_)))
  ∨ (0 ≤ e < s ∧ slice input start end_ = []).
Proof.
  intros s e.
  pose proof (startIndexOf_bounds (Z.of_nat (length input)) start ltac:(lia)) as Hs.
  pose proof (endIndexOf_bounds (Z.of_nat (length input)) end_ ltac:(lia)) as He.
  fold s in Hs. fold e in He. rewrite slice_indices. fold s e.
  destruct (Z.le_gt_cases s e) as [Hle | Hgt].
  - left. exists (take (Z.to_nat s) input), (drop (Z.to_nat e) input).
    split_and!.
    + replace (drop (Z.to_nat e) input)
        with (drop (Z.to_nat (e - s)) (drop (Z.to_nat s) input)).
      * by rewrite !take_drop.
      * rewrite drop_drop. f_equal. lia.
    + rewrite length_take. lia.
    + rewrite !length_take, length_drop. lia.
  - right. split; [lia |]. replace (Z.to_nat (e - s)) with 0%nat by lia. done.
Qed.

(** *** Reads and stores *)

Lemma byteAt_app_r (pre l : list Z) (i : Z) :
  0 ≤ i → byteAt (pre ++ l) (Z.of_nat (length pre) + i) = byteAt l i.
Proof. intros Hi. unfold byteAt. by rewrite item_app_r. Qed.

Lemma byteAt_app_r0 (pre l : list Z) :
  byteAt (pre ++ l) (Z.of_nat (length pre)) = byteAt l 0.
Proof. unfold byteAt. by rewrite item_app_r0. Qed.

Lemma fill_app (values1 values2 : list Z) :
  ∀ result ri,
  fill result ri (values1 ++ values2)
  = fill (fill result ri values1) (ri + Z.of_nat (length values1)) values2.
Proof.
  induction values1 as [| v values1 IH]; intros result ri.
  - cbn. f_equal. lia.
  - cbn [app fill length]. rewrite IH. f_equal. lia.
Qed.

Lemma fill_nil (values : list Z) : ∀ ri, fill [] ri values = [].
Proof.
  induction values as [| v values IH]; intros ri; [done |].
  cbn [fill]. unfold store. destruct (ri <? 0); apply IH.
Qed.

Lemma fill_2 result ri x1 x2 :
  fill result ri [x1; x2] = store (store result ri x1) (ri + 1) x2.
Proof. done. Qed.

Lemma fill_3 result ri x1 x2 x3 rest :
  fill result ri (x1 :: x2 :: x3 :: rest)
  = fill (store (store (store result ri x1) (ri + 1) x2) (ri + 2) x3) (ri + 3) rest.
Proof. cbn [fill]. by replace (ri + 1 + 1) with (ri + 2) by lia;
  replace (ri + 2 + 1) with (ri + 3) by lia. Qed.

Lemma fill_4 result ri x1 x2 x3 x4 rest :
  fill result ri (x1 :: x2 :: x3 :: x4 :: rest)
  = fill (store (store (store (store result ri x1) (ri + 1) x2) (ri + 2) x3)
            (ri + 3) x4) (ri + 4) rest.
Proof. rewrite fill_3. cbn [fill]. by replace (ri + 3 + 1) with (ri + 4) by lia. Qed.

(** A list is a sequence of whole groups of [g] elements followed by fewer
    than [g] elements. *)
Lemma list_groups {A} (g : nat) (l : list A) :
  (0 < g)%nat →
  ∃ (k : nat) (body extra : list A),
    l = body ++ extra ∧ length body = (g * k)%nat
    ∧ length extra = (length l `mod` g)%nat.
Proof.
  intros Hg. exists (length l `div` g)%nat,
    (take (g * (length l `div` g)) l), (drop (g * (length l `div` g)) l).
  pose proof (Nat.div_mod_eq (length l) g) as Hdm.
  split_and!.
  - by rewrite take_drop.
  - rewrite length_take. lia.
  - rewrite length_drop. lia.
Qed.

Lemma encodeIndices_app (k : nat) :
  ∀ body extra, length body = (3 * k)%nat →
  encodeIndices (body ++ extra) = encodeIndices body ++ encodeIndices extra.
Proof.
  induction k as [| k IH]; intros body extra Hlen.
  - by destruct body.
  - destruct body as [| a [| b [| c body]]]; cbn [length] in Hlen; try lia.
    cbn [app encodeIndices]. rewrite IH by lia. done.
Qed.

Lemma encodeIndices_length (k : nat) :
  ∀ body, length body = (3 * k)%nat → length (encodeIndices body) = (4 * k)%nat.
Proof.
  induction k as [| k IH]; intros body Hlen.
  - by destruct body.
  - destruct body as [| a [| b [| c body]]]; cbn [length] in Hlen; try lia.
    cbn [encodeIndices length]. rewrite IH by lia. lia.
Qed.

(** *** The loop of [encode] *)

Lemma encode_while_groups (baseMap post : list Z) (k : nat) :
  ∀ (body pre : list Z) (ri : Z) (result : list Z) (fuel : nat),
  length body = (3 * k)%nat → (k ≤ fuel)%nat →
  encode_while fuel baseMap (pre ++ body ++ post)
    (Z.of_nat (length pre) + Z.of_nat (length body)) (Z.of_nat (length pre))
    ri result
  = Return (Z.of_nat (length pre) + Z.of_nat (length body), ri + 4 * Z.of_nat k,
            fill result ri (byteAt baseMap <$> encodeIndices body)).
Proof.
  induction k as [| k IH]; intros body pre ri result fuel Hlen Hfuel.
  - destruct body; [| done]. rewrite Z.add_0_r.
    replace (ri + 4 * Z.of_nat 0) with ri by lia.
    by destruct fuel; cbn [encode_while length]; rewrite Z.ltb_irrefl.
  - destruct body as [| a [| b [| c body]]]; cbn [length] in Hlen; try lia.
    destruct fuel as [| fuel]; [lia |]. cbn [encode_while].
    destruct (Z.ltb_spec (Z.of_nat (length pre))
                (Z.of_nat (length pre) + Z.of_nat (length (a :: b :: c :: body))));
      [| cbn [length] in *; lia].
    rewrite byteAt_app_r0, !byteAt_app_r by lia.
    change (byteAt (a :: b :: c :: body ++ post) 0) with a.
    change (byteAt (a :: b :: c :: body ++ post) 1) with b.
    change (byteAt (a :: b :: c :: body ++ post) 2) with c.
    specialize (IH body (pre ++ [a; b; c])).
    rewrite length_app, <- app_assoc in IH. cbn [length app] in IH.
    replace (Z.of_nat (length pre) + Z.of_nat (length (a :: b :: c :: body)))
      with (Z.of_nat (length pre + 3) + Z.of_nat (length body))
      by (cbn [length]; lia).
    replace (Z.of_nat (length pre) + 3) with (Z.of_nat (length pre + 3)) by lia.
    cbn [app]. rewrite IH by lia.
    cbn [encodeIndices fmap list_fmap]. rewrite fill_4.
    do 2 f_equal. f_equal. lia.
Qed.

Lemma rem_length_groups {A} (g : nat) (body extra : list A) (k : nat) :
  (0 < g)%nat → length body = (g * k)%nat →
  length extra = (length (body ++ extra) `mod` g)%nat →
  Z.rem (Z.of_nat (length (body ++ extra))) (Z.of_nat g) = Z.of_nat (length extra)
  ∧ (length extra < g)%nat.
Proof.
  intros Hg Hb Hx. rewrite Z.rem_mod_nonneg by lia.
  rewrite <- Nat2Z.inj_mod, <- Hx. split; [done |].
  rewrite Hx. by apply Nat.mod_upper_bound, Nat.neq_0_lt_0.
Qed.

Lemma byteAt_segment (pre body rest : list Z) (i : Z) :
  0 ≤ i →
  byteAt (pre ++ body ++ rest) (Z.of_nat (length pre) + Z.of_nat (length body) + i)
  = byteAt rest i.
Proof.
  intros Hi. rewrite app_assoc.
  replace (Z.of_nat (length pre) + Z.of_nat (length body) + i)
    with (Z.of_nat (length (pre ++ body)) + i) by (rewrite length_app; lia).
  by apply byteAt_app_r.
Qed.

Lemma encode_segment (this : Base64) (pre sel post : list Z) start end_ :
  startIndexOf (Z.of_nat (length (pre ++ sel ++ post))) start
  = Z.of_nat (length pre) →
  endIndexOf (Z.of_nat (length (pre ++ sel ++ post))) end_
  = Z.of_nat (length pre) + Z.of_nat (length sel) →
  encode this (VUint8Array (pre ++ sel ++ post)) start end_
  = encodeSelected this sel.
Proof.
  intros Hs He. unfold encode, encodeSelected. cbv zeta. rewrite Hs, He.
  replace (Z.max 0 (Z.of_nat (length pre) + Z.of_nat (length sel)
                    - Z.of_nat (length pre)))
    with (Z.of_nat (length sel)) by lia.
  destruct (newUint8Array _ _) as [result | e |]; cbn [mbind outcome_bind];
    try done.
  destruct (list_groups 3 sel) as (k & body & extra & -> & Hb & Hx); [lia |].
  destruct (rem_length_groups 3 body extra k) as [Hrem Hlt]; [lia | done | done |].
  change (Z.of_nat 3) with 3 in Hrem. rewrite Hrem.
  replace (Z.of_nat (length pre) + Z.of_nat (length (body ++ extra))
           - Z.of_nat (length extra))
    with (Z.of_nat (length pre) + Z.of_nat (length body))
    by (rewrite length_app; lia).
  rewrite <- (app_assoc body extra post).
  rewrite (encode_while_groups _ _ k) by (rewrite ?length_app; lia).
  cbn [mbind outcome_bind].
  rewrite encodeIndices_app with (k := k), fmap_app, fill_app by done.
  rewrite length_fmap, (encodeIndices_length k) by done.
  replace (0 + Z.of_nat (4 * k)) with (0 + 4 * Z.of_nat k) by lia.
  pose proof (byteAt_segment pre body (extra ++ post) 0 ltac:(lia)) as H0.
  pose proof (byteAt_segment pre body (extra ++ post) 1 ltac:(lia)) as H1.
  rewrite Z.add_0_r in H0.
  destruct extra as [| a [| b [| c extra]]]; cbn [length] in Hlt; try lia.
  - done.
  - cbn [length Z.of_nat Pos.of_succ_nat Z.eqb Pos.eqb].
    rewrite H0. cbn [encodeIndices fmap list_fmap]. by rewrite fill_2.
  - cbn [length Z.of_nat Pos.of_succ_nat Pos.succ Z.eqb Pos.eqb].
    rewrite H0, H1. cbn [encodeIndices fmap list_fmap]. by rewrite fill_3.
Qed.

Lemma encode_empty (this : Base64) (input : list Z) start end_ :
  0 ≤ endIndexOf (Z.of_nat (length input)) end_
    < startIndexOf (Z.of_nat (length input)) start →
  encode this (VUint8Array input) start end_ = encodeSelected this [].
Proof.
  intros H. unfold encode, encodeSelected. cbv zeta.
  rewrite Z.max_l by lia. cbn [length]. change (Z.rem 0 3) with 0.
  change (Z.of_nat 0) with 0.
  destruct (newUint8Array _ _) as [result | e |]; cbn [mbind outcome_bind];
    try done.
  rewrite Z.sub_0_r. change (Z.to_nat 0) with 0%nat. cbn [encode_while].
  destruct (Z.ltb_spec (startIndexOf (Z.of_nat (length input)) start)
              (endIndexOf (Z.of_nat (length input)) end_)); [lia | done].
Qed.

(** [encode] depends on the selected bytes only. *)
Lemma encode_slice (this : Base64) (input : list Z) start end_ :
  encode this (VUint8Array input) start end_
  = encodeSelected this (slice input start end_).
Proof.
  destruct (slice_cases input start end_) as [(pre & post & Hin & Hs & He) | [H ->]].
  - revert Hin Hs He. generalize (slice input start end_). intros sel -> Hs He.
    by apply encode_segment.
  - by apply encode_empty.
Qed.

(** *** [[encodeToStringSymbol]] *)

Lemma symbols_cons (alphabet : jsstring) (i : Z) (indices : list Z) :
  symbols alphabet (i :: indices)
  = toString (item alphabet i) ++ symbols alphabet indices.
Proof. done. Qed.

Lemma symbols_app (alphabet : jsstring) (l1 l2 : list Z) :
  symbols alphabet (l1 ++ l2) = symbols alphabet l1 ++ symbols alphabet l2.
Proof. unfold symbols. apply bind_app. Qed.

Lemma encodeToString_while_groups (alphabet post : list Z) (k : nat) :
  ∀ (body pre : list Z) (result : jsstring) (fuel : nat),
  length body = (3 * k)%nat → (k ≤ fuel)%nat →
  encodeToString_while fuel alphabet (pre ++ body ++ post)
    (Z.of_nat (length pre) + Z.of_nat (length body)) (Z.of_nat (length pre))
    result
  = Return (Z.of_nat (length pre) + Z.of_nat (length body),
            result ++ symbols alphabet (encodeIndices body)).
Proof.
  induction k as [| k IH]; intros body pre result fuel Hlen Hfuel.
  - destruct body; [| done]. rewrite Z.add_0_r.
    cbn [encodeIndices symbols mbind list_bind]. rewrite app_nil_r.
    by destruct fuel; cbn [encodeToString_while length]; rewrite Z.ltb_irrefl.
  - destruct body as [| a [| b [| c body]]]; cbn [length] in Hlen; try lia.
    destruct fuel as [| fuel]; [lia |]. cbn [encodeToString_while].
    destruct (Z.ltb_spec (Z.of_nat (length pre))
                (Z.of_nat (length pre) + Z.of_nat (length (a :: b :: c :: body))));
      [| cbn [length] in *; lia].
    rewrite byteAt_app_r0, !byteAt_app_r by lia.
    change (byteAt (a :: b :: c :: body ++ post) 0) with a.
    change (byteAt (a :: b :: c :: body ++ post) 1) with b.
    change (byteAt (a :: b :: c :: body ++ post) 2) with c.
    specialize (IH body (pre ++ [a; b; c])).
    rewrite length_app, <- app_assoc in IH. cbn [length app] in IH.
    replace (Z.of_nat (length pre) + Z.of_nat (length (a :: b :: c :: body)))
      with (Z.of_nat (length pre + 3) + Z.of_nat (length body))
      by (cbn [length]; lia).
    replace (Z.of_nat (length pre) + 3) with (Z.of_nat (length pre + 3)) by lia.
    cbn [app]. rewrite IH by lia.
    cbn [encodeIndices]. rewrite !symbols_cons, <- !app_assoc. done.
Qed.

Lemma encodeToStringSymbol_segment (this : Base64) (pre sel post : list Z)
    start end_ :
  startIndexOf (Z.of_nat (length (pre ++ sel ++ post))) start
  = Z.of_nat (length pre) →
  endIndexOf (Z.of_nat (length (pre ++ sel ++ post))) end_
  = Z.of_nat (length pre) + Z.of_nat (length sel) →
  encodeToStringSymbol this (pre ++ sel ++ post) start end_
  = Return (encodeToStringSelected this sel).
Proof.
  intros Hs He. unfold encodeToStringSymbol, encodeToStringSelected, paddingFor.
  cbv zeta. rewrite Hs, He.
  replace (Z.max 0 (Z.of_nat (length pre) + Z.of_nat (length sel)
                    - Z.of_nat (length pre)))
    with (Z.of_nat (length sel)) by lia.
  destruct (list_groups 3 sel) as (k & body & extra & -> & Hb & Hx); [lia |].
  destruct (rem_length_groups 3 body extra k) as [Hrem Hlt]; [lia | done | done |].
  change (Z.of_nat 3) with 3 in Hrem. rewrite Hrem.
  replace (Z.of_nat (length pre) + Z.of_nat (length (body ++ extra))
           - Z.of_nat (length extra))
    with (Z.of_nat (length pre) + Z.of_nat (length body))
    by (rewrite length_app; lia).
  rewrite <- (app_assoc body extra post).
  rewrite (encodeToString_while_groups _ _ k) by (rewrite ?length_app; lia).
  cbn [mbind outcome_bind app].
  rewrite encodeIndices_app with (k := k), symbols_app by done.
  pose proof (byteAt_segment pre body (extra ++ post) 0 ltac:(lia)) as H0.
  pose proof (byteAt_segment pre body (extra ++ post) 1 ltac:(lia)) as H1.
  rewrite Z.add_0_r in H0.
  destruct extra as [| a [| b [| c extra]]]; cbn [length] in Hlt; try lia.
  - change (Z.of_nat (length [])) with 0. cbn [Z.eqb encodeIndices].
    by rewrite !app_nil_r.
  - change (Z.of_nat (length [a])) with 1. cbn [Z.eqb Pos.eqb].
    rewrite H0. cbn [encodeIndices]. rewrite !symbols_cons, <- !app_assoc. done.
  - change (Z.of_nat (length [a; b])) with 2. cbn [Z.eqb Pos.eqb].
    rewrite H0, H1. cbn [encodeIndices]. rewrite !symbols_cons, <- !app_assoc. done.
Qed.

Lemma encodeToStringSymbol_empty (this : Base64) (input : list Z) start end_ :
  0 ≤ endIndexOf (Z.of_nat (length input)) end_
    < startIndexOf (Z.of_nat (length input)) start →
  encodeToStringSymbol this input start end_
  = Return (encodeToStringSelected this []).
Proof.
  intros H. unfold encodeToStringSymbol, encodeToStringSelected. cbv zeta.
  rewrite Z.max_l by lia. change (Z.rem 0 3) with 0.
  change (Z.to_nat 0) with 0%nat. cbn [encodeToString_while].
  destruct (Z.ltb_spec (startIndexOf (Z.of_nat (length input)) start)
              (endIndexOf (Z.of_nat (length input)) end_ - 0));
    [lia | reflexivity].
Qed.

(** [[encodeToStringSymbol]] depends on the selected bytes only, and
    returns. *)
Lemma encodeToStringSymbol_slice (this : Base64) (input : list Z) start end_ :
  encodeToStringSymbol this input start end_
  = Return (encodeToStringSelected this (slice input start end_)).
Proof.
  destruct (slice_cases input start end_) as [(pre & post & Hin & Hs & He) | [H ->]].
  - revert Hin Hs He. generalize (slice input start end_). intros sel -> Hs He.
    by apply encodeToStringSymbol_segment.
  - by apply encodeToStringSymbol_empty.
Qed.

(** *** [decode] *)

Ltac solve_item :=
  lazymatch goal with
  | |- item _ ?i = Some _ =>
      first [ replace i with 0 by lia | replace i with 1 by lia
            | replace i with 2 by lia | replace i with 3 by lia ];
      reflexivity
  | |- _ => lia
  end.

Lemma item_app_sub {A} (pre l : list A) (j : Z) :
  Z.of_nat (length pre) ≤ j → item (pre ++ l) j = item l (j - Z.of_nat (length pre)).
Proof.
  intros Hj. rewrite <- (item_app_r pre l (j - Z.of_nat (length pre))) by lia.
  f_equal. lia.
Qed.

Lemma byteIndexAt_app (lk : gmap Z Z) (pre l : list Z) (j c : Z) :
  item l (j - Z.of_nat (length pre)) = Some c → Z.of_nat (length pre) ≤ j →
  byteIndexAt lk (pre ++ l) j = byteLook lk j c.
Proof.
  intros Hc Hj. unfold byteIndexAt, byteLook. rewrite item_app_sub, Hc by done.
  cbn. by destruct (lk !! c).
Qed.

Lemma decodeValues_app (look : Z → Z → outcome Z) (k : nat) :
  ∀ off body extra, length body = (4 * k)%nat →
  decodeValues look off (body ++ extra)
  = values1 ← decodeValues look off body;
    values2 ← decodeValues look (off + Z.of_nat (length body)) extra;
    Return (values1 ++ values2).
Proof.
  induction k as [| k IH]; intros off body extra Hlen.
  - destruct body; [| done]. cbn [app decodeValues length mbind outcome_bind].
    rewrite Z.add_0_r. by destruct (decodeValues look off extra).
  - destruct body as [| c1 [| c2 [| c3 [| c4 body]]]]; cbn [length] in Hlen; try lia.
    cbn [app decodeValues].
    destruct (look off c1); cbn [mbind outcome_bind]; try done.
    destruct (look (off + 1) c2); cbn [mbind outcome_bind]; try done.
    destruct (look (off + 2) c3); cbn [mbind outcome_bind]; try done.
    destruct (look (off + 3) c4); cbn [mbind outcome_bind]; try done.
    rewrite IH by lia.
    destruct (decodeValues look (off + 4) body); cbn [mbind outcome_bind]; try done.
    replace (off + 4 + Z.of_nat (length body))
      with (off + Z.of_nat (length (c1 :: c2 :: c3 :: c4 :: body)))
      by (cbn [length]; lia).
    by destruct (decodeValues look _ extra).
Qed.

Lemma decodeValues_length (look : Z → Z → outcome Z) (k : nat) :
  ∀ off body values, length body = (4 * k)%nat →
  decodeValues look off body = Return values → length values = (3 * k)%nat.
Proof.
  induction k as [| k IH]; intros off body values Hlen.
  - destruct body; [| done]. by intros [= <-].
  - destruct body as [| c1 [| c2 [| c3 [| c4 body]]]]; cbn [length] in Hlen; try lia.
    cbn [decodeValues].
    destruct (look off c1); cbn [mbind outcome_bind]; try done.
    destruct (look (off + 1) c2); cbn [mbind outcome_bind]; try done.
    destruct (look (off + 2) c3); cbn [mbind outcome_bind]; try done.
    destruct (look (off + 3) c4); cbn [mbind outcome_bind]; try done.
    destruct (decodeValues look (off + 4) body) eqn:Hd; cbn [mbind outcome_bind];
      try done.
    intros [= <-]. cbn [length]. erewrite IH; [| | exact Hd]; lia.
Qed.

Lemma decode_while_groups (lk : gmap Z Z) (post : list Z) (k : nat) :
  ∀ (body pre : list Z) (ri : Z) (result : list Z) (fuel : nat),
  length body = (4 * k)%nat → (k ≤ fuel)%nat →
  decode_while fuel lk (pre ++ body ++ post)
    (Z.of_nat (length pre) + Z.of_nat (length body)) (Z.of_nat (length pre))
    ri result
  = values ← decodeValues (byteLook lk) (Z.of_nat (length pre)) body;
    Return (Z.of_nat (length pre) + Z.of_nat (length body), ri + 3 * Z.of_nat k,
            fill result ri values).
Proof.
  induction k as [| k IH]; intros body pre ri result fuel Hlen Hfuel.
  - destruct body; [| done]. rewrite Z.add_0_r.
    replace (ri + 3 * Z.of_nat 0) with ri by lia.
    by destruct fuel; cbn [decode_while length]; rewrite Z.ltb_irrefl.
  - destruct body as [| c1 [| c2 [| c3 [| c4 body]]]]; cbn [length] in Hlen; try lia.
    destruct fuel as [| fuel]; [lia |]. cbn [decode_while decodeValues].
    destruct (Z.ltb_spec (Z.of_nat (length pre))
                (Z.of_nat (length pre)
                 + Z.of_nat (length (c1 :: c2 :: c3 :: c4 :: body))));
      [| cbn [length] in *; lia].
    rewrite (byteIndexAt_app lk pre _ (Z.of_nat (length pre)) c1) by solve_item.
    destruct (byteLook lk _ c1); cbn [mbind outcome_bind]; try done.
    rewrite (byteIndexAt_app lk pre _ (Z.of_nat (length pre) + 1) c2) by solve_item.
    destruct (byteLook lk _ c2); cbn [mbind outcome_bind]; try done.
    rewrite (byteIndexAt_app lk pre _ (Z.of_nat (length pre) + 2) c3) by solve_item.
    destruct (byteLook lk _ c3); cbn [mbind outcome_bind]; try done.
    rewrite (byteIndexAt_app lk pre _ (Z.of_nat (length pre) + 3) c4) by solve_item.
    destruct (byteLook lk _ c4); cbn [mbind outcome_bind]; try done.
    specialize (IH body (pre ++ [c1; c2; c3; c4])).
    rewrite length_app, <- app_assoc in IH. cbn [length app] in IH.
    replace (Z.of_nat (length pre)
             + Z.of_nat (length (c1 :: c2 :: c3 :: c4 :: body)))
      with (Z.of_nat (length pre + 4) + Z.of_nat (length body))
      by (cbn [length]; lia).
    replace (Z.of_nat (length pre) + 4) with (Z.of_nat (length pre + 4)) by lia.
    cbn [app]. rewrite IH by lia.
    destruct (decodeValues _ _ body); cbn [mbind outcome_bind]; try done.
    rewrite fill_3. do 2 f_equal. f_equal. lia.
Qed.

Lemma byteIndexAt_segment (lk : gmap Z Z) (pre body rest : list Z) (i c : Z) :
  item rest i = Some c → 0 ≤ i →
  byteIndexAt lk (pre ++ body ++ rest)
    (Z.of_nat (length pre) + Z.of_nat (length body) + i)
  = byteLook lk (Z.of_nat (length pre) + Z.of_nat (length body) + i) c.
Proof.
  intros Hc Hi. rewrite app_assoc. apply byteIndexAt_app.
  - rewrite <- Hc. f_equal. rewrite length_app. lia.
  - rewrite length_app. lia.
Qed.

Lemma decode_segment (this : Base64) (pre sel post : list Z) start end_ :
  startIndexOf (Z.of_nat (length (pre ++ sel ++ post))) start
  = Z.of_nat (length pre) →
  endIndexOf (Z.of_nat (length (pre ++ sel ++ post))) end_
  = Z.of_nat (length pre) + Z.of_nat (length sel) →
  decode this (VUint8Array (pre ++ sel ++ post)) start end_
  = decodeSelected this (Z.of_nat (length pre)) sel.
Proof.
  intros Hs He. unfold decode, decodeSelected. cbv zeta. rewrite Hs, He.
  replace (Z.max 0 (Z.of_nat (length pre) + Z.of_nat (length sel)
                    - Z.of_nat (length pre)))
    with (Z.of_nat (length sel)) by lia.
  destruct (newUint8Array _ _) as [result | e |]; cbn [mbind outcome_bind];
    try done.
  destruct (list_groups 4 sel) as (k & body & extra & -> & Hb & Hx); [lia |].
  destruct (rem_length_groups 4 body extra k) as [Hrem Hlt]; [lia | done | done |].
  change (Z.of_nat 4) with 4 in Hrem. rewrite Hrem.
  replace (Z.of_nat (length pre) + Z.of_nat (length (body ++ extra))
           - Z.of_nat (length extra))
    with (Z.of_nat (length pre) + Z.of_nat (length body))
    by (rewrite length_app; lia).
  rewrite <- (app_assoc body extra post).
  rewrite (decode_while_groups _ _ k) by (rewrite ?length_app; lia).
  rewrite decodeValues_app with (k := k) by done.
  destruct (decodeValues _ _ body) as [values1 | e |] eqn:Hv1;
    cbn [mbind outcome_bind]; try done.
  apply (decodeValues_length _ k) in Hv1; [| done].
  set (lk := baseMapLookupSymbol this).
  pose proof (byteIndexAt_segment lk pre body (extra ++ post) 0) as H0.
  pose proof (byteIndexAt_segment lk pre body (extra ++ post) 1) as H1.
  pose proof (byteIndexAt_segment lk pre body (extra ++ post) 2) as H2.
  rewrite Z.add_0_r in H0.
  destruct extra as [| c1 [| c2 [| c3 [| c4 extra]]]]; cbn [length] in Hlt; try lia.
  - change (Z.of_nat (length [])) with 0. cbn [Z.eqb decodeValues mbind outcome_bind].
    by rewrite app_nil_r.
  - change (Z.of_nat (length [c1])) with 1. cbn [Z.eqb Pos.eqb decodeValues].
    rewrite (H0 c1) by done.
    destruct (byteLook lk _ c1); cbn [mbind outcome_bind]; try done.
    by rewrite app_nil_r.
  - change (Z.of_nat (length [c1; c2])) with 2. cbn [Z.eqb Pos.eqb decodeValues].
    rewrite (H0 c1), (H1 c2) by done.
    destruct (byteLook lk _ c1); cbn [mbind outcome_bind]; try done.
    destruct (byteLook lk _ c2); cbn [mbind outcome_bind]; try done.
    rewrite fill_app. cbn [fill]. do 2 f_equal. lia.
  - change (Z.of_nat (length [c1; c2; c3])) with 3. cbn [Z.eqb Pos.eqb decodeValues].
    rewrite (H0 c1), (H1 c2), (H2 c3) by done.
    destruct (byteLook lk _ c1); cbn [mbind outcome_bind]; try done.
    destruct (byteLook lk _ c2); cbn [mbind outcome_bind]; try done.
    destruct (byteLook lk _ c3); cbn [mbind outcome_bind]; try done.
    rewrite fill_app, fill_2. do 2 f_equal; [f_equal |]; lia.
Qed.

Lemma decode_empty (this : Base64) (input : list Z) start end_ :
  0 ≤ endIndexOf (Z.of_nat (length input)) end_
    < startIndexOf (Z.of_nat (length input)) start →
  decode this (VUint8Array input) start end_
  = decodeSelected this (startIndexOf (Z.of_nat (length input)) start) [].
Proof.
  intros H. unfold decode, decodeSelected. cbv zeta.
  rewrite Z.max_l by lia. cbn [length]. change (Z.rem 0 4) with 0.
  change (Z.of_nat 0) with 0.
  destruct (newUint8Array _ _) as [result | e |]; cbn [mbind outcome_bind];
    try done.
  change (Z.to_nat 0) with 0%nat. cbn [decode_while].
  destruct (Z.ltb_spec (startIndexOf (Z.of_nat (length input)) start)
              (endIndexOf (Z.of_nat (length input)) end_ - 0));
    [lia | reflexivity].
Qed.

(** [decode] depends on the selected bytes and on the position of the
    first one. *)
Lemma decode_slice (this : Base64) (input : list Z) start end_ :
  decode this (VUint8Array input) start end_
  = decodeSelected this (startIndexOf (Z.of_nat (length input)) start)
      (slice input start end_).
Proof.
  destruct (slice_cases input start end_) as [(pre & post & Hin & Hs & He) | [H ->]].
  - rewrite Hs. revert Hin Hs He. generalize (slice input start end_).
    intros sel -> Hs He. by apply decode_segment.
  - by apply decode_empty.
Qed.

(** *** [[decodeFromStringSymbol]] *)

Lemma item_app_l {A} (l post : list A) (i : Z) :
  i < Z.of_nat (length l) → item (l ++ post) i = item l i.
Proof.
  intros Hi. unfold item. destruct (Z.ltb_spec i 0); [done |].
  by rewrite lookup_app_l by lia.
Qed.

Lemma item_segment {A} (pre sel post : list A) (j : Z) :
  Z.of_nat (length pre) ≤ j < Z.of_nat (length pre) + Z.of_nat (length sel) →
  item (pre ++ sel ++ post) j = item sel (j - Z.of_nat (length pre)).
Proof. intros Hj. rewrite item_app_sub, item_app_l by lia. done. Qed.

Lemma paddingOf_bounds (sel : jsstring) :
  0 ≤ paddingOf sel ≤ 2 ∧ paddingOf sel ≤ Z.of_nat (length sel).
Proof.
  unfold paddingOf. case_bool_decide as H1; [| lia].
  apply item_Some in H1 as [H1 _]. case_bool_decide as H2; [| lia].
  apply item_Some in H2 as [H2 _]. lia.
Qed.

Lemma paddingCount_while_segment (pre sel post : jsstring) :
  paddingCount_while 2 (pre ++ sel ++ post) (Z.of_nat (length sel))
    (Z.of_nat (length pre) + Z.of_nat (length sel) - 1) 0
  = Return (paddingOf sel).
Proof.
  unfold paddingOf. cbn [paddingCount_while].
  destruct (Z.ltb_spec 0 (Z.of_nat (length sel))) as [Hn | Hn]; cbn [andb].
  2:{ rewrite bool_decide_eq_false_2; [done |].
      intros [? _]%item_Some. lia. }
  change (0 <? 2) with true. cbn [andb].
  rewrite item_segment by lia.
  replace (Z.of_nat (length pre) + Z.of_nat (length sel) - 1 - 0
           - Z.of_nat (length pre))
    with (Z.of_nat (length sel) - 1) by lia.
  case_bool_decide as H1; [| done].
  destruct (Z.ltb_spec (0 + 1) (Z.of_nat (length sel))) as [Hn2 | Hn2]; cbn [andb].
  2:{ rewrite bool_decide_eq_false_2; [done |].
      intros [? _]%item_Some. lia. }
  change (0 + 1 <? 2) with true. cbn [andb].
  rewrite item_segment by lia.
  replace (Z.of_nat (length pre) + Z.of_nat (length sel) - 1 - (0 + 1)
           - Z.of_nat (length pre))
    with (Z.of_nat (length sel) - 2) by lia.
  case_bool_decide as H2; [| done].
  change (0 + 1 + 1 <? 2) with false. by rewrite andb_false_r.
Qed.

Lemma charIndexAt_app (lk : gmap Z Z) (pre l : jsstring) (j c : Z) :
  item l (j - Z.of_nat (length pre)) = Some c → Z.of_nat (length pre) ≤ j →
  charIndexAt lk (pre ++ l) j = charLook lk j c.
Proof.
  intros Hc Hj. unfold charIndexAt, charLook. rewrite item_app_sub, Hc by done.
  cbn. by destruct (lk !! c).
Qed.

Lemma charIndexAt_segment (lk : gmap Z Z) (pre body rest : jsstring) (i c : Z) :
  item rest i = Some c → 0 ≤ i →
  charIndexAt lk (pre ++ body ++ rest)
    (Z.of_nat (length pre) + Z.of_nat (length body) + i)
  = charLook lk (Z.of_nat (length pre) + Z.of_nat (length body) + i) c.
Proof.
  intros Hc Hi. rewrite app_assoc. apply charIndexAt_app.
  - rewrite <- Hc. f_equal. rewrite length_app. lia.
  - rewrite length_app. lia.
Qed.

Lemma decodeFromString_while_groups (lk : gmap Z Z) (post : jsstring) (k : nat) :
  ∀ (body pre : jsstring) (ri : Z) (result : list Z) (fuel : nat),
  length body = (4 * k)%nat → (k ≤ fuel)%nat →
  decodeFromString_while fuel lk (pre ++ body ++ post)
    (Z.of_nat (length pre) + Z.of_nat (length body)) (Z.of_nat (length pre))
    ri result
  = values ← decodeValues (charLook lk) (Z.of_nat (length pre)) body;
    Return (Z.of_nat (length pre) + Z.of_nat (length body), ri + 3 * Z.of_nat k,
            fill result ri values).
Proof.
  induction k as [| k IH]; intros body pre ri result fuel Hlen Hfuel.
  - destruct body; [| done]. rewrite Z.add_0_r.
    replace (ri + 3 * Z.of_nat 0) with ri by lia.
    by destruct fuel; cbn [decodeFromString_while length]; rewrite Z.ltb_irrefl.
  - destruct body as [| c1 [| c2 [| c3 [| c4 body]]]]; cbn [length] in Hlen; try lia.
    destruct fuel as [| fuel]; [lia |]. cbn [decodeFromString_while decodeValues].
    destruct (Z.ltb_spec (Z.of_nat (length pre))
                (Z.of_nat (length pre)
                 + Z.of_nat (length (c1 :: c2 :: c3 :: c4 :: body))));
      [| cbn [length] in *; lia].
    rewrite (charIndexAt_app lk pre _ (Z.of_nat (length pre)) c1) by solve_item.
    destruct (charLook lk _ c1); cbn [mbind outcome_bind]; try done.
    rewrite (charIndexAt_app lk pre _ (Z.of_nat (length pre) + 1) c2) by solve_item.
    destruct (charLook lk _ c2); cbn [mbind outcome_bind]; try done.
    rewrite (charIndexAt_app lk pre _ (Z.of_nat (length pre) + 2) c3) by solve_item.
    destruct (charLook lk _ c3); cbn [mbind outcome_bind]; try done.
    rewrite (charIndexAt_app lk pre _ (Z.of_nat (length pre) + 3) c4) by solve_item.
    destruct (charLook lk _ c4); cbn [mbind outcome_bind]; try done.
    specialize (IH body (pre ++ [c1; c2; c3; c4])).
    rewrite length_app, <- app_assoc in IH. cbn [length app] in IH.
    replace (Z.of_nat (length pre)
             + Z.of_nat (length (c1 :: c2 :: c3 :: c4 :: body)))
      with (Z.of_nat (length pre + 4) + Z.of_nat (length body))
      by (cbn [length]; lia).
    replace (Z.of_nat (length pre) + 4) with (Z.of_nat (length pre + 4)) by lia.
    cbn [app]. rewrite IH by lia.
    destruct (decodeValues _ _ body); cbn [mbind outcome_bind]; try done.
    rewrite fill_3. do 2 f_equal. f_equal. lia.
Qed.

(** The function after the padding has been counted: the characters
    [valid] are decoded, [pad] and [post] are not read. *)
Lemma decodeFromStringSymbol_segment (this : Base64) (pre sel post : jsstring)
    start end_ :
  startIndexOf (Z.of_nat (length (pre ++ sel ++ post))) start
  = Z.of_nat (length pre) →
  endIndexOf (Z.of_nat (length (pre ++ sel ++ post))) end_
  = Z.of_nat (length pre) + Z.of_nat (length sel) →
  decodeFromStringSymbol this (pre ++ sel ++ post) start end_
  = decodeFromStringSelected this (Z.of_nat (length pre)) sel.
Proof.
  intros Hs He. unfold decodeFromStringSymbol, decodeFromStringSelected.
  cbv zeta. rewrite Hs, He.
  replace (Z.max 0 (Z.of_nat (length pre) + Z.of_nat (length sel)
                    - Z.of_nat (length pre)))
    with (Z.of_nat (length sel)) by lia.
  set (pc := if Z.rem (Z.of_nat (length sel)) 4 =? 0 then paddingOf sel else 0).
  assert (Hpc : (if Z.rem (Z.of_nat (length sel)) 4 =? 0
                 then paddingCount_while 2 (pre ++ sel ++ post)
                        (Z.of_nat (length sel))
                        (Z.of_nat (length pre) + Z.of_nat (length sel) - 1) 0
                 else Return 0) = Return pc).
  { unfold pc. destruct (_ =? 0); [apply paddingCount_while_segment | done]. }
  rewrite Hpc. cbn [mbind outcome_bind]. clear Hpc.
  assert (Hb : 0 ≤ pc ≤ Z.of_nat (length sel)).
  { unfold pc. pose proof (paddingOf_bounds sel). destruct (_ =? 0); lia. }
  destruct (newUint8Array _ _) as [result | e |]; cbn [mbind outcome_bind];
    try done.
  clearbody pc.
  set (fuel := Z.to_nat (Z.of_nat (length sel))).
  assert (Hfuel : (length sel ≤ fuel)%nat) by (unfold fuel; lia). clearbody fuel.
  assert (Hsel : ∃ valid pad,
            sel = valid ++ pad
            ∧ Z.of_nat (length sel) - pc = Z.of_nat (length valid)
            ∧ take (Z.to_nat (Z.of_nat (length sel) - pc)) sel = valid).
  { exists (take (Z.to_nat (Z.of_nat (length sel) - pc)) sel),
      (drop (Z.to_nat (Z.of_nat (length sel) - pc)) sel).
    split_and!; [by rewrite take_drop | rewrite length_take; lia | done]. }
  destruct Hsel as (valid & pad & Hsel & Hvl & Htake).
  rewrite Htake, Hvl. clear Htake Hvl Hs He Hb pc. subst sel.
  rewrite <- (app_assoc valid pad post).
  assert (Hfuel' : (length valid ≤ fuel)%nat) by (rewrite length_app in Hfuel; lia).
  clear Hfuel. generalize (pad ++ post). clear post pad. intros post.
  destruct (list_groups 4 valid) as (k & body & extra & -> & Hbody & Hx); [lia |].
  destruct (rem_length_groups 4 body extra k) as [Hrem Hlt]; [lia | done | done |].
  change (Z.of_nat 4) with 4 in Hrem. rewrite Hrem.
  replace (Z.of_nat (length pre) + Z.of_nat (length (body ++ extra))
           - Z.of_nat (length extra))
    with (Z.of_nat (length pre) + Z.of_nat (length body))
    by (rewrite length_app; lia).
  rewrite <- (app_assoc body extra post).
  rewrite (decodeFromString_while_groups _ _ k)
    by (rewrite ?length_app in *; lia).
  cbn [mbind outcome_bind].
  rewrite decodeValues_app with (k := k) by done.
  destruct (decodeValues _ _ body) as [values1 | e |] eqn:Hv1;
    cbn [mbind outcome_bind]; try done.
  apply (decodeValues_length _ k) in Hv1; [| done].
  set (lk := alphabetLookupSymbol this).
  pose proof (charIndexAt_segment lk pre body (extra ++ post) 0) as H0.
  pose proof (charIndexAt_segment lk pre body (extra ++ post) 1) as H1.
  pose proof (charIndexAt_segment lk pre body (extra ++ post) 2) as H2.
  rewrite Z.add_0_r in H0.
  destruct extra as [| c1 [| c2 [| c3 [| c4 extra]]]]; cbn [length] in Hlt; try lia.
  - change (Z.of_nat (length [])) with 0. cbn [Z.eqb decodeValues mbind outcome_bind].
    by rewrite app_nil_r.
  - change (Z.of_nat (length [c1])) with 1. cbn [Z.eqb Pos.eqb decodeValues].
    rewrite (H0 c1) by done.
    destruct (charLook lk _ c1); cbn [mbind outcome_bind]; try done.
    by rewrite app_nil_r.
  - change (Z.of_nat (length [c1; c2])) with 2. cbn [Z.eqb Pos.eqb decodeValues].
    rewrite (H0 c1), (H1 c2) by done.
    destruct (charLook lk _ c1); cbn [mbind outcome_bind]; try done.
    destruct (charLook lk _ c2); cbn [mbind outcome_bind]; try done.
    rewrite fill_app. cbn [fill]. do 2 f_equal. lia.
  - change (Z.of_nat (length [c1; c2; c3])) with 3. cbn [Z.eqb Pos.eqb decodeValues].
    rewrite (H0 c1), (H1 c2), (H2 c3) by done.
    destruct (charLook lk _ c1); cbn [mbind outcome_bind]; try done.
    destruct (charLook lk _ c2); cbn [mbind outcome_bind]; try done.
    destruct (charLook lk _ c3); cbn [mbind outcome_bind]; try done.
    rewrite fill_app, fill_2. do 2 f_equal; [f_equal |]; lia.
Qed.

Lemma decodeFromStringSymbol_empty (this : Base64) (input : jsstring) start end_ :
  0 ≤ endIndexOf (Z.of_nat (length input)) end_
    < startIndexOf (Z.of_nat (length input)) start →
  decodeFromStringSymbol this input start end_
  = decodeFromStringSelected this (startIndexOf (Z.of_nat (length input)) start) [].
Proof.
  intros H. unfold decodeFromStringSymbol, decodeFromStringSelected. cbv zeta.
  rewrite Z.max_l by lia. change (Z.rem 0 4 =? 0) with true.
  cbn [paddingCount_while]. change (0 <? 0) with false.
  cbn [andb mbind outcome_bind].
  change (newUint8Array (sar ((0 - 0) * 3) 2) 1) with (Return (@nil Z)).
  cbn [mbind outcome_bind]. change (Z.to_nat 0) with 0%nat.
  cbn [decodeFromString_while].
  match goal with |- context [?a <? ?b] => destruct (Z.ltb_spec a b) end;
    [change (Z.rem (0 - 0) 4) with 0 in *; lia | reflexivity].
Qed.

(** [[decodeFromStringSymbol]] depends on the selected characters and on
    the position of the first one. *)
Lemma decodeFromStringSymbol_slice (this : Base64) (input : jsstring) start end_ :
  decodeFromStringSymbol this input start end_
  = decodeFromStringSelected this (startIndexOf (Z.of_nat (length input)) start)
      (slice input start end_).
Proof.
  destruct (slice_cases input start end_) as [(pre & post & Hin & Hs & He) | [H ->]].
  - rewrite Hs. revert Hin Hs He. generalize (slice input start end_).
    intros sel -> Hs He. by apply decodeFromStringSymbol_segment.
  - by apply decodeFromStringSymbol_empty.
Qed.

(** The position of the first selected element only moves the position an
    error reports. *)
Lemma decodeValues_shift (look : Z → Z → outcome Z) (syms : list Z) :
  (∀ off i c, look (off + i) c = shiftError off (look i c)) →
  ∀ off i, decodeValues look (off + i) syms
           = shiftError off (decodeValues look i syms).
Proof.
  intros Hlook. induction syms as [syms IH] using (induction_ltof1 _ length).
  unfold ltof in IH. intros off i.
  destruct syms as [| c1 [| c2 [| c3 [| c4 rest]]]]; cbn [decodeValues];
    [done | ..];
    replace (off + i + 1) with (off + (i + 1)) by lia;
    replace (off + i + 2) with (off + (i + 2)) by lia;
    replace (off + i + 3) with (off + (i + 3)) by lia;
    replace (off + i + 4) with (off + (i + 4)) by lia;
    rewrite !(Hlook off);
    try rewrite (IH rest ltac:(cbn [length]; lia) off (i + 4));
    destruct (look i c1) as [? | [[] | [] | []] |]; try done;
    cbn [shiftError mbind outcome_bind];
    try (destruct (look (i + 1) c2) as [? | [[] | [] | []] |]; try done;
         cbn [shiftError mbind outcome_bind]);
    try (destruct (look (i + 2) c3) as [? | [[] | [] | []] |]; try done;
         cbn [shiftError mbind outcome_bind]);
    try (destruct (look (i + 3) c4) as [? | [[] | [] | []] |]; try done;
         cbn [shiftError mbind outcome_bind]).
  by destruct (decodeValues look (i + 4) rest) as [? | [[] | [] | []] |].
Qed.

Lemma byteLook_shift (lk : gmap Z Z) (off i c : Z) :
  byteLook lk (off + i) c = shiftError off (byteLook lk i c).
Proof. unfold byteLook. by destruct (lk !! c). Qed.

Lemma charLook_shift (lk : gmap Z Z) (off i c : Z) :
  charLook lk (off + i) c = shiftError off (charLook lk i c).
Proof. unfold charLook. by destruct (lk !! c). Qed.

Lemma decodeSelected_shift (this : Base64) (off : Z) (sel : list Z) :
  decodeSelected this off sel = shiftError off (decodeSelected this 0 sel).
Proof.
  unfold decodeSelected, newUint8Array. cbv zeta.
  destruct (_ <? 0); cbn [mbind outcome_bind]; [done |].
  rewrite <- (Z.add_0_r off) at 1.
  rewrite (decodeValues_shift _ _ (byteLook_shift _)).
  by destruct (decodeValues _ 0 sel) as [? | [[] | [] | []] |].
Qed.

Lemma decodeFromStringSelected_shift (this : Base64) (off : Z) (sel : jsstring) :
  decodeFromStringSelected this off sel
  = shiftError off (decodeFromStringSelected this 0 sel).
Proof.
  unfold decodeFromStringSelected, newUint8Array. cbv zeta.
  destruct (_ <? 0); cbn [mbind outcome_bind]; [done |].
  rewrite <- (Z.add_0_r off) at 1.
  rewrite (decodeValues_shift _ _ (charLook_shift _)).
  by destruct (decodeValues _ 0 _) as [? | [[] | [] | []] |].
Qed.

(** ** The 32-bit operators on small operands *)

Lemma ToInt32_small (x : Z) : - 2 ^ 31 ≤ x < 2 ^ 31 → ToInt32 x = x.
Proof.
  intros Hx. unfold ToInt32. change (2 ^ 32) with 4294967296 in *.
  change (2 ^ 31) with 2147483648 in *.
  destruct (Z.ltb_spec (x mod 4294967296) 2147483648);
    Z.to_euclidean_division_equations; lia.
Qed.

Lemma shl_small (x k p : Z) :
  0 ≤ k < 32 → p = 2 ^ k → 0 ≤ x → x * p < 2 ^ 31 → shl x k = x * p.
Proof.
  intros Hk -> Hx Hp. unfold shl.
  assert (0 < 2 ^ k) by (apply Z.pow_pos_nonneg; lia).
  rewrite (ToInt32_small x) by nia.
  rewrite Z.mod_small, Z.shiftl_mul_pow2 by lia.
  apply ToInt32_small. nia.
Qed.

Lemma sar_small (x k p : Z) :
  0 ≤ k < 32 → p = 2 ^ k → 0 ≤ x < 2 ^ 31 → sar x k = x / p.
Proof.
  intros Hk -> Hx. unfold sar.
  rewrite ToInt32_small, Z.mod_small, Z.shiftr_div_pow2 by lia. done.
Qed.

Lemma band_small (x n p : Z) :
  0 ≤ n < 31 → p = 2 ^ n → 0 ≤ x < 2 ^ 31 → band x (p - 1) = x mod p.
Proof.
  intros Hn -> Hx. unfold band.
  assert (0 < 2 ^ n < 2 ^ 31) by (split; [apply Z.pow_pos_nonneg; lia |
                                          apply Z.pow_lt_mono_r; lia]).
  rewrite !ToInt32_small by lia.
  rewrite <- Z.land_ones by lia. by rewrite Z.ones_equiv, <- Z.sub_1_r.
Qed.

Lemma bor_2 (x : Z) : 0 ≤ x → 4 * x + 2 < 2 ^ 31 → bor (4 * x) 2 = 4 * x + 2.
Proof.
  intros Hx Hlt. unfold bor. rewrite !ToInt32_small by lia.
  assert (Hland : Z.land (4 * x) 2 = 0).
  { replace (4 * x) with (Z.shiftl x 2) by (rewrite Z.shiftl_mul_pow2; lia).
    apply Z.bits_inj'. intros i Hi. rewrite Z.land_spec, Z.bits_0.
    destruct (Z.lt_ge_cases i 2).
    - by rewrite Z.shiftl_spec_low.
    - change 2 with (2 ^ 1) at 2. rewrite Z.pow2_bits_eqb by lia.
      destruct (Z.eqb_spec 1 i); [lia | apply andb_false_r]. }
  by rewrite <- Z.lxor_lor, <- Z.add_nocarry_lxor.
Qed.

Lemma band_63 (x : Z) : 0 ≤ x < 2 ^ 31 → band x 63 = x mod 64.
Proof. intros Hx. by apply (band_small x 6 64). Qed.

Lemma band_255 (x : Z) : 0 ≤ x < 2 ^ 31 → band x 255 = x mod 256.
Proof. intros Hx. by apply (band_small x 8 256). Qed.

(** ** The arithmetic of a group *)

Ltac to_arith :=
  repeat first
    [ rewrite (shl_small _ 16 65536) by (done || lia)
    | rewrite (shl_small _ 8 256) by (done || lia)
    | rewrite (shl_small _ 4 16) by (done || lia)
    | rewrite (shl_small _ 2 4) by (done || lia)
    | rewrite (shl_small _ 18 262144) by (done || lia)
    | rewrite (shl_small _ 12 4096) by (done || lia)
    | rewrite (shl_small _ 10 1024) by (done || lia)
    | rewrite (shl_small _ 6 64) by (done || lia)
    | rewrite (sar_small _ 18 262144) by (done || lia)
    | rewrite (sar_small _ 16 65536) by (done || lia)
    | rewrite (sar_small _ 12 4096) by (done || lia)
    | rewrite (sar_small _ 10 1024) by (done || lia)
    | rewrite (sar_small _ 8 256) by (done || lia)
    | rewrite (sar_small _ 6 64) by (done || lia)
    | rewrite (sar_small _ 4 16) by (done || lia)
    | rewrite (sar_small _ 2 4) by (done || lia)
    | rewrite band_63 by (Z.to_euclidean_division_equations; lia)
    | rewrite band_255 by (Z.to_euclidean_division_equations; lia) ].

Lemma group3_indices (a b c : Z) :
  isByte a → isByte b → isByte c →
  let number := shl a 16 + shl b 8 + c in
  band (sar number 18) 0x3f = a / 4
  ∧ band (sar number 12) 0x3f = (a mod 4) * 16 + b / 16
  ∧ band (sar number 6) 0x3f = (b mod 16) * 4 + c / 64
  ∧ band number 0x3f = c mod 64.
Proof.
  unfold isByte. intros Ha Hb Hc. cbv zeta. to_arith.
  split_and!; Z.to_euclidean_division_equations; lia.
Qed.

Lemma group3_bytes (a b c : Z) :
  isByte a → isByte b → isByte c →
  let number := shl (a / 4) 18 + shl ((a mod 4) * 16 + b / 16) 12
                + shl ((b mod 16) * 4 + c / 64) 6 + c mod 64 in
  band (sar number 16) 0xff = a
  ∧ band (sar number 8) 0xff = b
  ∧ band number 0xff = c.
Proof.
  unfold isByte. intros Ha Hb Hc. cbv zeta.
  rewrite (shl_small _ 18 262144), (shl_small _ 12 4096), (shl_small _ 6 64)
    by (done || (Z.to_euclidean_division_equations; lia)).
  rewrite (sar_small _ 16 65536), (sar_small _ 8 256)
    by (done || (Z.to_euclidean_division_equations; lia)).
  rewrite !band_255 by (Z.to_euclidean_division_equations; lia).
  split_and!; Z.to_euclidean_division_equations; lia.
Qed.

Lemma group1_indices (a : Z) :
  isByte a →
  sar a 2 = a / 4 ∧ band (shl a 4) 0x3f = (a mod 4) * 16.
Proof.
  unfold isByte. intros Ha. to_arith.
  split_and!; Z.to_euclidean_division_equations; lia.
Qed.

Lemma group1_bytes (a : Z) :
  isByte a →
  band (shl (a / 4) 2 + sar ((a mod 4) * 16) 4) 0xff = a.
Proof.
  unfold isByte. intros Ha.
  rewrite (shl_small _ 2 4), (sar_small _ 4 16)
    by (done || (Z.to_euclidean_division_equations; lia)).
  rewrite !band_255 by (Z.to_euclidean_division_equations; lia).
  Z.to_euclidean_division_equations; lia.
Qed.

Lemma group2_indices (a b : Z) :
  isByte a → isByte b →
  let number := shl a 8 + b in
  sar number 10 = a / 4
  ∧ band (sar number 4) 0x3f = (a mod 4) * 16 + b / 16
  ∧ band (shl number 2) 0x3f = (b mod 16) * 4.
Proof.
  unfold isByte. intros Ha Hb. cbv zeta. to_arith.
  split_and!; Z.to_euclidean_division_equations; lia.
Qed.

Lemma group2_bytes (a b : Z) :
  isByte a → isByte b →
  let number := shl (a / 4) 10 + shl ((a mod 4) * 16 + b / 16) 4
                + sar ((b mod 16) * 4) 2 in
  band (sar number 8) 0xff = a ∧ band number 0xff = b.
Proof.
  unfold isByte. intros Ha Hb. cbv zeta.
  rewrite (shl_small _ 10 1024), (shl_small _ 4 16), (sar_small _ 2 4)
    by (done || (Z.to_euclidean_division_equations; lia)).
  rewrite (sar_small _ 8 256)
    by (done || (Z.to_euclidean_division_equations; lia)).
  rewrite !band_255 by (Z.to_euclidean_division_equations; lia).
  split_and!; Z.to_euclidean_division_equations; lia.
Qed.

(** ** Stores into a fresh array *)

Lemma fill_fresh (values : list Z) :
  ∀ (written zeros : list Z),
  (length values ≤ length zeros)%nat →
  fill (written ++ zeros) (Z.of_nat (length written)) values
  = written ++ ((λ v, v mod 256) <$> values) ++ drop (length values) zeros.
Proof.
  induction values as [| v values IH]; intros written zeros Hlen; [done |].
  destruct zeros as [| z zeros]; cbn [length] in Hlen; [lia |].
  cbn [fill fmap list_fmap length drop app]. unfold store.
  destruct (Z.ltb_spec (Z.of_nat (length written)) 0); [lia |].
  rewrite Nat2Z.id, insert_app_r_alt, Nat.sub_diag by lia. cbn [insert list_insert].
  specialize (IH (written ++ [v mod 256]) zeros).
  rewrite length_app, <- !app_assoc in IH. cbn [length app] in IH.
  replace (Z.of_nat (length written) + 1) with (Z.of_nat (length written + 1)) by lia.
  rewrite IH by lia. done.
Qed.

Lemma fill_replicate (values : list Z) (n : nat) :
  length values = n →
  fill (replicate n 0) 0 values = (λ v, v mod 256) <$> values.
Proof.
  intros Hn. pose proof (fill_fresh values [] (replicate n 0)) as H.
  cbn [app length] in H. change (Z.of_nat 0) with 0 in H.
  rewrite H by (rewrite length_replicate; lia).
  rewrite drop_ge by (rewrite length_replicate; lia). apply app_nil_r.
Qed.

Lemma fmap_mod_bytes (bytes : list Z) :
  Forall isByte bytes → (λ v, v mod 256) <$> bytes = bytes.
Proof.
  induction 1 as [| b bytes Hb _ IH]; [done |]. cbn [fmap list_fmap].
  fold (fmap (M := list) (λ v, v mod 256) bytes).
  rewrite IH. f_equal. apply Z.mod_small. exact Hb.
Qed.

(** ** Lengths *)

Lemma encodeIndices_length_Z (sel : list Z) :
  Z.of_nat (length (encodeIndices sel)) = (4 * Z.of_nat (length sel) + 2) / 3.
Proof.
  destruct (list_groups 3 sel) as (k & body & extra & -> & Hb & Hx); [lia |].
  destruct (rem_length_groups 3 body extra k) as [_ Hlt]; [lia | done | done |].
  rewrite (encodeIndices_app k), !length_app, (encodeIndices_length k), Hb by done.
  destruct extra as [| a [| b [| c extra]]]; cbn [length] in Hlt; try lia;
    cbn [encodeIndices length]; Z.to_euclidean_division_equations; lia.
Qed.

(** The size [encode] allocates is the number of symbols, as long as the
    32-bit shift does not wrap. *)
Lemma encode_alloc (n : Z) :
  0 ≤ n < 2 ^ 29 →
  newUint8Array (bor (shl n 2) 2) 3
  = Return (replicate (Z.to_nat ((4 * n + 2) / 3)) 0).
Proof.
  intros Hn. rewrite (shl_small n 2 4) by (done || lia).
  rewrite (Z.mul_comm n 4), bor_2 by lia.
  unfold newUint8Array. cbv zeta. rewrite Z.quot_div_nonneg by lia.
  destruct (Z.ltb_spec ((4 * n + 2) / 3) 0); [| done].
  Z.to_euclidean_division_equations; lia.
Qed.

(** The size [decode] allocates. *)
Lemma decode_alloc (m : Z) :
  0 ≤ m → 3 * m < 2 ^ 31 →
  newUint8Array (sar (m * 3) 2) 1 = Return (replicate (Z.to_nat (3 * m / 4)) 0).
Proof.
  intros Hm Hlt. rewrite (sar_small _ 2 4) by (done || lia).
  unfold newUint8Array. cbv zeta. rewrite Z.quot_1_r, (Z.mul_comm m 3).
  destruct (Z.ltb_spec (3 * m / 4) 0); [| done].
  Z.to_euclidean_division_equations; lia.
Qed.

(** ** Decoding what was encoded *)

Lemma decodeValues_encodeIndices (look : Z → Z → outcome Z) (chr : Z → Z) :
  (∀ off i, 0 ≤ i < 64 → look off (chr i) = Return i) →
  ∀ sel, Forall isByte sel →
  ∀ off, decodeValues look off (chr <$> encodeIndices sel) = Return sel.
Proof.
  intros Hlook sel. induction sel as [sel IH] using (induction_ltof1 _ length).
  unfold ltof in IH. intros Hsel off.
  destruct sel as [| a [| b [| c rest]]].
  - done.
  - apply Forall_cons in Hsel as [Ha _].
    cbn [encodeIndices fmap list_fmap decodeValues].
    destruct (group1_indices a Ha) as [-> ->].
    rewrite !Hlook by (unfold isByte in *; Z.to_euclidean_division_equations; lia).
    cbn [mbind outcome_bind]. by rewrite group1_bytes.
  - apply Forall_cons in Hsel as [Ha Hsel]. apply Forall_cons in Hsel as [Hb _].
    cbn [encodeIndices fmap list_fmap decodeValues].
    destruct (group2_indices a b Ha Hb) as (-> & -> & ->).
    rewrite !Hlook by (unfold isByte in *; Z.to_euclidean_division_equations; lia).
    cbn [mbind outcome_bind].
    by destruct (group2_bytes a b Ha Hb) as [-> ->].
  - apply Forall_cons in Hsel as [Ha Hsel]. apply Forall_cons in Hsel as [Hb Hsel].
    apply Forall_cons in Hsel as [Hc Hsel].
    cbn [encodeIndices fmap list_fmap decodeValues].
    fold (fmap (M := list) chr (encodeIndices rest)).
    destruct (group3_indices a b c Ha Hb Hc) as (-> & -> & -> & ->).
    rewrite !Hlook by (unfold isByte in *; Z.to_euclidean_division_equations; lia).
    cbn [mbind outcome_bind]. rewrite IH by (cbn [length]; done || lia).
    cbn [mbind outcome_bind].
    by destruct (group3_bytes a b c Ha Hb Hc) as (-> & -> & ->).
Qed.

Lemma encodeIndices_range (sel : list Z) :
  Forall isByte sel → Forall (λ i, 0 ≤ i < 64) (encodeIndices sel).
Proof.
  induction sel as [sel IH] using (induction_ltof1 _ length).
  unfold ltof in IH. intros Hsel.
  destruct sel as [| a [| b [| c rest]]]; cbn [encodeIndices].
  - done.
  - apply Forall_cons in Hsel as [Ha _].
    destruct (group1_indices a Ha) as [-> ->].
    repeat constructor; unfold isByte in *; Z.to_euclidean_division_equations; lia.
  - apply Forall_cons in Hsel as [Ha Hsel]. apply Forall_cons in Hsel as [Hb _].
    destruct (group2_indices a b Ha Hb) as (-> & -> & ->).
    repeat constructor; unfold isByte in *; Z.to_euclidean_division_equations; lia.
  - apply Forall_cons in Hsel as [Ha Hsel]. apply Forall_cons in Hsel as [Hb Hsel].
    apply Forall_cons in Hsel as [Hc Hsel].
    destruct (group3_indices a b c Ha Hb Hc) as (-> & -> & -> & ->).
    repeat (apply Forall_cons; split);
      [unfold isByte in *; Z.to_euclidean_division_equations; lia .. |].
    apply IH; [cbn [length]; lia | done].
Qed.

Section ValidInstance.
Variable this : Base64.
Hypothesis this_valid : validInstance this.

Lemma baseMap_item (i : Z) :
  0 ≤ i < 64 →
  ∃ c, byteAt (baseMapSymbol this) i = c
       ∧ toString (item (alphabetSymbol this) i) = [c]
       ∧ c ∈ alphabetSymbol this ∧ c mod 256 = c
       ∧ (∀ off, byteLook (baseMapLookupSymbol this) off c = Return i)
       ∧ (∀ off, charLook (alphabetLookupSymbol this) off c = Return i).
Proof.
  intros Hi.
  destruct (alphabet_item this this_valid i Hi)
    as (c & Hc & Hlk & Hblk & Hbm & Hascii & _ & _).
  exists c. unfold byteAt, byteLook, charLook. rewrite Hbm, Hc, Hlk, Hblk.
  split_and!; try done.
  - by eapply item_elem_of.
  - apply Z.mod_small. lia.
Qed.

(** The characters of alphabet indices, as bytes and as a string. *)
Lemma symbols_baseMap (indices : list Z) :
  Forall (λ i, 0 ≤ i < 64) indices →
  symbols (alphabetSymbol this) indices = byteAt (baseMapSymbol this) <$> indices
  ∧ (λ v, v mod 256) <$> (byteAt (baseMapSymbol this) <$> indices)
    = byteAt (baseMapSymbol this) <$> indices
  ∧ Forall (λ c, c ∈ alphabetSymbol this) (byteAt (baseMapSymbol this) <$> indices).
Proof.
  induction 1 as [| i indices Hi _ (IH1 & IH2 & IH3)]; [done |].
  destruct (baseMap_item i Hi) as (c & Hc & Hs & Hin & Hmod & _).
  rewrite symbols_cons, Hs, IH1. cbn [fmap list_fmap app].
  fold (fmap (M := list) (byteAt (baseMapSymbol this)) indices).
  fold (fmap (M := list) (λ v, v mod 256)
          (byteAt (baseMapSymbol this) <$> indices)).
  rewrite IH2, Hc, Hmod. split_and!; [done | done |].
  by apply Forall_cons.
Qed.

Lemma encodeSelected_valid (sel : list Z) :
  Forall isByte sel → Z.of_nat (length sel) < 2 ^ 29 →
  encodeSelected this sel
  = Return (byteAt (baseMapSymbol this) <$> encodeIndices sel).
Proof.
  intros Hsel Hlen. unfold encodeSelected. rewrite encode_alloc by lia.
  cbn [mbind outcome_bind]. rewrite fill_replicate.
  - f_equal. by apply symbols_baseMap, encodeIndices_range.
  - rewrite length_fmap. pose proof (encodeIndices_length_Z sel). lia.
Qed.

Lemma decodeSelected_encoded (sel : list Z) (off : Z) :
  Forall isByte sel → Z.of_nat (length sel) < 2 ^ 29 →
  decodeSelected this off (byteAt (baseMapSymbol this) <$> encodeIndices sel)
  = Return sel.
Proof.
  intros Hsel Hlen. unfold decodeSelected.
  pose proof (encodeIndices_length_Z sel) as HL. rewrite length_fmap.
  rewrite decode_alloc by (Z.to_euclidean_division_equations; lia).
  cbn [mbind outcome_bind].
  rewrite (decodeValues_encodeIndices _ (byteAt (baseMapSymbol this))); [| | done].
  - cbn [mbind outcome_bind]. rewrite fill_replicate.
    + f_equal. by apply fmap_mod_bytes.
    + rewrite HL. Z.to_euclidean_division_equations; lia.
  - intros off' i Hi. destruct (baseMap_item i Hi) as (c & -> & _ & _ & _ & H & _).
    apply H.
Qed.

(** Decoding the bytes [encode] returns gives the bytes back, for fewer
    than 2^29 bytes. *)
Lemma decode_encode (B : list Z) :
  Forall isByte B → Z.of_nat (length B) < 2 ^ 29 →
  encode this (VUint8Array B) None None
  ≫= (λ encoded, decode this (VUint8Array encoded) None None)
  = Return B.
Proof.
  intros HB Hlen. rewrite encode_slice, slice_all, encodeSelected_valid by done.
  cbn [mbind outcome_bind]. rewrite decode_slice, slice_all.
  by apply decodeSelected_encoded.
Qed.
End ValidInstance.

(** ** Padding *)

Lemma paddingFor_replicate (n : Z) :
  0 ≤ n →
  paddingFor n
  = replicate (Z.to_nat (if n mod 3 =? 0 then 0 else 3 - n mod 3)) PADDING_CHAR.
Proof.
  intros Hn. unfold paddingFor. rewrite Z.rem_mod_nonneg by lia.
  by destruct (n mod 3 =? 0).
Qed.

Lemma paddingOf_data (data : jsstring) (p : nat) :
  Forall (λ c, c ≠ PADDING_CHAR) data → (p ≤ 2)%nat →
  paddingOf (data ++ replicate p PADDING_CHAR) = Z.of_nat p.
Proof.
  intros Hdata Hp. unfold paddingOf. rewrite length_app, length_replicate.
  assert (Hlast : ∀ i, i < Z.of_nat (length data) → item data i ≠ Some PADDING_CHAR).
  { intros i Hi Hc. apply item_elem_of in Hc.
    rewrite Forall_forall in Hdata. by apply (Hdata _ Hc). }
  destruct p as [| [| [| p]]]; [| | | lia].
  - rewrite app_nil_r. rewrite bool_decide_eq_false_2; [done |].
    apply Hlast. lia.
  - rewrite bool_decide_eq_true_2.
    2:{ replace (Z.of_nat (length data + 1) - 1) with (Z.of_nat (length data) + 0)
          by lia. by rewrite item_app_r. }
    rewrite bool_decide_eq_false_2; [done |].
    rewrite item_app_l by lia. apply Hlast. lia.
  - rewrite bool_decide_eq_true_2.
    2:{ replace (Z.of_nat (length data + 2) - 1) with (Z.of_nat (length data) + 1)
          by lia. by rewrite item_app_r. }
    rewrite bool_decide_eq_true_2; [done |].
    replace (Z.of_nat (length data + 2) - 2) with (Z.of_nat (length data) + 0) by lia.
    by rewrite item_app_r.
Qed.

(** [decodeValues] looks every symbol up. *)
Lemma decodeValues_Return (look : Z → Z → outcome Z) (syms : list Z) :
  ∀ off values, decodeValues look off syms = Return values →
  Forall (λ c, ∃ off' i, look off' c = Return i) syms.
Proof.
  induction syms as [syms IH] using (induction_ltof1 _ length).
  unfold ltof in IH. intros off values.
  destruct syms as [| c1 [| c2 [| c3 [| c4 rest]]]]; cbn [decodeValues];
    [done | ..];
    destruct (look off c1) eqn:H1; cbn [mbind outcome_bind]; try done;
    try (destruct (look (off + 1) c2) eqn:H2; cbn [mbind outcome_bind]; try done);
    try (destruct (look (off + 2) c3) eqn:H3; cbn [mbind outcome_bind]; try done);
    try (destruct (look (off + 3) c4) eqn:H4; cbn [mbind outcome_bind]; try done);
    intros Hv; repeat (apply Forall_cons; split; [by eauto |]); try done.
  destruct (decodeValues look (off + 4) rest) eqn:Hrest; try done.
  eapply IH; [| exact Hrest]. cbn [length]. lia.
Qed.

Section ValidInstanceString.
Variable this : Base64.
Hypothesis this_valid : validInstance this.

Lemma baseMapLookup_padding : baseMapLookupSymbol this !! PADDING_CHAR = None.
Proof.
  destruct (baseMapLookupSymbol this !! PADDING_CHAR) as [i |] eqn:H; [| done].
  apply (valid_baseMapLookup _ this_valid) in H as [_ H].
  apply item_elem_of in H.
  by apply (validAlphabet_no_padding _ (valid_alphabet _ this_valid)) in H.
Qed.

(** A selection that holds the padding marker does not decode. *)
Lemma decodeSelected_padding (off : Z) (sel bytes : list Z) :
  PADDING_CHAR ∈ sel → decodeSelected this off sel ≠ Return bytes.
Proof.
  intros Hin Hdec. unfold decodeSelected in Hdec.
  destruct (newUint8Array _ _); cbn [mbind outcome_bind] in Hdec; try done.
  destruct (decodeValues _ off sel) as [values | |] eqn:Hv; try done.
  apply decodeValues_Return in Hv. rewrite Forall_forall in Hv.
  destruct (Hv _ Hin) as (off' & i & Hlook).
  unfold byteLook in Hlook. by rewrite baseMapLookup_padding in Hlook.
Qed.

(** What [encodeToString] returns is the bytes [encode] returns followed
    by the padding. *)
Lemma encodeToStringSelected_valid (sel : list Z) :
  Forall isByte sel →
  encodeToStringSelected this sel
  = (byteAt (baseMapSymbol this) <$> encodeIndices sel)
    ++ paddingFor (Z.of_nat (length sel)).
Proof.
  intros Hsel. unfold encodeToStringSelected. f_equal.
  by apply symbols_baseMap, encodeIndices_range.
Qed.

Lemma decodeFromStringSelected_encoded (sel : list Z) (off : Z) :
  Forall isByte sel → Z.of_nat (length sel) < 2 ^ 29 →
  decodeFromStringSelected this off (encodeToStringSelected this sel)
  = Return sel.
Proof.
  intros Hsel Hlen. rewrite encodeToStringSelected_valid by done.
  rewrite paddingFor_replicate by lia.
  set (data := byteAt (baseMapSymbol this) <$> encodeIndices sel).
  set (p := Z.to_nat _).
  assert (HL : Z.of_nat (length data)
               = (4 * Z.of_nat (length sel) + 2) / 3).
  { unfold data. rewrite length_fmap. apply encodeIndices_length_Z. }
  assert (Hp : Z.of_nat p = if Z.of_nat (length sel) mod 3 =? 0 then 0
                            else 3 - Z.of_nat (length sel) mod 3).
  { unfold p. destruct (Z.eqb_spec (Z.of_nat (length sel) mod 3) 0); [done |].
    Z.to_euclidean_division_equations; lia. }
  assert (Hp2 : (p ≤ 2)%nat).
  { destruct (Z.eqb_spec (Z.of_nat (length sel) mod 3) 0);
      Z.to_euclidean_division_equations; lia. }
  assert (Hdata : Forall (λ c, c ≠ PADDING_CHAR) data).
  { destruct (symbols_baseMap this this_valid (encodeIndices sel))
      as (_ & _ & Hin); [by apply encodeIndices_range |].
    eapply Forall_impl; [exact Hin |]. intros c Hc ->.
    by apply (validAlphabet_no_padding _ (valid_alphabet _ this_valid)) in Hc. }
  unfold decodeFromStringSelected. cbv zeta.
  rewrite paddingOf_data by done. rewrite length_app, length_replicate.
  assert (Hrem : Z.rem (Z.of_nat (length data + p)) 4 = 0).
  { rewrite Z.rem_mod_nonneg by lia. rewrite Nat2Z.inj_add, HL, Hp.
    destruct (Z.eqb_spec (Z.of_nat (length sel) mod 3) 0);
      Z.to_euclidean_division_equations; lia. }
  rewrite Hrem. change (0 =? 0) with true. cbv iota.
  replace (Z.of_nat (length data + p) - Z.of_nat p)
    with (Z.of_nat (length data)) by lia.
  rewrite Nat2Z.id, take_app_length.
  rewrite decode_alloc by (rewrite ?HL; Z.to_euclidean_division_equations; lia).
  cbn [mbind outcome_bind]. unfold data.
  rewrite (decodeValues_encodeIndices _ (byteAt (baseMapSymbol this))); [| | done].
  - cbn [mbind outcome_bind]. rewrite fill_replicate.
    + f_equal. by apply fmap_mod_bytes.
    + fold data. rewrite HL. Z.to_euclidean_division_equations; lia.
  - intros off' i Hi.
    destruct (baseMap_item this this_valid i Hi) as (c & -> & _ & _ & _ & _ & H).
    apply H.
Qed.
End ValidInstanceString.

(** ** Selections of bytes and of ASCII text *)

Lemma slice_Forall {A} (P : A → Prop) (input : list A) start end_ :
  Forall P input → Forall P (slice input start end_).
Proof. intros H. unfold slice. by apply Forall_take, Forall_drop. Qed.

Lemma stringToUint8Array_ascii (string : jsstring) :
  Forall (λ c, 0 ≤ c < 128) string → stringToUint8Array string = string.
Proof.
  induction 1 as [| c string Hc _ IH]; [done |]. cbn [stringToUint8Array].
  unfold isLeadSurrogate, isTrailSurrogate, utf8Bytes.
  destruct (Z.leb_spec 0xD800 c); [lia |]. cbn [andb].
  destruct (Z.leb_spec 0xDC00 c); [lia |]. cbn [andb].
  destruct (Z.ltb_spec c 0x80); [| lia]. cbn [app]. by rewrite IH.
Qed.

Lemma shiftError_fmap {A B} (f : A → B) (off : Z) (r : outcome A) :
  f <$> shiftError off r = shiftError off (f <$> r).
Proof. by destruct r as [? | [[] | [] | []] |]. Qed.

Lemma valid_lookup_elem_of (this : Base64) (c : Z) :
  validInstance this → c ∈ ALPHABET →
  ∃ i, baseMapLookupSymbol this !! c = Some i
       ∧ alphabetLookupSymbol this !! c = Some i.
Proof.
  intros Hv Hc. pose proof (valid_alphabet _ Hv) as Ha. unfold validAlphabet in Ha.
  rewrite <- Ha in Hc. apply elem_of_item in Hc as (i & Hi & Hc).
  rewrite (validAlphabet_length _ (valid_alphabet _ Hv)) in Hi.
  exists i. split.
  - apply (valid_baseMapLookup _ Hv). split; [unfold BASE; lia | done].
  - apply (valid_alphabetLookup _ Hv). split; [unfold BASE; lia | done].
Qed.

(** The allocation of [encode] fails for 2^29 bytes: the shift wraps to a
    negative 32-bit integer. *)
Lemma encodeSelected_2p29 (this : Base64) (sel : list Z) :
  Z.of_nat (length sel) = 2 ^ 29 →
  encodeSelected this sel
  = Throw (RangeError (InvalidTypedArrayLength (-715827882))).
Proof. intros Hlen. unfold encodeSelected. rewrite Hlen. reflexivity. Qed.

(** * The claims *)

(** C1, as stated, fails: [encode] of the one byte 0x41 returns the two
    bytes of "QQ", with no padding marker and a length that is not a
    multiple of 4. *)
Lemma encode_one_byte_not_padded :
  ∃ out, encode base64 (VUint8Array [0x41]) None None = Return out
         ∧ (PADDING_CHAR ∉ out) ∧ Z.of_nat (length out) mod 4 ≠ 0.
Proof.
  exists (lit "QQ"). split; [by vm_compute |]. split.
  - apply (bool_decide_unpack _). by vm_compute.
  - by vm_compute.
Qed.

(** C1 (amended): for a Uint8Array whose selected range has n < 2^29 bytes,
    the buffer-domain [encode] returns, after four symbols for each full
    group of three bytes, 2 data symbols for a remainder of 1 byte, 3 data
    symbols for a remainder of 2 bytes and none for no remainder, all of
    them alphabet symbols and none a padding marker; [encodeToString]
    returns the same symbols followed by 2, 1 or 0 padding markers, which
    makes its length a multiple of 4. *)
Theorem encode_symbols_and_padding (v : value) (this : Base64)
    (input : list Z) (start end_ : option integerOrInfinity) :
  constructor v = Return this →
  Forall isByte input →
  Z.of_nat (length (slice input start end_)) < 2 ^ 29 →
  let n := Z.of_nat (length (slice input start end_)) in
  ∃ out,
    encode this (VUint8Array input) start end_ = Return out
    ∧ encodeToString this (VUint8Array input) start end_
      = Return (out ++ replicate (Z.to_nat (paddingMarkers (n mod 3))) PADDING_CHAR)
    ∧ Forall (λ c, c ∈ alphabetSymbol this) out
    ∧ (PADDING_CHAR ∉ out)
    ∧ Z.of_nat (length out) = 4 * (n / 3) + dataSymbols (n mod 3)
    ∧ (Z.of_nat (length out) + paddingMarkers (n mod 3)) mod 4 = 0.
Proof.
  intros Hthis Hinput Hn n. apply constructor_valid in Hthis.
  pose proof (slice_Forall _ _ start end_ Hinput) as Hsel.
  exists (byteAt (baseMapSymbol this) <$> encodeIndices (slice input start end_)).
  destruct (symbols_baseMap this Hthis (encodeIndices (slice input start end_)))
    as (_ & _ & Hin); [by apply encodeIndices_range |].
  assert (HL : Z.of_nat (length (byteAt (baseMapSymbol this)
                                   <$> encodeIndices (slice input start end_)))
               = 4 * (n / 3) + dataSymbols (n mod 3)).
  { rewrite length_fmap, encodeIndices_length_Z. fold n. unfold dataSymbols.
    destruct (Z.eqb_spec (n mod 3) 0); Z.to_euclidean_division_equations; lia. }
  split_and!.
  - rewrite encode_slice. by apply encodeSelected_valid.
  - unfold encodeToString. rewrite encodeToStringSymbol_slice.
    rewrite encodeToStringSelected_valid, paddingFor_replicate by (done || lia).
    done.
  - done.
  - intros Hp. rewrite Forall_forall in Hin.
    by apply (validAlphabet_no_padding _ (valid_alphabet _ Hthis)), Hin.
  - done.
  - rewrite HL. unfold dataSymbols, paddingMarkers.
    destruct (Z.eqb_spec (n mod 3) 0); Z.to_euclidean_division_equations; lia.
Qed.

Lemma encode_symbols_and_padding_witness :
  constructor VUndefined = Return base64
  ∧ Forall isByte [0x41; 0x76; 0x65; 0x2c; 0x20]
  ∧ Z.of_nat (length (slice [0x41; 0x76; 0x65; 0x2c; 0x20] (Some (Int 1)) None)) < 2 ^ 29
  ∧ ∃ out,
      encode base64 (VUint8Array [0x41; 0x76; 0x65; 0x2c; 0x20]) (Some (Int 1)) None
      = Return out
      ∧ encodeToString base64 (VUint8Array [0x41; 0x76; 0x65; 0x2c; 0x20])
          (Some (Int 1)) None
        = Return (out ++ replicate (Z.to_nat (paddingMarkers (4 mod 3))) PADDING_CHAR)
      ∧ Forall (λ c, c ∈ alphabetSymbol base64) out
      ∧ (PADDING_CHAR ∉ out)
      ∧ Z.of_nat (length out) = 4 * (4 / 3) + dataSymbols (4 mod 3)
      ∧ (Z.of_nat (length out) + paddingMarkers (4 mod 3)) mod 4 = 0.
Proof.
  assert (Hb : Forall isByte [0x41; 0x76; 0x65; 0x2c; 0x20])
    by (repeat constructor; unfold isByte; lia).
  split; [reflexivity |]. split; [exact Hb |]. split; [by vm_compute |].
  apply (encode_symbols_and_padding VUndefined base64
           [0x41; 0x76; 0x65; 0x2c; 0x20] (Some (Int 1)) None);
    [reflexivity | exact Hb | by vm_compute].
Defined.

(** C2, as stated, fails: the buffer-domain [decode] of the bytes of
    "QQ==" throws at the first padding marker instead of returning the
    byte 0x41. *)
Lemma decode_padded_bytes_throws :
  decode base64 (VUint8Array (lit "QQ==")) None None
  = Throw (SyntaxError (InvalidByte (Some PADDING_CHAR) 2))
  ∧ decode base64 (VUint8Array (lit "QQ==")) None None ≠ Return [0x41].
Proof. split; by vm_compute. Qed.

(** C2 (amended): the buffer-domain [decode] counts no padding: a selected
    range that holds the padding marker never decodes, and the bytes of
    "QQ==" raise the error of an invalid byte at index 2.  It is the
    string-domain [decodeFromString] that counts the padding markers among
    the last 2 selected positions when the selected length is a multiple of
    4, so that it decodes what [encodeToString] returns, padded or not, to
    the original bytes (fewer than 2^29 of them), "QQ==" to the byte 0x41
    on the default instance. *)
Theorem padding_counted_in_string_domain_only (v : value) (this : Base64) :
  constructor v = Return this →
  (∀ input start end_ bytes,
     PADDING_CHAR ∈ slice input start end_ →
     decode this (VUint8Array input) start end_ ≠ Return bytes)
  ∧ decode this (VUint8Array (lit "QQ==")) None None
    = Throw (SyntaxError (InvalidByte (Some PADDING_CHAR) 2))
  ∧ (∀ string start end_,
       decodeFromString this (VString string) start end_
       = decodeFromStringSelected this
           (startIndexOf (Z.of_nat (length string)) start)
           (slice string start end_))
  ∧ (∀ B, Forall isByte B → Z.of_nat (length B) < 2 ^ 29 →
       encodeToString this (VUint8Array B) None None
       ≫= (λ s, decodeFromString this (VString s) None None)
       = Return B)
  ∧ decodeFromString base64 (VString (lit "QQ==")) None None = Return [0x41].
Proof.
  intros Hthis. apply constructor_valid in Hthis. split_and!.
  - intros input start end_ bytes Hin. rewrite decode_slice.
    by apply decodeSelected_padding.
  - rewrite decode_slice, slice_all. unfold decodeSelected.
    change (newUint8Array _ _) with (Return [0; 0; 0]).
    cbn [mbind outcome_bind].
    destruct (valid_lookup_elem_of this 81 Hthis) as (i & Hi & _).
    { apply (bool_decide_unpack _). by vm_compute. }
    change (lit "QQ==") with [81; 81; 61; 61].
    cbn [decodeValues]. unfold byteLook.
    rewrite Hi. cbn [mbind outcome_bind].
    change 61 with PADDING_CHAR. by rewrite (baseMapLookup_padding this Hthis).
  - intros string start end_. apply decodeFromStringSymbol_slice.
  - intros B HB Hlen. unfold encodeToString, decodeFromString.
    rewrite encodeToStringSymbol_slice, slice_all. cbn [mbind outcome_bind].
    rewrite decodeFromStringSymbol_slice, slice_all.
    by apply decodeFromStringSelected_encoded.
  - by vm_compute.
Qed.

Lemma padding_counted_in_string_domain_only_witness :
  constructor VUndefined = Return base64
  ∧ decode base64 (VUint8Array (lit "QQ==")) None None
    = Throw (SyntaxError (InvalidByte (Some PADDING_CHAR) 2)).
Proof.
  split; [reflexivity |].
  exact (proj1 (proj2 (padding_counted_in_string_domain_only VUndefined base64
                         eq_refl))).
Defined.

(** C3: [decode(encode(B))] is not [B] for every length: for the 2^29
    zero bytes [encode] computes the size of its result with a 32-bit shift
    that wraps, and [new Uint8Array] throws. *)
Theorem encode_2p29_bytes_throws :
  encode base64 (VUint8Array (replicate (Z.to_nat (2 ^ 29)) 0)) None None
  ≫= (λ encoded, decode base64 (VUint8Array encoded) None None)
  = Throw (RangeError (InvalidTypedArrayLength (-715827882))).
Proof.
  rewrite encode_slice, slice_all, encodeSelected_2p29; [done |].
  rewrite length_replicate, Z2Nat.id; [done | by apply Z.pow_nonneg].
Qed.

(** For 2^30 bytes the wrapped size is 0: [encode] returns an empty array,
    every store being out of range. *)
Example encode_2p30_bytes_empty :
  encode base64 (VUint8Array (replicate (Z.to_nat (2 ^ 30)) 0)) None None
  = Return [].
Proof.
  rewrite encode_slice, slice_all. unfold encodeSelected.
  rewrite length_replicate, Z2Nat.id by (by apply Z.pow_nonneg).
  change (newUint8Array (bor (shl (2 ^ 30) 2) 2) 3) with (Return (@nil Z)).
  cbn [mbind outcome_bind]. by rewrite fill_nil.
Qed.

(** Below 2^29 bytes the round trip holds, on every constructed
    instance. *)
Lemma decode_encode_constructed (v : value) (this : Base64) (B : list Z) :
  constructor v = Return this →
  Forall isByte B → Z.of_nat (length B) < 2 ^ 29 →
  encode this (VUint8Array B) None None
  ≫= (λ encoded, decode this (VUint8Array encoded) None None)
  = Return B.
Proof. intros Hthis. apply decode_encode. by eapply constructor_valid. Qed.

(** C4: [decodeInt(encodeInt(N))] is [N] for every safe integer [N], on
    every constructed instance. *)
Theorem decodeInt_encodeInt (v : value) (this : Base64) (N : Z) :
  constructor v = Return this →
  NumberMIN_SAFE_INTEGER ≤ N ≤ NumberMAX_SAFE_INTEGER →
  encodeInt this (Int N) ≫= decodeInt this = Return (Int N).
Proof.
  intros Hthis HN. apply constructor_valid in Hthis.
  rewrite encodeInt_safe by done.
  destruct (encodeBigInt_digits this Hthis N) as (s & -> & Hs & Hneg & Hv).
  cbn [mbind outcome_bind].
  rewrite (decodeInt_digits this Hthis (N <? 0) s (Z.abs N)); try done.
  - do 2 f_equal. destruct (Z.ltb_spec N 0); lia.
  - unfold NumberMIN_SAFE_INTEGER, NumberMAX_SAFE_INTEGER in HN. lia.
Qed.

Lemma decodeInt_encodeInt_witness :
  constructor VUndefined = Return base64
  ∧ NumberMIN_SAFE_INTEGER ≤ -9007199254740991 ≤ NumberMAX_SAFE_INTEGER
  ∧ encodeInt base64 (Int (-9007199254740991)) ≫= decodeInt base64
    = Return (Int (-9007199254740991)).
Proof.
  assert (H : NumberMIN_SAFE_INTEGER ≤ -9007199254740991 ≤ NumberMAX_SAFE_INTEGER)
    by (by vm_compute).
  split; [reflexivity |]. split; [exact H |].
  exact (decodeInt_encodeInt VUndefined base64 (-9007199254740991) eq_refl H).
Defined.

(** C5: [decodeBigInt(encodeBigInt(N))] is [N] for every integer [N], on
    every constructed instance. *)
Theorem decodeBigInt_encodeBigInt (v : value) (this : Base64) (N : Z) :
  constructor v = Return this →
  encodeBigInt this N ≫= decodeBigInt this = Return N.
Proof.
  intros Hthis. apply constructor_valid in Hthis.
  destruct (encodeBigInt_digits this Hthis N) as (s & -> & Hs & Hneg & Hv).
  cbn [mbind outcome_bind].
  rewrite (decodeBigInt_digits this (N <? 0) s), Hv by done.
  cbn [mbind outcome_bind]. f_equal. destruct (Z.ltb_spec N 0); lia.
Qed.

Lemma decodeBigInt_encodeBigInt_witness :
  constructor VUndefined = Return base64
  ∧ encodeBigInt base64 (- 2 ^ 70) ≫= decodeBigInt base64 = Return (- 2 ^ 70).
Proof.
  split; [reflexivity |].
  exact (decodeBigInt_encodeBigInt VUndefined base64 (- 2 ^ 70) eq_refl).
Defined.

(** C6: [encodeInt] throws a RangeError exactly when its coerced argument
    is outside the safe integers, and returns otherwise; [encodeBigInt]
    returns for every integer, so it throws no RangeError. *)
Theorem encodeInt_RangeError_iff (this : Base64) (number : integerOrInfinity) :
  ((∃ m, encodeInt this number = Throw (RangeError m)) ↔ ¬ inSafeRange number)
  ∧ ((∃ s, encodeInt this number = Return s) ↔ inSafeRange number)
  ∧ ∀ N : Z, ∃ s, encodeBigInt this N = Return s.
Proof.
  split_and!; [| | apply encodeBigInt_Return].
  - destruct number as [z | |]; cbn [inSafeRange]; [| by split; eauto ..].
    split.
    + intros [m Hm] Hz. destruct (encodeInt_Return this z Hz) as [s Hs]. congruence.
    + intros Hz. unfold encodeInt.
      destruct (Z.ltb_spec z NumberMIN_SAFE_INTEGER); [by eauto |].
      destruct (Z.ltb_spec NumberMAX_SAFE_INTEGER z); [by eauto | lia].
  - destruct number as [z | |]; cbn [inSafeRange];
      [| by split; [intros [? ?] |] ..].
    split; [| apply encodeInt_Return].
    intros [s Hs]. unfold encodeInt in Hs.
    destruct (Z.ltb_spec z NumberMIN_SAFE_INTEGER); [done |].
    destruct (Z.ltb_spec NumberMAX_SAFE_INTEGER z); [done | lia].
Qed.

(** C7, as stated, fails: [decodeInt("-")] does not return 0. *)
Lemma decodeInt_bare_sign_not_zero : decodeInt base64 (lit "-") ≠ Return (Int 0).
Proof. by vm_compute. Qed.

(** C7 (amended): on every constructed instance [decodeInt("-")] throws
    the SyntaxError of an invalid character, the sign marker at index 0. *)
Theorem decodeInt_bare_sign_throws (v : value) (this : Base64) :
  constructor v = Return this →
  decodeInt this (lit "-")
  = Throw (SyntaxError (InvalidCharacter (Some NEGATIVE_CHAR) 0)).
Proof.
  intros Hthis. apply constructor_valid in Hthis.
  unfold decodeInt. change (lit "-") with [NEGATIVE_CHAR].
  cbn [length]. rewrite item_cons_0, bool_decide_eq_true_2 by done.
  change (1 <? Z.of_nat 1) with false. cbn [andb].
  change (seqZ 0 (Z.of_nat 1 - 0)) with [0]. cbn [decodeInt_for].
  rewrite item_cons_0. cbn [getProp mbind option_bind].
  by rewrite (alphabetLookup_negative this Hthis).
Qed.

Lemma decodeInt_bare_sign_throws_witness :
  constructor VUndefined = Return base64
  ∧ decodeInt base64 (lit "-")
    = Throw (SyntaxError (InvalidCharacter (Some NEGATIVE_CHAR) 0)).
Proof.
  split; [reflexivity |].
  exact (decodeInt_bare_sign_throws VUndefined base64 eq_refl).
Defined.

(** C8, as stated, fails for [encodeText]: of "é" with the range 0 to 1 it
    encodes the first UTF-8 byte, which is not what it returns for the first
    character, the string the range selects. *)
Lemma encodeText_range_selects_bytes :
  encodeText base64 [233] (Some (Int 0)) (Some (Int 1)) = Return (lit "ww==")
  ∧ encodeText base64 (slice [233] (Some (Int 0)) (Some (Int 1))) None None
    = Return (lit "w6k=")
  ∧ encodeText base64 [233] (Some (Int 0)) (Some (Int 1))
    ≠ encodeText base64 (slice [233] (Some (Int 0)) (Some (Int 1))) None None.
Proof. split_and!; by vm_compute. Qed.

(** C8 (amended): [encode] and [encodeToString] with a range return what
    they return, with no range, for the selected elements; so do [decode],
    [decodeFromString] and [decodeText], except that the error of an invalid
    symbol reports its position in the whole input; an empty selection gives
    the empty output.  The range of [encodeText] selects among the UTF-8
    bytes of the text, which are its characters when the text is ASCII. *)
Theorem range_selects_slice (uint8ArrayToString : list Z → jsstring)
    (this : Base64) (input : list Z) (string : jsstring)
    (start end_ : option integerOrInfinity) :
  encode this (VUint8Array input) start end_
  = encode this (VUint8Array (slice input start end_)) None None
  ∧ encodeToString this (VUint8Array input) start end_
    = encodeToString this (VUint8Array (slice input start end_)) None None
  ∧ decode this (VUint8Array input) start end_
    = shiftError (startIndexOf (Z.of_nat (length input)) start)
        (decode this (VUint8Array (slice input start end_)) None None)
  ∧ decodeFromString this (VString string) start end_
    = shiftError (startIndexOf (Z.of_nat (length string)) start)
        (decodeFromString this (VString (slice string start end_)) None None)
  ∧ decodeText uint8ArrayToString this string start end_
    = shiftError (startIndexOf (Z.of_nat (length string)) start)
        (decodeText uint8ArrayToString this (slice string start end_) None None)
  ∧ encodeText this string start end_
    = encodeToString this
        (VUint8Array (slice (stringToUint8Array string) start end_)) None None
  ∧ (Forall (λ c, 0 ≤ c < 128) string →
     encodeText this string start end_
     = encodeText this (slice string start end_) None None)
  ∧ (slice input start end_ = [] →
     encode this (VUint8Array input) start end_ = Return []
     ∧ encodeToString this (VUint8Array input) start end_ = Return []
     ∧ decode this (VUint8Array input) start end_ = Return [])
  ∧ (slice string start end_ = [] →
     decodeFromString this (VString string) start end_ = Return []
     ∧ decodeText uint8ArrayToString this string start end_
       = Return (uint8ArrayToString [])).
Proof.
  split_and!.
  - by rewrite !encode_slice, slice_all.
  - unfold encodeToString. by rewrite !encodeToStringSymbol_slice, slice_all.
  - rewrite !decode_slice, slice_all. apply decodeSelected_shift.
  - unfold decodeFromString. rewrite !decodeFromStringSymbol_slice, slice_all.
    apply decodeFromStringSelected_shift.
  - unfold decodeText. rewrite !decodeFromStringSymbol_slice, slice_all.
    rewrite <- shiftError_fmap. f_equal. apply decodeFromStringSelected_shift.
  - unfold encodeText, encodeToString.
    by rewrite !encodeToStringSymbol_slice, slice_all.
  - intros Hascii. unfold encodeText.
    rewrite !stringToUint8Array_ascii by (done || by apply slice_Forall).
    by rewrite !encodeToStringSymbol_slice, slice_all.
  - intros Hnil. unfold encodeToString.
    rewrite encode_slice, encodeToStringSymbol_slice, decode_slice, Hnil.
    split_and!; reflexivity.
  - intros Hnil. unfold decodeFromString, decodeText.
    rewrite decodeFromStringSymbol_slice, Hnil. split; reflexivity.
Qed.

(** The position an error of [decode] reports is not the position in the
    selected bytes. *)
Example decode_range_error_position :
  decode base64 (VUint8Array (lit "AA=A")) (Some (Int 1)) None
  = Throw (SyntaxError (InvalidByte (Some PADDING_CHAR) 2))
  ∧ decode base64 (VUint8Array (slice (lit "AA=A") (Some (Int 1)) None)) None None
    = Throw (SyntaxError (InvalidByte (Some PADDING_CHAR) 1)).
Proof. split; by vm_compute. Qed.

(** C9: the vectors of the default instance. *)
Theorem default_instance_vectors :
  encode base64
    (VUint8Array [0x00; 0x02; 0x04; 0x08; 0x0f; 0x1f; 0x3f; 0x7f; 0xff]) None None
  = Return (lit "AAIECA8fP3//")
  ∧ encodeToString base64
      (VUint8Array [0x00; 0x02; 0x04; 0x08; 0x0f; 0x1f; 0x3f; 0x7f; 0xff]) None None
    = Return (lit "AAIECA8fP3//")
  ∧ encodeText base64 (lit "Ave, Darkwolf!") None None
    = Return (lit "QXZlLCBEYXJrd29sZiE=")
  ∧ encodeInt base64 (Int 9007199254740991) = Return (lit "f////////")
  ∧ decodeInt base64 (lit "f////////") = Return (Int 9007199254740991).
Proof. split_and!; by vm_compute. Qed.

(** C10: the constructor and [isAlphabet] accept a string of 64 characters
    only if it is a permutation of [ALPHABET]; for 64 distinct characters
    of which one is not in [ALPHABET] the constructor throws the SyntaxError
    of an invalid character and [isAlphabet] returns false. *)
Theorem alphabet_must_permute_standard (s : jsstring) :
  length s = 64%nat →
  ((∃ this, constructor (VString s) = Return this) → s ≡ₚ ALPHABET)
  ∧ (isAlphabet (VString s) = true → s ≡ₚ ALPHABET)
  ∧ (NoDup s → (∃ c, c ∈ s ∧ c ∉ ALPHABET) →
     (∃ c i, item s i = Some c ∧ (c ∉ ALPHABET)
             ∧ constructor (VString s)
               = Throw (SyntaxError (InvalidAlphabetCharacter (Some c) i)))
     ∧ isAlphabet (VString s) = false).
Proof.
  intros Hlen. pose proof (toAlphabet_String s Hlen) as Hto.
  assert (His : isAlphabet (VString s)
                = match toAlphabet (VString s) with Return _ => true | _ => false end).
  { unfold isAlphabet, toAlphabet. rewrite Hlen.
    change (negb (Z.of_nat 64 =? BASE)) with false. cbv iota.
    rewrite isAlphabet_for_toAlphabet_for.
    by destruct (toAlphabet_for _ _ _ _) as [[] | |]. }
  split_and!.
  - intros [this Hthis]. unfold constructor in Hthis.
    destruct (toAlphabet (VString s)) as [a | |]; [| done ..].
    by destruct Hto as [_ ?].
  - rewrite His. destruct (toAlphabet (VString s)) as [a | |]; [| done ..].
    by destruct Hto as [_ ?].
  - intros Hnd (c & Hc & Hout). rewrite His. unfold constructor.
    destruct (toAlphabet (VString s)) as [a | [m | m | m] |]; try done.
    + destruct Hto as [_ Hperm]. unfold validAlphabet in Hperm.
      by rewrite Hperm in Hc.
    + destruct m as [| [c' |] i | [c' |] i | | |]; try done.
      destruct Hto as [Hi Hc']. split; [| done]. by exists c', i.
Qed.

Lemma alphabet_must_permute_standard_witness :
  length urlSafeAlphabet = 64%nat
  ∧ isAlphabet (VString urlSafeAlphabet) = false
  ∧ ∃ c i, item urlSafeAlphabet i = Some c ∧ (c ∉ ALPHABET)
           ∧ constructor (VString urlSafeAlphabet)
             = Throw (SyntaxError (InvalidAlphabetCharacter (Some c) i)).
Proof.
  split; [reflexivity |].
  destruct (alphabet_must_permute_standard urlSafeAlphabet eq_refl)
    as (_ & _ & H).
  destruct H as [H1 H2].
  - apply (bool_decide_unpack _). by vm_compute.
  - exists 45. split; apply (bool_decide_unpack _); by vm_compute.
  - split; [exact H2 | exact H1].
Defined.

(** * Further properties *)

Lemma readmeAlphabet_valid : validAlphabet readmeAlphabet.
Proof.
  unfold validAlphabet. apply NoDup_Permutation.
  - apply (bool_decide_unpack _). by vm_compute.
  - apply ALPHABET_NoDup.
  - intros x. split; revert x; apply Forall_forall;
      apply (bool_decide_unpack _); by vm_compute.
Defined.

Lemma constructor_readmeAlphabet :
  constructor (VString readmeAlphabet) = Return (instanceOf readmeAlphabet).
Proof. apply constructor_String, readmeAlphabet_valid. Defined.

(** ** The alphabet table *)

Lemma constructor_instanceOf (v : value) (this : Base64) :
  constructor v = Return this →
  ∃ alphabet, this = instanceOf alphabet ∧ validAlphabet alphabet
              ∧ (v = VUndefined ∧ alphabet = ALPHABET ∨ v = VString alphabet).
Proof.
  unfold constructor. destruct (toAlphabet v) as [a | e |] eqn:Ha; try done.
  cbn. intros [= <-]. exists a. split_and!; [done | by eapply toAlphabet_Return |].
  destruct v as [| s | |]; try done.
  - left. split; [done |]. by injection Ha as <-.
  - right. f_equal. destruct (decide (length s = 64%nat)) as [Hlen | Hlen].
    + pose proof (toAlphabet_String s Hlen) as H'. rewrite Ha in H'.
      by destruct H' as [-> _].
    + unfold toAlphabet in Ha.
      destruct (Z.eqb_spec (Z.of_nat (length s)) BASE) as [He | He];
        [unfold BASE in He; lia | done].
Qed.

Lemma instanceOf_baseMap_length (alphabet : jsstring) :
  validAlphabet alphabet → length (baseMapSymbol (instanceOf alphabet)) = 64%nat.
Proof.
  intros Hv.
  destruct (lookupsAfter_spec alphabet (validAlphabet_NoDup _ Hv) (Z.to_nat BASE))
    as (_ & _ & H3 & _).
  { rewrite (validAlphabet_length _ Hv). unfold BASE. lia. }
  unfold instanceOf. rewrite createAlphabetLookups_after.
  cbn [baseMapSymbol]. by rewrite H3.
Qed.

(** X1: the tables of a constructed instance are the alphabet and its
    inverse: 64 characters, the same 64 character codes in the base map, and
    two lookups that map a character to an index exactly when the alphabet
    has that character at that index. *)
Theorem constructor_tables_inverse (v : value) (this : Base64) :
  constructor v = Return this →
  length (alphabetSymbol this) = 64%nat
  ∧ baseMapSymbol this = alphabetSymbol this
  ∧ NoDup (alphabetSymbol this)
  ∧ ∀ c i,
      (alphabetLookupSymbol this !! c = Some i
       ↔ item (alphabetSymbol this) i = Some c)
      ∧ (baseMapLookupSymbol this !! c = Some i
         ↔ item (baseMapSymbol this) i = Some c).
Proof.
  intros Hthis. destruct (constructor_instanceOf _ _ Hthis) as (a & -> & Ha & _).
  pose proof (instanceOf_valid a Ha) as [Hv H1 H2 H3].
  pose proof (validAlphabet_length _ Hv) as Hlen.
  pose proof (instanceOf_baseMap_length a Ha) as Hblen.
  assert (Hbm : baseMapSymbol (instanceOf a) = alphabetSymbol (instanceOf a)).
  { apply list_eq. intros n.
    destruct (decide (n < 64)%nat) as [Hn | Hn].
    - destruct (item_lt_length (alphabetSymbol (instanceOf a)) (Z.of_nat n))
        as [c Hc]; [lia |].
      pose proof (H3 c (Z.of_nat n) ltac:(unfold BASE; lia) Hc) as Hb.
      rewrite item_lookup in Hb, Hc. by rewrite Hb, Hc.
    - rewrite !lookup_ge_None_2 by lia. done. }
  assert (Hrange : ∀ c i, item (alphabetSymbol (instanceOf a)) i = Some c
                          → 0 ≤ i < BASE).
  { intros c i [Hi Hc]%item_Some. apply lookup_lt_Some in Hc. unfold BASE. lia. }
  split_and!; [done | done | by apply validAlphabet_NoDup |].
  intros c i. rewrite Hbm, H1, H2. split; split; try tauto.
  all: intros Hc; split; [by eapply Hrange | done].
Qed.

Lemma constructor_tables_inverse_witness :
  constructor VUndefined = Return base64
  ∧ baseMapSymbol base64 = alphabetSymbol base64.
Proof.
  split; [reflexivity |].
  exact (proj1 (proj2 (constructor_tables_inverse VUndefined base64 eq_refl))).
Defined.

Lemma isAlphabet_String (s : jsstring) :
  isAlphabet (VString s) = true ↔ validAlphabet s.
Proof.
  destruct (decide (length s = 64%nat)) as [Hlen | Hlen].
  - pose proof (toAlphabet_String s Hlen) as Hto.
    assert (His : isAlphabet (VString s)
                  = match toAlphabet (VString s) with
                    | Return _ => true | _ => false end).
    { unfold isAlphabet, toAlphabet. rewrite Hlen.
      change (negb (Z.of_nat 64 =? BASE)) with false. cbv iota.
      rewrite isAlphabet_for_toAlphabet_for.
      by destruct (toAlphabet_for _ _ _ _) as [[] | |]. }
    rewrite His. split.
    + destruct (toAlphabet (VString s)) as [a | |]; [| done ..].
      by destruct Hto as [_ ?].
    + intros Hv. by rewrite (toAlphabet_valid s Hv).
  - split.
    + unfold isAlphabet.
      destruct (Z.eqb_spec (Z.of_nat (length s)) BASE) as [He | He];
        [unfold BASE in He; lia | done].
    + intros Hv. by apply validAlphabet_length in Hv.
Qed.

(** X2: [isAlphabet] returns true exactly for the strings that are
    permutations of [ALPHABET], and the constructor returns an instance
    exactly for those strings and for [undefined]; the instance has the
    given string as its alphabet. *)
Theorem isAlphabet_iff_constructor (v : value) :
  (isAlphabet v = true ↔ ∃ s, v = VString s ∧ s ≡ₚ ALPHABET)
  ∧ ((∃ this, constructor v = Return this)
     ↔ v = VUndefined ∨ isAlphabet v = true)
  ∧ ∀ s this, constructor (VString s) = Return this → alphabetSymbol this = s.
Proof.
  split_and!.
  - destruct v as [| s | |]; try (split; [done | by intros (s & ? & _)]).
    rewrite isAlphabet_String. split; [by exists s |].
    by intros (s' & [= <-] & ?).
  - split.
    + intros [this Hthis].
      destruct (constructor_instanceOf _ _ Hthis) as (a & _ & Ha & [[-> _] | ->]);
        [by left | right]. by apply isAlphabet_String.
    + intros [-> | Hv]; [by eexists |].
      destruct v as [| s | |]; try done.
      apply isAlphabet_String in Hv. exists (instanceOf s).
      by apply constructor_String.
  - intros s this Hthis.
    destruct (constructor_instanceOf _ _ Hthis) as (a & -> & _ & [[? _] | [= <-]]);
      done.
Qed.

(** The loop of [toAlphabet] stops at the first character that is no
    symbol or that it has seen. *)
Lemma toAlphabet_for_first (lk : gmap Z Z) (c : Z) (rest : jsstring)
    (good : jsstring) :
  ∀ (pre : jsstring) (u : gmap Z Z),
  Forall (λ x, is_Some (lk !! x)) good → NoDup good →
  Forall (λ x, u !! x = None) good →
  lk !! c = None ∨ c ∈ good ∨ is_Some (u !! c) →
  toAlphabet_for
    (seqZ (Z.of_nat (length pre)) (Z.of_nat (length (good ++ c :: rest))))
    (pre ++ good ++ c :: rest) lk u
  = Throw (SyntaxError
             (if bool_decide (lk !! c = None)
              then InvalidAlphabetCharacter (Some c)
                     (Z.of_nat (length pre) + Z.of_nat (length good))
              else AlreadyInAlphabet (Some c)
                     (Z.of_nat (length pre) + Z.of_nat (length good)))).
Proof.
  induction good as [| g good IH]; intros pre u Hlk Hnd Hu Hc.
  - rewrite seqZ_cons by (cbn [app length]; lia).
    cbn [app toAlphabet_for length]. rewrite item_app_r0, item_cons_0, Z.add_0_r.
    cbn [getProp mbind option_bind from_option].
    case_bool_decide as Hlkc; [done |].
    destruct Hc as [? | [Hin | [j Hj]]]; [done | by apply elem_of_nil in Hin |].
    rewrite Hj. by rewrite bool_decide_eq_false_2.
  - apply Forall_cons in Hlk as [[j Hg] Hlk]. apply NoDup_cons in Hnd as [Hnin Hnd].
    apply Forall_cons in Hu as [Hug Hu].
    rewrite seqZ_cons by (cbn [app length]; lia).
    cbn [app toAlphabet_for]. rewrite item_app_r0, item_cons_0.
    cbn [getProp mbind option_bind from_option]. rewrite Hg, Hug.
    rewrite bool_decide_eq_false_2 by done.
    rewrite bool_decide_eq_true_2 by done. cbn [negb].
    specialize (IH (pre ++ [g]) (setProp u g (Z.of_nat (length pre))) Hlk Hnd).
    rewrite length_app, <- !app_assoc in IH. cbn [length app] in IH.
    replace (Z.succ (Z.of_nat (length pre)))
      with (Z.of_nat (length pre + 1)) by lia.
    replace (Z.pred (Z.of_nat (length (g :: good ++ c :: rest))))
      with (Z.of_nat (length (good ++ c :: rest))) by (cbn [length]; lia).
    rewrite IH.
    + cbn [length].
      by replace (Z.of_nat (length pre + 1) + Z.of_nat (length good))
        with (Z.of_nat (length pre) + Z.of_nat (S (length good))) by lia.
    + rewrite Forall_forall in Hu |- *. intros x Hx. unfold setProp.
      apply lookup_insert_None. split; [by apply Hu |]. by intros ->.
    + destruct Hc as [? | [Hin | [k Hk]]]; [by left | |].
      * apply elem_of_cons in Hin as [-> | Hin]; [| by right; left].
        right; right. unfold setProp. rewrite lookup_insert_eq. by eexists.
      * right; right. unfold setProp.
        destruct (decide (g = c)) as [-> | Hne];
          [rewrite lookup_insert_eq | rewrite lookup_insert_ne by done];
          by eexists.
Qed.

(** X3: the constructor reports the first character of a 64-character
    string that is outside [ALPHABET] or that occurred before it, with its
    index: as an invalid character when it is outside [ALPHABET], as already
    in the alphabet otherwise; [isAlphabet] returns false. *)
Theorem constructor_first_offence (good : jsstring) (c : Z) (rest : jsstring) :
  length (good ++ c :: rest) = 64%nat →
  Forall (λ x, x ∈ ALPHABET) good → NoDup good →
  c ∉ ALPHABET ∨ c ∈ good →
  constructor (VString (good ++ c :: rest))
  = Throw (SyntaxError
             (if bool_decide (c ∈ ALPHABET)
              then AlreadyInAlphabet (Some c) (Z.of_nat (length good))
              else InvalidAlphabetCharacter (Some c) (Z.of_nat (length good))))
  ∧ isAlphabet (VString (good ++ c :: rest)) = false.
Proof.
  intros Hlen Hgood Hnd Hc.
  assert (Hto : toAlphabet_for (seqZ 0 BASE) (good ++ c :: rest)
                  (alphabetLookupSymbol base64) ∅
                = Throw (SyntaxError
                    (if bool_decide (c ∈ ALPHABET)
                     then AlreadyInAlphabet (Some c) (Z.of_nat (length good))
                     else InvalidAlphabetCharacter (Some c)
                            (Z.of_nat (length good))))).
  { pose proof (toAlphabet_for_first (alphabetLookupSymbol base64) c rest good
                  [] ∅) as H.
    rewrite Hlen in H. cbn [app length] in H.
    change (Z.of_nat 0) with 0 in H. change (Z.of_nat 64) with BASE in H.
    rewrite H.
    - rewrite Z.add_0_l. do 2 f_equal.
      case_bool_decide as H1; case_bool_decide as H2; try done.
      + apply defaultLookup_elem_of in H2 as [? ?]. congruence.
      + destruct H2. apply defaultLookup_elem_of.
        by destruct (alphabetLookupSymbol base64 !! c).
    - eapply Forall_impl; [exact Hgood |]. intros x. apply defaultLookup_elem_of.
    - done.
    - apply Forall_forall. intros x _. apply lookup_empty.
    - destruct Hc as [Hc | Hc]; [left | by right; left].
      destruct (alphabetLookupSymbol base64 !! c) eqn:E; [| done].
      destruct Hc. apply defaultLookup_elem_of. by eexists. }
  split.
  - unfold constructor, toAlphabet. rewrite Hlen.
    change (negb (Z.of_nat 64 =? BASE)) with false. cbv iota. by rewrite Hto.
  - unfold isAlphabet. rewrite Hlen.
    change (negb (Z.of_nat 64 =? BASE)) with false. cbv iota.
    by rewrite isAlphabet_for_toAlphabet_for, Hto.
Qed.

Lemma constructor_first_offence_witness :
  constructor
    (VString (lit "ABCDE" ++ 65
              :: lit "GHIJKLMNOPQRSTUVWXYZabcdefghijklmnopqrstuvwxyz0123456789+/"))
  = Throw (SyntaxError (AlreadyInAlphabet (Some 65) 5)).
Proof.
  refine (proj1 (constructor_first_offence (lit "ABCDE") 65
    (lit "GHIJKLMNOPQRSTUVWXYZabcdefghijklmnopqrstuvwxyz0123456789+/")
    eq_refl _ _ _)).
  - apply (bool_decide_unpack _). by vm_compute.
  - apply (bool_decide_unpack _). by vm_compute.
  - right. apply (bool_decide_unpack _). by vm_compute.
Defined.

(** ** Validation of an encoded string *)

Lemma paddingCount_while_whole (s : jsstring) :
  paddingCount_while 2 s (Z.of_nat (length s)) (Z.of_nat (length s) - 1) 0
  = Return (paddingOf s).
Proof.
  pose proof (paddingCount_while_segment [] s []) as H.
  rewrite app_nil_r in H. cbn [app length] in H.
  by replace (Z.of_nat 0 + Z.of_nat (length s) - 1)
    with (Z.of_nat (length s) - 1) in H by lia.
Qed.

Lemma isBase64String_for_Forall (lk : gmap Z Z) (post l : jsstring) :
  ∀ pre,
  isBase64String_for (seqZ (Z.of_nat (length pre)) (Z.of_nat (length l)))
    (pre ++ l ++ post) lk
  = bool_decide (Forall (λ c, is_Some (lk !! c)) l).
Proof.
  induction l as [| c l IH]; intros pre.
  - by rewrite bool_decide_eq_true_2 by constructor.
  - rewrite seqZ_cons by (cbn [length]; lia).
    cbn [isBase64String_for app]. rewrite item_app_r0, item_cons_0.
    cbn [getProp mbind option_bind].
    specialize (IH (pre ++ [c])).
    rewrite length_app, <- app_assoc in IH. cbn [length app] in IH.
    replace (Z.succ (Z.of_nat (length pre))) with (Z.of_nat (length pre + 1)) by lia.
    replace (Z.pred (Z.of_nat (length (c :: l)))) with (Z.of_nat (length l))
      by (cbn [length]; lia).
    rewrite IH. destruct (lk !! c) as [i |] eqn:Hc.
    + rewrite bool_decide_eq_false_2 by done. apply bool_decide_ext.
      rewrite Forall_cons. split; [| tauto]. intros H. split; [by eexists | done].
    + rewrite bool_decide_eq_true_2 by done. symmetry.
      apply bool_decide_eq_false_2. intros [[? ?] _]%Forall_cons. congruence.
Qed.

(** What [isBase64String] computes for a string. *)
Lemma isBase64String_String (s : jsstring) :
  isBase64String (VString s)
  = Return (bool_decide
              (Z.of_nat (length s) mod 4 = 0
               ∧ Forall (λ c, c ∈ ALPHABET)
                   (take (Z.to_nat (Z.of_nat (length s) - paddingOf s)) s))).
Proof.
  unfold isBase64String. cbv zeta. rewrite Z.rem_mod_nonneg by lia.
  destruct (Z.eqb_spec (Z.of_nat (length s) mod 4) 0) as [Hm | Hm]; cbn [negb].
  2:{ f_equal. symmetry. apply bool_decide_eq_false_2. tauto. }
  rewrite paddingCount_while_whole. cbn [mbind outcome_bind]. f_equal.
  pose proof (paddingOf_bounds s) as Hb.
  set (n := Z.to_nat (Z.of_nat (length s) - paddingOf s)).
  pose proof (isBase64String_for_Forall (alphabetLookupSymbol base64)
                (drop n s) (take n s) []) as H.
  rewrite take_drop in H. cbn [app length] in H.
  change (Z.of_nat 0) with 0 in H.
  replace (Z.of_nat (length (take n s)))
    with (Z.of_nat (length s) - paddingOf s) in H
    by (rewrite length_take; unfold n; lia).
  rewrite H. apply bool_decide_ext. split.
  - intros HF. split; [done |]. eapply Forall_impl; [exact HF |].
    intros c. apply defaultLookup_elem_of.
  - intros [_ HF]. eapply Forall_impl; [exact HF |].
    intros c. apply defaultLookup_elem_of.
Qed.

Lemma band_255_isByte (x : Z) : isByte (band x 0xff).
Proof.
  unfold band, isByte. change (ToInt32 255) with (Z.ones 8).
  rewrite Z.land_ones by lia. apply Z.mod_pos_bound. lia.
Qed.

(** When every symbol is found, [decodeValues] returns bytes, three for
    four symbols. *)
Lemma decodeValues_total (look : Z → Z → outcome Z) (syms : list Z) :
  (∀ c, c ∈ syms → ∀ o, ∃ i, look o c = Return i) →
  ∀ off, ∃ values,
    decodeValues look off syms = Return values
    ∧ Z.of_nat (length values) = 3 * Z.of_nat (length syms) / 4
    ∧ Forall isByte values.
Proof.
  induction syms as [syms IH] using (induction_ltof1 _ length).
  unfold ltof in IH. intros Hlook off.
  assert (H1 : ∀ c o, c ∈ syms → ∃ i, look o c = Return i) by eauto.
  destruct syms as [| c1 [| c2 [| c3 [| c4 rest]]]]; cbn [decodeValues].
  - by exists [].
  - destruct (H1 c1 off) as [i1 ->]; [set_solver |]. by exists [].
  - destruct (H1 c1 off) as [i1 ->]; [set_solver |].
    destruct (H1 c2 (off + 1)) as [i2 ->]; [set_solver |].
    eexists. split; [done |]. split; [done |].
    repeat constructor; apply band_255_isByte.
  - destruct (H1 c1 off) as [i1 ->]; [set_solver |].
    destruct (H1 c2 (off + 1)) as [i2 ->]; [set_solver |].
    destruct (H1 c3 (off + 2)) as [i3 ->]; [set_solver |].
    eexists. split; [done |]. split; [done |].
    repeat constructor; apply band_255_isByte.
  - destruct (H1 c1 off) as [i1 ->]; [set_solver |].
    destruct (H1 c2 (off + 1)) as [i2 ->]; [set_solver |].
    destruct (H1 c3 (off + 2)) as [i3 ->]; [set_solver |].
    destruct (H1 c4 (off + 3)) as [i4 ->]; [set_solver |].
    cbn [mbind outcome_bind].
    destruct (IH rest ltac:(cbn [length]; lia)
                ltac:(intros; apply Hlook; set_solver) (off + 4))
      as (values & -> & Hlen & Hbytes).
    cbn [mbind outcome_bind]. eexists. split; [done |]. split.
    + cbn [length]. Z.to_euclidean_division_equations; lia.
    + repeat (apply Forall_cons; split; [apply band_255_isByte |]). done.
Qed.

(** [decodeFromString] on a whole string, as a function of the string. *)
Lemma decodeFromString_whole (this : Base64) (s : jsstring) :
  decodeFromString this (VString s) None None = decodeFromStringSelected this 0 s.
Proof.
  unfold decodeFromString. by rewrite decodeFromStringSymbol_slice, slice_all.
Qed.

(** Decoding the characters before the padding, when all are symbols. *)
Lemma decodeFromStringSelected_symbols (this : Base64) (s : jsstring) (pc : Z) :
  validInstance this →
  pc = (if Z.rem (Z.of_nat (length s)) 4 =? 0 then paddingOf s else 0) →
  Forall (λ c, c ∈ ALPHABET) (take (Z.to_nat (Z.of_nat (length s) - pc)) s) →
  3 * Z.of_nat (length s) < 2 ^ 31 →
  ∃ bytes,
    decodeFromStringSelected this 0 s = Return bytes
    ∧ Z.of_nat (length bytes) = 3 * (Z.of_nat (length s) - pc) / 4
    ∧ Forall isByte bytes.
Proof.
  intros Hthis -> Hsyms Hlen. unfold decodeFromStringSelected. cbv zeta.
  set (pc := if _ =? 0 then _ else 0) in *.
  assert (Hb : 0 ≤ pc ≤ Z.of_nat (length s)).
  { unfold pc. pose proof (paddingOf_bounds s). destruct (_ =? 0); lia. }
  rewrite decode_alloc by lia. cbn [mbind outcome_bind].
  destruct (decodeValues_total (charLook (alphabetLookupSymbol this))
              (take (Z.to_nat (Z.of_nat (length s) - pc)) s)) with (off := 0)
    as (values & -> & Hvl & Hbytes).
  { intros c Hc o. rewrite Forall_forall in Hsyms.
    destruct (valid_lookup_elem_of this c Hthis (Hsyms c Hc)) as (i & _ & Hi).
    exists i. unfold charLook. by rewrite Hi. }
  rewrite length_take in Hvl.
  replace (Z.of_nat (Z.to_nat (Z.of_nat (length s) - pc) `min` length s))
    with (Z.of_nat (length s) - pc) in Hvl by lia.
  cbn [mbind outcome_bind]. rewrite fill_replicate by lia.
  rewrite fmap_mod_bytes by done. by exists values.
Qed.

(** X4: a string [isBase64String] accepts decodes on every constructed
    instance (while three times its length is below 2^31), to bytes whose
    number is three for every four characters less the padding markers. *)
Theorem isBase64String_decodes (v : value) (this : Base64) (s : jsstring) :
  constructor v = Return this →
  isBase64String (VString s) = Return true →
  3 * Z.of_nat (length s) < 2 ^ 31 →
  ∃ bytes,
    decodeFromString this (VString s) None None = Return bytes
    ∧ Z.of_nat (length bytes) = 3 * (Z.of_nat (length s) / 4) - paddingOf s
    ∧ Forall isByte bytes.
Proof.
  intros Hthis Hs Hlen. apply constructor_valid in Hthis.
  rewrite isBase64String_String in Hs. injection Hs as Hs.
  apply bool_decide_eq_true_1 in Hs as [Hm Hsyms].
  rewrite decodeFromString_whole.
  destruct (decodeFromStringSelected_symbols this s (paddingOf s) Hthis)
    as (bytes & Hd & Hl & Hb); [| done | done |].
  { rewrite Z.rem_mod_nonneg, Hm by lia. done. }
  exists bytes. split_and!; [done | | done].
  rewrite Hl. pose proof (paddingOf_bounds s).
  Z.to_euclidean_division_equations; lia.
Qed.

Lemma isBase64String_decodes_witness :
  ∃ bytes,
    decodeFromString base64 (VString (lit "QXZlLA==")) None None = Return bytes
    ∧ Z.of_nat (length bytes)
      = 3 * (Z.of_nat (length (lit "QXZlLA==")) / 4) - paddingOf (lit "QXZlLA==")
    ∧ Forall isByte bytes.
Proof.
  refine (isBase64String_decodes VUndefined base64 (lit "QXZlLA==") eq_refl _ _);
    by vm_compute.
Defined.

(** The shape of what [[encodeToStringSymbol]] returns for bytes: symbols
    of the alphabet, then at most two padding markers, four characters for
    every three bytes. *)
Lemma encodeToStringSelected_shape (this : Base64) (sel : list Z) :
  validInstance this → Forall isByte sel →
  ∃ (p : nat),
    encodeToStringSelected this sel
    = (byteAt (baseMapSymbol this) <$> encodeIndices sel)
      ++ replicate p PADDING_CHAR
    ∧ (p ≤ 2)%nat
    ∧ Forall (λ c, c ∈ alphabetSymbol this)
        (byteAt (baseMapSymbol this) <$> encodeIndices sel)
    ∧ Z.of_nat (length (encodeIndices sel)) + Z.of_nat p
      = 4 * ((Z.of_nat (length sel) + 2) / 3).
Proof.
  intros Hthis Hsel. rewrite encodeToStringSelected_valid by done.
  rewrite paddingFor_replicate by lia. eexists. split; [done |].
  pose proof (encodeIndices_length_Z sel) as HL.
  destruct (symbols_baseMap this Hthis (encodeIndices sel))
    as (_ & _ & Hin); [by apply encodeIndices_range |].
  split_and!; [| done |];
    destruct (Z.eqb_spec (Z.of_nat (length sel) mod 3) 0);
    Z.to_euclidean_division_equations; lia.
Qed.

(** X5: [isBase64String] accepts what [encodeToString] returns, on every
    constructed instance, for every Uint8Array and range. *)
Theorem encodeToString_isBase64String (v : value) (this : Base64)
    (input : list Z) (start end_ : option integerOrInfinity) :
  constructor v = Return this → Forall isByte input →
  ∃ s, encodeToString this (VUint8Array input) start end_ = Return s
       ∧ isBase64String (VString s) = Return true.
Proof.
  intros Hthis Hinput. apply constructor_valid in Hthis.
  unfold encodeToString. rewrite encodeToStringSymbol_slice.
  eexists. split; [done |].
  destruct (encodeToStringSelected_shape this (slice input start end_) Hthis)
    as (p & -> & Hp & Hin & Hlen); [by apply slice_Forall |].
  set (data := byteAt (baseMapSymbol this) <$> _) in *.
  rewrite isBase64String_String. f_equal. apply bool_decide_eq_true_2.
  assert (Hdata : Forall (λ c, c ≠ PADDING_CHAR) data).
  { eapply Forall_impl; [exact Hin |]. intros c Hc ->.
    by apply (validAlphabet_no_padding _ (valid_alphabet _ Hthis)) in Hc. }
  rewrite paddingOf_data, length_app, length_replicate by done.
  replace (Z.to_nat (Z.of_nat (length data + p) - Z.of_nat p))
    with (length data) by lia.
  rewrite take_app_length. split.
  - unfold data. rewrite length_fmap, Nat2Z.inj_add, Hlen.
    Z.to_euclidean_division_equations; lia.
  - eapply Forall_impl; [exact Hin |]. intros c Hc.
    pose proof (valid_alphabet _ Hthis) as Ha. unfold validAlphabet in Ha.
    by rewrite <- Ha.
Qed.

Lemma encodeToString_isBase64String_witness :
  ∃ s, encodeToString (instanceOf readmeAlphabet)
         (VUint8Array [0x41; 0x76; 0x65; 0x2c; 0x20]) (Some (Int (-4))) None
       = Return s
       ∧ isBase64String (VString s) = Return true.
Proof.
  refine (encodeToString_isBase64String (VString readmeAlphabet) _ _ _ _
            constructor_readmeAlphabet _).
  repeat constructor; unfold isByte; lia.
Defined.

(** ** [decode] on arbitrary bytes *)


Lemma byteLook_alphabet (this : Base64) (c : Z) :
  validInstance this →
  (c ∈ alphabetSymbol this → ∀ o, ∃ i, byteLook (baseMapLookupSymbol this) o c = Return i)
  ∧ (c ∉ alphabetSymbol this →
     ∀ o, byteLook (baseMapLookupSymbol this) o c
          = Throw (SyntaxError (InvalidByte (Some c) o))).
Proof.
  intros Hthis. unfold byteLook. split.
  - intros Hc o. pose proof (valid_alphabet _ Hthis) as Ha. unfold validAlphabet in Ha.
    rewrite Ha in Hc.
    destruct (valid_lookup_elem_of this c Hthis Hc) as (i & -> & _). by eexists.
  - intros Hc o. destruct (baseMapLookupSymbol this !! c) as [i |] eqn:Hi; [| done].
    apply (valid_baseMapLookup _ Hthis) in Hi as [_ Hi]. destruct Hc.
    by eapply item_elem_of.
Qed.

(** X6: on a constructed instance [decode] returns exactly when every
    selected byte is a character of the alphabet (while three times the
    selected length is below 2^31), whatever the length: it then returns
    bytes, three for every four symbols and one or two for a remainder of
    two or three symbols, while a remainder of one symbol gives no byte. *)
Theorem decode_returns_iff (v : value) (this : Base64) (input : list Z)
    (start end_ : option integerOrInfinity) :
  constructor v = Return this →
  3 * Z.of_nat (length (slice input start end_)) < 2 ^ 31 →
  ((∃ bytes, decode this (VUint8Array input) start end_ = Return bytes)
   ↔ Forall (λ c, c ∈ alphabetSymbol this) (slice input start end_))
  ∧ ∀ bytes, decode this (VUint8Array input) start end_ = Return bytes →
             Z.of_nat (length bytes)
             = 3 * Z.of_nat (length (slice input start end_)) / 4
             ∧ Forall isByte bytes.
Proof.
  intros Hthis Hlen. apply constructor_valid in Hthis.
  rewrite decode_slice. set (sel := slice input start end_) in *.
  set (off := startIndexOf _ _). unfold decodeSelected.
  rewrite decode_alloc by lia. cbn [mbind outcome_bind].
  assert (Htotal : Forall (λ c, c ∈ alphabetSymbol this) sel →
            ∃ values, decodeValues (byteLook (baseMapLookupSymbol this)) off sel
                      = Return values
                      ∧ Z.of_nat (length values) = 3 * Z.of_nat (length sel) / 4
                      ∧ Forall isByte values).
  { intros Hsel. apply decodeValues_total. intros c Hc.
    rewrite Forall_forall in Hsel. by apply byteLook_alphabet, Hsel. }
  assert (Hsyms : ∀ values,
            decodeValues (byteLook (baseMapLookupSymbol this)) off sel
            = Return values → Forall (λ c, c ∈ alphabetSymbol this) sel).
  { intros values Hv. apply decodeValues_Return in Hv.
    eapply Forall_impl; [exact Hv |]. intros c (o & i & Hlook).
    destruct (decide (c ∈ alphabetSymbol this)) as [| Hn]; [done |].
    by rewrite (proj2 (byteLook_alphabet this c Hthis) Hn) in Hlook. }
  split.
  - split.
    + intros [bytes Hbytes].
      destruct (decodeValues _ off sel) as [values | |] eqn:Hv; try done.
      by eapply Hsyms.
    + intros Hsel. destruct (Htotal Hsel) as (values & -> & _). by eexists.
  - intros bytes Hbytes.
    destruct (decodeValues _ off sel) as [values | |] eqn:Hv; try done.
    destruct (Htotal (Hsyms _ eq_refl)) as (values' & [= <-] & Hvl & Hvb).
    cbn [mbind outcome_bind] in Hbytes. injection Hbytes as <-.
    rewrite fill_replicate by lia. rewrite fmap_mod_bytes by done. done.
Qed.

Lemma decode_returns_iff_witness :
  (∃ bytes, decode base64 (VUint8Array (lit "QXZlLCBEY")) None None = Return bytes)
  ↔ Forall (λ c, c ∈ alphabetSymbol base64) (slice (lit "QXZlLCBEY") None None).
Proof.
  refine (proj1 (decode_returns_iff VUndefined base64 (lit "QXZlLCBEY") None None
                   eq_refl _)).
  by vm_compute.
Defined.



(** X8: [decodeFromString] decodes the unpadded symbols [encode] returns,
    read as a string, to the original bytes (fewer than 2^29 of them), on
    every constructed instance. *)
Theorem decodeFromString_encode (v : value) (this : Base64) (B : list Z) :
  constructor v = Return this →
  Forall isByte B → Z.of_nat (length B) < 2 ^ 29 →
  encode this (VUint8Array B) None None
  ≫= (λ encoded, decodeFromString this (VString encoded) None None)
  = Return B.
Proof.
  intros Hthis HB Hlen. apply constructor_valid in Hthis.
  rewrite encode_slice, slice_all, encodeSelected_valid by done.
  cbn [mbind outcome_bind]. rewrite decodeFromString_whole.
  set (data := byteAt (baseMapSymbol this) <$> encodeIndices B).
  assert (HL : Z.of_nat (length data) = (4 * Z.of_nat (length B) + 2) / 3).
  { unfold data. rewrite length_fmap. apply encodeIndices_length_Z. }
  assert (Hdata : Forall (λ c, c ≠ PADDING_CHAR) data).
  { destruct (symbols_baseMap this Hthis (encodeIndices B))
      as (_ & _ & Hin); [by apply encodeIndices_range |].
    eapply Forall_impl; [exact Hin |]. intros c Hc ->.
    by apply (validAlphabet_no_padding _ (valid_alphabet _ Hthis)) in Hc. }
  pose proof (paddingOf_data data 0 Hdata ltac:(lia)) as Hpad.
  cbn [replicate] in Hpad. rewrite app_nil_r in Hpad.
  unfold decodeFromStringSelected. cbv zeta. rewrite Hpad.
  change (Z.of_nat 0) with 0.
  replace (if Z.rem (Z.of_nat (length data)) 4 =? 0 then 0 else 0) with 0
    by (by destruct (_ =? 0)).
  rewrite Z.sub_0_r, Nat2Z.id, firstn_all.
  rewrite decode_alloc by (rewrite ?HL; Z.to_euclidean_division_equations; lia).
  cbn [mbind outcome_bind]. unfold data.
  rewrite (decodeValues_encodeIndices _ (byteAt (baseMapSymbol this))); [| | done].
  - cbn [mbind outcome_bind]. rewrite fill_replicate.
    + f_equal. by apply fmap_mod_bytes.
    + fold data. rewrite HL. Z.to_euclidean_division_equations; lia.
  - intros off' i Hi.
    destruct (baseMap_item this Hthis i Hi) as (c & -> & _ & _ & _ & _ & H).
    apply H.
Qed.

Lemma decodeFromString_encode_witness :
  encode base64 (VUint8Array [0x41; 0x76]) None None
  ≫= (λ encoded, decodeFromString base64 (VString encoded) None None)
  = Return [0x41; 0x76].
Proof.
  refine (decodeFromString_encode VUndefined base64 [0x41; 0x76] eq_refl _ _).
  - repeat constructor; unfold isByte; lia.
  - by vm_compute.
Defined.

(** ** The numeral codec *)

(** The digits the loop of [encodeBigInt] prepends for a positive number:
    as many as the number needs in base 64, the first one not the digit
    zero. *)
Lemma encodeBigInt_while_canonical (this : Base64) (fuel : nat) :
  validInstance this →
  ∀ (n : Z) (acc : jsstring),
  0 < n → Z.log2 n < Z.of_nat fuel →
  ∃ s, encodeBigInt_while fuel (alphabetSymbol this) n acc = Return (s ++ acc)
       ∧ Forall (λ c, c ∈ alphabetSymbol this) s
       ∧ 64 ^ (Z.of_nat (length s) - 1) ≤ n < 64 ^ Z.of_nat (length s)
       ∧ (0 < length s)%nat
       ∧ ∃ i, 0 < i < 64 ∧ item s 0 = item (alphabetSymbol this) i.
Proof.
  intros Hthis. induction fuel as [| fuel IH]; intros n acc Hn Hfuel.
  { pose proof (Z.log2_nonneg n). lia. }
  cbn [encodeBigInt_while]. destruct (Z.eqb_spec n 0) as [-> | Hne]; [lia |].
  rewrite Z.rem_mod_nonneg, Z.quot_div_nonneg by lia.
  destruct (alphabet_item this Hthis (n mod 64)) as (c & Hc & _).
  { apply Z.mod_pos_bound. lia. }
  rewrite Hc. cbn [toString app].
  destruct (log2_div_64 n fuel Hn Hfuel) as [Hz | [Hpos Hlog]].
  - rewrite Hz. exists [c].
    split; [by destruct fuel |]. refine (conj _ (conj _ (conj _ _))).
    + repeat constructor. by eapply item_elem_of.
    + cbn [length]. change (64 ^ (Z.of_nat 1 - 1)) with 1.
      change (64 ^ Z.of_nat 1) with 64. Z.to_euclidean_division_equations; lia.
    + cbn [length]. lia.
    + exists (n mod 64). split; [| by rewrite item_cons_0].
      Z.to_euclidean_division_equations; lia.
  - destruct (IH (n / 64) (c :: acc) Hpos Hlog)
      as (s & Hs & Hin & Hb & Hlen & i & Hi & Hhead).
    exists (s ++ [c]). rewrite <- app_assoc. cbn [app].
    refine (conj _ (conj _ (conj _ (conj _ _)))).
    + done.
    + apply Forall_app. split; [done |]. repeat constructor.
      by eapply item_elem_of.
    + rewrite length_app. cbn [length].
      replace (Z.of_nat (length s + 1) - 1) with (Z.of_nat (length s) - 1 + 1) by lia.
      replace (Z.of_nat (length s + 1)) with (Z.of_nat (length s) + 1) by lia.
      rewrite !Z.pow_add_r by lia. change (64 ^ 1) with 64.
      Z.to_euclidean_division_equations; lia.
    + rewrite length_app. lia.
    + exists i. split; [done |]. rewrite <- Hhead. apply item_app_l. lia.
Qed.

Lemma encodeBigInt_canonical (this : Base64) (N : Z) :
  validInstance this → N ≠ 0 →
  ∃ digits,
    encodeBigInt this N
    = Return (if N <? 0 then NEGATIVE_CHAR :: digits else digits)
    ∧ Forall (λ c, c ∈ alphabetSymbol this) digits
    ∧ 64 ^ (Z.of_nat (length digits) - 1) ≤ Z.abs N < 64 ^ Z.of_nat (length digits)
    ∧ item digits 0 ≠ item (alphabetSymbol this) 0.
Proof.
  intros Hthis HN. unfold encodeBigInt.
  destruct (Z.eqb_spec N 0) as [| _]; [done |].
  set (n := if N <? 0 then - N else N).
  assert (Hn : n = Z.abs N) by (unfold n; destruct (Z.ltb_spec N 0); lia).
  destruct (encodeBigInt_while_canonical this (S (Z.to_nat (Z.log2 n))) Hthis n [])
    as (s & Hs & Hin & Hb & Hlen & i & Hi & Hhead); [lia | lia |].
  rewrite Hs, app_nil_r. exists s. cbn [mbind outcome_bind].
  refine (conj _ (conj _ (conj _ _))); [done | done | by rewrite <- Hn |].
  rewrite Hhead. intros Heq.
  destruct (alphabet_item this Hthis i) as (c & Hc & _); [lia |].
  rewrite Hc in Heq. symmetry in Heq.
  pose proof (item_inj _ _ _ _ (validAlphabet_NoDup _ (valid_alphabet _ Hthis))
                Heq Hc). lia.
Qed.

(** X9: on a constructed instance [encodeBigInt] of a number other than 0
    returns, after the sign marker of a negative number, digits of the
    alphabet in canonical form: as many as the magnitude needs in base 64,
    with no leading zero digit; 0 is the single zero digit. *)
Theorem encodeBigInt_canonical_form (v : value) (this : Base64) (N : Z) :
  constructor v = Return this →
  ∃ digits,
    encodeBigInt this N
    = Return (if N <? 0 then NEGATIVE_CHAR :: digits else digits)
    ∧ Forall (λ c, c ∈ alphabetSymbol this) digits
    ∧ (N = 0 → item (alphabetSymbol this) 0 = Some (default 0 (head digits))
               ∧ length digits = 1%nat)
    ∧ (N ≠ 0 →
       64 ^ (Z.of_nat (length digits) - 1) ≤ Z.abs N < 64 ^ Z.of_nat (length digits)
       ∧ item digits 0 ≠ item (alphabetSymbol this) 0).
Proof.
  intros Hthis. apply constructor_valid in Hthis.
  destruct (Z.eq_dec N 0) as [-> | HN].
  - destruct (alphabet_item this Hthis 0) as (c & Hc & _); [lia |].
    exists [c]. unfold encodeBigInt. rewrite Hc. cbn.
    refine (conj _ (conj _ (conj _ _))); [done | | done | done].
    repeat constructor. by eapply item_elem_of.
  - destruct (encodeBigInt_canonical this N Hthis HN) as (digits & ? & ? & ? & ?).
    exists digits. refine (conj _ (conj _ (conj _ _))); done.
Qed.

Lemma encodeBigInt_canonical_form_witness :
  ∃ digits,
    encodeBigInt base64 (- 2 ^ 64)
    = Return (if - 2 ^ 64 <? 0 then NEGATIVE_CHAR :: digits else digits)
    ∧ Forall (λ c, c ∈ alphabetSymbol base64) digits
    ∧ (- 2 ^ 64 = 0 → item (alphabetSymbol base64) 0 = Some (default 0 (head digits))
                      ∧ length digits = 1%nat)
    ∧ (- 2 ^ 64 ≠ 0 →
       64 ^ (Z.of_nat (length digits) - 1) ≤ Z.abs (- 2 ^ 64)
         < 64 ^ Z.of_nat (length digits)
       ∧ item digits 0 ≠ item (alphabetSymbol base64) 0).
Proof. exact (encodeBigInt_canonical_form VUndefined base64 (- 2 ^ 64) eq_refl). Defined.

(** X10: on the safe integers [encodeInt] returns what [encodeBigInt]
    returns, at most nine digits after the sign marker. *)
Theorem encodeInt_safe_is_encodeBigInt (v : value) (this : Base64) (N : Z) :
  constructor v = Return this →
  NumberMIN_SAFE_INTEGER ≤ N ≤ NumberMAX_SAFE_INTEGER →
  ∃ digits,
    encodeInt this (Int N)
    = Return (if N <? 0 then NEGATIVE_CHAR :: digits else digits)
    ∧ encodeBigInt this N = encodeInt this (Int N)
    ∧ (1 ≤ length digits ≤ 9)%nat.
Proof.
  intros Hthis HN. apply constructor_valid in Hthis.
  rewrite encodeInt_safe by done.
  destruct (Z.eq_dec N 0) as [-> | Hne].
  - destruct (alphabet_item this Hthis 0) as (c & Hc & _); [lia |].
    exists [c]. unfold encodeBigInt. rewrite Hc. cbn.
    refine (conj _ (conj _ _)); (done || lia).
  - destruct (encodeBigInt_canonical this N Hthis Hne) as (digits & -> & _ & Hb & _).
    exists digits. refine (conj _ (conj _ (conj _ _))); [done | done | |].
    + destruct digits; [| cbn [length]; lia].
      cbn [length] in Hb. change (64 ^ Z.of_nat 0) with 1 in Hb. lia.
    + destruct (decide (length digits ≤ 9)%nat) as [| Hgt]; [done |].
      pose proof (Z.pow_le_mono_r 64 9 (Z.of_nat (length digits) - 1)
                    ltac:(lia) ltac:(lia)) as Hpow.
      unfold NumberMIN_SAFE_INTEGER, NumberMAX_SAFE_INTEGER in HN.
      change (64 ^ 9) with 18014398509481984 in Hpow.
      change (2 ^ 53) with 9007199254740992 in HN. lia.
Qed.

Lemma encodeInt_safe_is_encodeBigInt_witness :
  ∃ digits,
    encodeInt base64 (Int (-9007199254740991))
    = Return (if -9007199254740991 <? 0 then NEGATIVE_CHAR :: digits else digits)
    ∧ encodeBigInt base64 (-9007199254740991)
      = encodeInt base64 (Int (-9007199254740991))
    ∧ (1 ≤ length digits ≤ 9)%nat.
Proof.
  refine (encodeInt_safe_is_encodeBigInt VUndefined base64 (-9007199254740991)
            eq_refl _).
  by vm_compute.
Defined.

(** The two decoding loops stop at the same character. *)
Lemma decode_for_same_errors (indices : list Z) (s : jsstring) (lk : gmap Z Z) :
  ∀ r r',
  match decodeInt_for indices s lk r, decodeBigInt_for indices s lk r' with
  | Throw e, Throw e' => e = e'
  | Return _, Return _ => True
  | _, _ => False
  end.
Proof.
  induction indices as [| i indices IH]; intros r r'; [done |].
  cbn [decodeInt_for decodeBigInt_for].
  destruct (getProp lk (item s i)); [apply IH | done].
Qed.

Lemma decodeBigInt_for_le (indices : list Z) (s : jsstring) (lk : gmap Z Z) :
  (∀ c i, lk !! c = Some i → 0 ≤ i) →
  ∀ r n, 0 ≤ r → decodeBigInt_for indices s lk r = Return n → r ≤ n.
Proof.
  intros Hlk. induction indices as [| i indices IH]; intros r n Hr; cbn.
  - intros [= <-]. lia.
  - destruct (item s i) as [c |]; cbn [getProp mbind option_bind]; [| done].
    destruct (lk !! c) as [j |] eqn:Hc; [| done]. intros H.
    apply IH in H; pose proof (Hlk _ _ Hc); lia.
Qed.

Lemma decodeInt_for_exact (indices : list Z) (s : jsstring) (lk : gmap Z Z) :
  (∀ c i, lk !! c = Some i → 0 ≤ i) →
  ∀ r n, 0 ≤ r → decodeBigInt_for indices s lk r = Return n → n < 2 ^ 53 →
         decodeInt_for indices s lk (Int r) = Return (Int n).
Proof.
  intros Hlk. induction indices as [| i indices IH]; intros r n Hr Hn Hsafe.
  - cbn in *. congruence.
  - cbn [decodeInt_for decodeBigInt_for] in *.
    destruct (item s i) as [c |]; cbn [getProp mbind option_bind] in *; [| done].
    destruct (lk !! c) as [j |] eqn:Hc; [| done].
    pose proof (Hlk _ _ Hc) as Hj.
    assert (Hle : r * 64 + j ≤ n)
      by (eapply decodeBigInt_for_le; [exact Hlk | | exact Hn]; lia).
    cbn [mulAdd]. unfold BASE. rewrite roundNumber_exact by lia.
    apply IH; [lia | done | done].
Qed.

(** X11: on a constructed instance [decodeInt] throws exactly when
    [decodeBigInt] throws, with the same error, and returns the integer
    [decodeBigInt] returns when its magnitude is below 2^53. *)
Theorem decodeInt_agrees_with_decodeBigInt (v : value) (this : Base64)
    (s : jsstring) :
  constructor v = Return this →
  (∀ e, decodeInt this s = Throw e ↔ decodeBigInt this s = Throw e)
  ∧ (∀ n, decodeBigInt this s = Return n → Z.abs n < 2 ^ 53 →
          decodeInt this s = Return (Int n)).
Proof.
  intros Hthis. apply constructor_valid in Hthis.
  assert (Hlk : ∀ c i, alphabetLookupSymbol this !! c = Some i → 0 ≤ i).
  { intros c i Hi. by apply (alphabetLookup_range this Hthis) in Hi as [? _]. }
  unfold decodeInt, decodeBigInt. cbv zeta.
  set (neg := bool_decide _). set (indices := seqZ _ _).
  pose proof (decode_for_same_errors indices s (alphabetLookupSymbol this)
                (Int 0) 0) as Hsame.
  pose proof (decodeInt_for_exact indices s (alphabetLookupSymbol this) Hlk 0)
    as Hexact.
  pose proof (decodeBigInt_for_le indices s (alphabetLookupSymbol this) Hlk 0)
    as Hle.
  destruct (decodeBigInt_for indices s _ 0) as [r | e' |];
    destruct (decodeInt_for indices s _ (Int 0)) as [r' | e'' |]; try done.
  - split; [done |]. cbn [mbind outcome_bind]. intros n [= <-] Hn.
    specialize (Hle r ltac:(lia) eq_refl).
    specialize (Hexact r ltac:(lia) eq_refl ltac:(destruct neg; lia)).
    injection Hexact as ->. destruct neg; [| done].
    destruct (Z.ltb_spec 0 r); [done |]. do 2 f_equal. lia.
  - subst e''. cbn [mbind outcome_bind]. split; [| done].
    intros e. split; intros [= <-]; done.
Qed.

Lemma decodeInt_agrees_with_decodeBigInt_witness :
  (∀ e, decodeInt base64 (lit "-f/=") = Throw e
        ↔ decodeBigInt base64 (lit "-f/=") = Throw e)
  ∧ (∀ n, decodeBigInt base64 (lit "-f/=") = Return n → Z.abs n < 2 ^ 53 →
          decodeInt base64 (lit "-f/=") = Return (Int n)).
Proof.
  exact (decodeInt_agrees_with_decodeBigInt VUndefined base64 (lit "-f/=") eq_refl).
Defined.

Lemma digitsValue_shift (lk : gmap Z Z) (s : jsstring) :
  ∀ off i r, digitsValue lk (off + i) s r = shiftError off (digitsValue lk i s r).
Proof.
  induction s as [| c s IH]; intros off i r; [done |].
  cbn [digitsValue]. destruct (lk !! c); [| done].
  rewrite <- Z.add_assoc. apply IH.
Qed.

(** X12: a sign marker before a string that is not empty and does not
    start with the sign marker negates what [decodeBigInt] returns for the
    string; the error of an invalid character is the same, one position
    further. *)
Theorem decodeBigInt_sign_negates (this : Base64) (s : jsstring) :
  s ≠ [] → item s 0 ≠ Some NEGATIVE_CHAR →
  decodeBigInt this (NEGATIVE_CHAR :: s)
  = shiftError 1 (Z.opp <$> decodeBigInt this s).
Proof.
  intros Hs Hhead. destruct s as [| c s]; [done |].
  unfold decodeBigInt. cbv zeta.
  rewrite item_cons_0, bool_decide_eq_true_2 by done.
  rewrite bool_decide_eq_false_2 by done. cbn [andb].
  destruct (Z.ltb_spec 1 (Z.of_nat (length (NEGATIVE_CHAR :: c :: s))));
    [| cbn [length] in *; lia].
  pose proof (decodeBigInt_for_digits (alphabetLookupSymbol this) (c :: s)
                [NEGATIVE_CHAR] 0) as H1.
  pose proof (decodeBigInt_for_digits (alphabetLookupSymbol this) (c :: s)
                [] 0) as H0.
  cbn [length app] in H1. cbn [app] in H0.
  change (Z.of_nat (length [])) with 0 in H0. change (Z.of_nat 1) with 1 in H1.
  replace (Z.of_nat (length (NEGATIVE_CHAR :: c :: s)) - 1)
    with (Z.of_nat (S (length s))) by (cbn [length]; lia).
  rewrite Z.sub_0_r, H1. cbn [length] in H0 |- *. rewrite H0.
  rewrite <- (Z.add_0_r 1) at 1. rewrite digitsValue_shift.
  by destruct (digitsValue _ 0 (c :: s) 0) as [? | [[] | [] | []] |].
Qed.

Lemma decodeBigInt_sign_negates_witness :
  decodeBigInt base64 (NEGATIVE_CHAR :: lit "f/=")
  = shiftError 1 (Z.opp <$> decodeBigInt base64 (lit "f/=")).
Proof.
  refine (decodeBigInt_sign_negates base64 (lit "f/=") _ _); by vm_compute.
Defined.

(** ** A custom alphabet *)

Lemma alphabetSymbol_base64 : alphabetSymbol base64 = ALPHABET.
Proof. reflexivity. Qed.

Lemma relabel_symbol (this : Base64) (i : Z) :
  validInstance this → 0 ≤ i < 64 →
  ∃ c0 c, item ALPHABET i = Some c0 ∧ item (alphabetSymbol this) i = Some c
          ∧ byteAt (baseMapSymbol base64) i = c0
          ∧ byteAt (baseMapSymbol this) i = c
          ∧ relabel this c0 = c.
Proof.
  intros Hthis Hi.
  destruct (alphabet_item base64 base64_valid i Hi) as (c0 & Hc0 & Hlk0 & _ & Hb0 & _).
  destruct (alphabet_item this Hthis i Hi) as (c & Hc & _ & _ & Hb & _).
  exists c0, c. unfold byteAt, relabel. rewrite Hb0, Hb, Hlk0. cbn.
  rewrite Hc. by rewrite alphabetSymbol_base64 in Hc0.
Qed.

Lemma relabel_no_symbol (this : Base64) (c : Z) :
  c ∉ ALPHABET → relabel this c = c.
Proof.
  intros Hc. unfold relabel.
  destruct (alphabetLookupSymbol base64 !! c) eqn:E; [| done].
  destruct Hc. apply defaultLookup_elem_of. by eexists.
Qed.

Lemma encodeBigInt_while_relabel (this : Base64) (fuel : nat) :
  validInstance this →
  ∀ (n : Z) (acc : jsstring),
  0 ≤ n →
  encodeBigInt_while fuel (alphabetSymbol this) n (relabelString this acc)
  = relabelString this <$> encodeBigInt_while fuel ALPHABET n acc.
Proof.
  intros Hthis. unfold relabelString.
  induction fuel as [| fuel IH]; intros n acc Hn;
    cbn [encodeBigInt_while]; destruct (Z.eqb_spec n 0) as [| Hne]; try done.
  rewrite Z.rem_mod_nonneg, Z.quot_div_nonneg by lia.
  destruct (relabel_symbol this (n mod 64) Hthis) as (c0 & c & -> & -> & _ & _ & <-).
  { apply Z.mod_pos_bound. lia. }
  cbn [toString app].
  rewrite <- (IH (n / 64) (c0 :: acc)) by (apply Z.div_pos; lia). done.
Qed.

(** X13: a constructed instance returns what the default instance
    returns with every symbol replaced by the character of the same index
    in its own alphabet, the padding and sign markers staying: for
    [encodeToString] of bytes with any range, and for [encodeBigInt]. *)
Theorem custom_alphabet_relabels (v : value) (this : Base64) :
  constructor v = Return this →
  (∀ input start end_, Forall isByte input →
     encodeToString this (VUint8Array input) start end_
     = relabelString this
         <$> encodeToString base64 (VUint8Array input) start end_)
  ∧ (∀ N, encodeBigInt this N = relabelString this <$> encodeBigInt base64 N).
Proof.
  intros Hthis. apply constructor_valid in Hthis. split.
  - intros input start end_ Hinput. unfold encodeToString.
    rewrite !encodeToStringSymbol_slice. cbn [fmap outcome_fmap]. f_equal.
    pose proof (slice_Forall _ _ start end_ Hinput) as Hsel.
    rewrite !encodeToStringSelected_valid by (done || apply base64_valid).
    unfold relabelString. rewrite fmap_app. f_equal.
    + rewrite <- list_fmap_compose. apply Forall_fmap_ext_1.
      eapply Forall_impl; [by apply encodeIndices_range |].
      intros i Hi. unfold compose. cbv beta.
      destruct (relabel_symbol this i Hthis Hi) as (c0 & c & _ & _ & Hb0 & Hb & Hr).
      by rewrite Hb0, Hb, Hr.
    + unfold paddingFor. destruct (_ =? 0); [done |].
      rewrite fmap_replicate, relabel_no_symbol; [done |].
      apply (bool_decide_unpack _). by vm_compute.
  - intros N. unfold encodeBigInt. rewrite alphabetSymbol_base64.
    destruct (Z.eqb_spec N 0) as [| HN].
    + unfold relabelString.
      destruct (relabel_symbol this 0 Hthis) as (c0 & c & -> & -> & _ & _ & <-);
        [lia | done].
    + set (n := if N <? 0 then - N else N).
      assert (0 < n) by (unfold n; destruct (Z.ltb_spec N 0); lia).
      pose proof (encodeBigInt_while_relabel this (S (Z.to_nat (Z.log2 n))) Hthis
                    n [] ltac:(lia)) as H1.
      unfold relabelString in *. cbn [fmap list_fmap] in H1. rewrite H1.
      destruct (encodeBigInt_while _ ALPHABET n []) as [s | |];
        cbn [fmap outcome_fmap mbind outcome_bind]; try done.
      f_equal. destruct (N <? 0); [| done]. cbn [fmap list_fmap].
      rewrite relabel_no_symbol; [done |].
      apply (bool_decide_unpack _). by vm_compute.
Qed.

Lemma custom_alphabet_relabels_witness :
  encodeToString (instanceOf readmeAlphabet) (VUint8Array [0x41; 0x76]) None None
  = relabelString (instanceOf readmeAlphabet)
      <$> encodeToString base64 (VUint8Array [0x41; 0x76]) None None
  ∧ encodeBigInt (instanceOf readmeAlphabet) (-4096)
    = relabelString (instanceOf readmeAlphabet) <$> encodeBigInt base64 (-4096).
Proof.
  destruct (custom_alphabet_relabels (VString readmeAlphabet) _
              constructor_readmeAlphabet) as [Hs Hn].
  split; [apply Hs | apply Hn].
  repeat constructor; unfold isByte; lia.
Defined.

(** ** [decodeFromString] on arbitrary strings *)

Lemma charLook_alphabet (this : Base64) (c : Z) :
  validInstance this →
  (c ∈ alphabetSymbol this
   → ∀ o, ∃ i, charLook (alphabetLookupSymbol this) o c = Return i)
  ∧ (c ∉ alphabetSymbol this →
     ∀ o, charLook (alphabetLookupSymbol this) o c
          = Throw (SyntaxError (InvalidCharacter (Some c) o))).
Proof.
  intros Hthis. unfold charLook. split.
  - intros Hc o. pose proof (valid_alphabet _ Hthis) as Ha. unfold validAlphabet in Ha.
    rewrite Ha in Hc.
    destruct (valid_lookup_elem_of this c Hthis Hc) as (i & _ & ->). by eexists.
  - intros Hc o. destruct (alphabetLookupSymbol this !! c) as [i |] eqn:Hi; [| done].
    apply (valid_alphabetLookup _ Hthis) in Hi as [_ Hi]. destruct Hc.
    by eapply item_elem_of.
Qed.

(** X14: on a constructed instance [decodeFromString] returns exactly
    when every selected character before the counted padding is a character
    of the alphabet (while three times the selected length is below 2^31):
    up to two padding markers count, at the end of a selection whose length
    is a multiple of 4 only, and none is required.  For a whole string whose
    length is a multiple of 4 that is exactly when [isBase64String] returns
    true. *)
Theorem decodeFromString_returns_iff (v : value) (this : Base64) (string : jsstring)
    (start end_ : option integerOrInfinity) :
  constructor v = Return this →
  3 * Z.of_nat (length (slice string start end_)) < 2 ^ 31 →
  let sel := slice string start end_ in
  let n := Z.of_nat (length sel) in
  let paddingCount := if n mod 4 =? 0 then paddingOf sel else 0 in
  ((∃ bytes, decodeFromString this (VString string) start end_ = Return bytes)
   ↔ Forall (λ c, c ∈ alphabetSymbol this) (take (Z.to_nat (n - paddingCount)) sel))
  ∧ (n mod 4 = 0 →
     (isBase64String (VString sel) = Return true
      ↔ ∃ bytes, decodeFromString this (VString string) start end_ = Return bytes)).
Proof.
  intros Hthis Hlen sel n pc. apply constructor_valid in Hthis.
  unfold decodeFromString. rewrite decodeFromStringSymbol_slice. fold sel.
  set (off := startIndexOf _ _). unfold decodeFromStringSelected. cbv zeta.
  fold n. rewrite Z.rem_mod_nonneg by lia. fold pc.
  assert (Hb : 0 ≤ pc ≤ n).
  { unfold pc, n. pose proof (paddingOf_bounds sel). destruct (_ =? 0); lia. }
  assert (Hn3 : 3 * n < 2 ^ 31) by exact Hlen.
  rewrite decode_alloc by lia. cbn [mbind outcome_bind].
  set (valid := take (Z.to_nat (n - pc)) sel).
  assert (Hiff : (∃ bytes,
                    decodeValues (charLook (alphabetLookupSymbol this)) off valid
                    ≫= (λ values, Return (fill (replicate
                          (Z.to_nat (3 * (n - pc) / 4)) 0) 0 values))
                    = Return bytes)
                 ↔ Forall (λ c, c ∈ alphabetSymbol this) valid).
  { split.
    - intros [bytes Hbytes].
      destruct (decodeValues _ off valid) as [values | |] eqn:Hv; try done.
      apply decodeValues_Return in Hv.
      eapply Forall_impl; [exact Hv |]. intros c (o & i & Hlook).
      destruct (decide (c ∈ alphabetSymbol this)) as [| Hn]; [done |].
      by rewrite (proj2 (charLook_alphabet this c Hthis) Hn) in Hlook.
    - intros Hvalid.
      destruct (decodeValues_total (charLook (alphabetLookupSymbol this)) valid)
        with (off := off) as (values & -> & _).
      { intros c Hc. rewrite Forall_forall in Hvalid.
        by apply charLook_alphabet, Hvalid. }
      by eexists. }
  split; [exact Hiff |].
  intros Hm. rewrite Hiff, isBase64String_String. fold n.
  unfold valid, pc. rewrite Hm. change (0 =? 0) with true. cbv iota.
  pose proof (valid_alphabet _ Hthis) as Ha. unfold validAlphabet in Ha.
  split.
  - intros [= [_ HF]%bool_decide_eq_true_1].
    eapply Forall_impl; [exact HF |]. intros c Hc. by rewrite Ha.
  - intros HF. f_equal. apply bool_decide_eq_true_2. split; [done |].
    eapply Forall_impl; [exact HF |]. intros c Hc. by rewrite <- Ha.
Qed.

Lemma decodeFromString_returns_iff_witness :
  (∃ bytes, decodeFromString base64 (VString (lit "QQ=Q")) None None = Return bytes)
  ↔ Forall (λ c, c ∈ alphabetSymbol base64)
      (take (Z.to_nat (4 - 0)) (slice (lit "QQ=Q") None None)).
Proof.
  refine (proj1 (decodeFromString_returns_iff VUndefined base64 (lit "QQ=Q")
                   None None eq_refl _)).
  by vm_compute.
Defined.

(** ** Canonical numerals *)

(** The loop of [encodeBigInt] gives back digits that have no leading zero
    digit, from their value. *)
Lemma encodeBigInt_while_of_digits (this : Base64) (s : jsstring) :
  validInstance this →
  Forall (λ c, c ∈ alphabetSymbol this) s → s ≠ [] →
  item s 0 ≠ item (alphabetSymbol this) 0 →
  ∃ n, 0 < n
       ∧ (∀ off r, digitsValue (alphabetLookupSymbol this) off s r
                   = Return (r * 64 ^ Z.of_nat (length s) + n))
       ∧ ∀ fuel acc, Z.log2 n < Z.of_nat fuel →
           encodeBigInt_while fuel (alphabetSymbol this) n acc = Return (s ++ acc).
Proof.
  intros Hthis. induction s as [| c s IH] using rev_ind; [done |].
  intros Hin _ Hhead. apply Forall_app in Hin as [Hin Hc].
  apply Forall_cons in Hc as [Hc _].
  apply elem_of_item in Hc as (d & Hd & Hitem).
  rewrite (validAlphabet_length _ (valid_alphabet _ Hthis)) in Hd.
  assert (Hlk : alphabetLookupSymbol this !! c = Some d).
  { apply (valid_alphabetLookup _ Hthis). split; [unfold BASE; lia | done]. }
  assert (Hstep : ∀ n' fuel acc, 0 ≤ n' → 0 < n' * 64 + d →
            encodeBigInt_while (S fuel) (alphabetSymbol this) (n' * 64 + d) acc
            = encodeBigInt_while fuel (alphabetSymbol this) n' (c :: acc)).
  { intros n' fuel acc Hn' Hpos. cbn [encodeBigInt_while].
    destruct (Z.eqb_spec (n' * 64 + d) 0); [lia |].
    rewrite Z.rem_mod_nonneg, Z.quot_div_nonneg by lia.
    replace ((n' * 64 + d) mod 64) with d
      by (Z.to_euclidean_division_equations; lia).
    replace ((n' * 64 + d) / 64) with n'
      by (Z.to_euclidean_division_equations; lia).
    by rewrite Hitem. }
  destruct s as [| c' s'] using rev_ind.
  - clear IH. cbn [app] in *. rewrite item_cons_0 in Hhead.
    assert (d ≠ 0) by (intros ->; congruence).
    exists d. split; [lia |]. split.
    + intros off r. cbn [digitsValue length]. rewrite Hlk.
      change (64 ^ Z.of_nat 1) with 64. done.
    + intros fuel acc Hfuel. destruct fuel as [| fuel].
      { pose proof (Z.log2_nonneg d). lia. }
      pose proof (Hstep 0 fuel acc ltac:(lia) ltac:(lia)) as Hs.
      replace (0 * 64 + d) with d in Hs by lia. rewrite Hs. by destruct fuel.
  - clear IHs'. destruct IH as (n' & Hn' & Hval & Henc).
    + done.
    + by destruct s'.
    + intros Heq. apply Hhead. rewrite <- Heq.
      rewrite item_app_l; [done |]. rewrite length_app. cbn [length]. lia.
    + exists (n' * 64 + d). split; [lia |]. split.
      * intros off r. rewrite digitsValue_app, Hval. cbn. rewrite Hlk. f_equal.
        rewrite (length_app (s' ++ [c'])). cbn [length].
        replace (Z.of_nat (length (s' ++ [c']) + 1))
          with (Z.of_nat (length (s' ++ [c'])) + 1) by lia.
        rewrite Z.pow_add_r by lia. lia.
      * intros fuel acc Hfuel. destruct fuel as [| fuel].
        { pose proof (Z.log2_nonneg (n' * 64 + d)). lia. }
        rewrite Hstep by lia. rewrite <- app_assoc. cbn [app]. apply Henc.
        destruct (log2_div_64 (n' * 64 + d) fuel ltac:(lia) Hfuel) as [Hz | [_ Hl]].
        -- Z.to_euclidean_division_equations; lia.
        -- replace ((n' * 64 + d) / 64) with n' in Hl
             by (Z.to_euclidean_division_equations; lia). done.
Qed.

(** X15: on a constructed instance [encodeBigInt(decodeBigInt(s))] is [s]
    for every canonical numeral [s]: digits of the alphabet, one at least,
    with no leading zero digit unless the numeral is the single zero digit,
    after an optional sign marker that the zero digit does not take. *)
Theorem encodeBigInt_decodeBigInt_canonical (v : value) (this : Base64)
    (neg : bool) (digits : jsstring) :
  constructor v = Return this →
  digits ≠ [] →
  Forall (λ c, c ∈ alphabetSymbol this) digits →
  (item digits 0 = item (alphabetSymbol this) 0 →
   length digits = 1%nat ∧ neg = false) →
  decodeBigInt this (if neg then NEGATIVE_CHAR :: digits else digits)
  ≫= encodeBigInt this
  = Return (if neg then NEGATIVE_CHAR :: digits else digits).
Proof.
  intros Hthis Hne Hin Hzero. apply constructor_valid in Hthis.
  assert (Hnoneg : Forall (λ c, c ≠ NEGATIVE_CHAR) digits).
  { eapply Forall_impl; [exact Hin |]. intros c Hc ->.
    by apply (validAlphabet_no_negative _ (valid_alphabet _ Hthis)) in Hc. }
  rewrite decodeBigInt_digits by done.
  destruct (decide (item digits 0 = item (alphabetSymbol this) 0)) as [Hz | Hnz].
  - destruct (Hzero Hz) as [Hlen ->].
    destruct digits as [| c [| ? ?]]; try done.
    rewrite item_cons_0 in Hz. symmetry in Hz.
    assert (Hlk : alphabetLookupSymbol this !! c = Some 0).
    { apply (valid_alphabetLookup _ Hthis). split; [unfold BASE; lia | done]. }
    cbn [digitsValue]. rewrite Hlk. cbn [mbind outcome_bind].
    change (0 * 64 + 0) with 0. unfold encodeBigInt.
    change (0 =? 0) with true. cbv iota. by rewrite Hz.
  - destruct (encodeBigInt_while_of_digits this digits Hthis Hin Hne Hnz)
      as (n & Hn & Hval & Henc).
    rewrite Hval. cbn [mbind outcome_bind]. rewrite Z.mul_0_l, Z.add_0_l.
    unfold encodeBigInt.
    set (N := if neg then - n else n).
    assert (HN : (N <? 0) = neg ∧ (if N <? 0 then - N else N) = n).
    { unfold N. destruct neg; [destruct (Z.ltb_spec (- n) 0) |
                                destruct (Z.ltb_spec n 0)]; split; lia. }
    destruct HN as [HN1 HN2].
    destruct (Z.eqb_spec N 0) as [HN0 | _];
      [unfold N in HN0; destruct neg; lia |].
    rewrite !HN2, HN1.
    rewrite Henc by lia. cbn [mbind outcome_bind]. by rewrite app_nil_r.
Qed.

Lemma encodeBigInt_decodeBigInt_canonical_witness :
  decodeBigInt base64 (NEGATIVE_CHAR :: lit "f////////A")
  ≫= encodeBigInt base64
  = Return (NEGATIVE_CHAR :: lit "f////////A").
Proof.
  refine (encodeBigInt_decodeBigInt_canonical VUndefined base64 true
            (lit "f////////A") eq_refl _ _ _).
  - done.
  - apply (bool_decide_unpack _). by vm_compute.
  - intros H. by vm_compute in H.
Defined.
